(** * Portfolio page script (script.js): a shallow embedding and its properties

    The script is a set of DOM event handlers installed by one
    [DOMContentLoaded] callback.  Each component is embedded in a module of
    its own, over records that hold exactly the DOM attributes the handlers
    read or write:

    - [JS]        values, strings, exceptions, [forEach], [%];
    - [DOMTokenList]  the [classList] operations;
    - [URI]       [encodeURIComponent];
    - [Nav]       [updateActiveNav] (script.js 32-54);
    - [Skills]    [animateSkills] (script.js 81-97);
    - [Carousel]  the per-card image carousel (script.js 99-140);
    - [Contact]   the contact form submit handler (script.js 166-197);
    - [Init]      the [DOMContentLoaded] callback as a whole (script.js 3-352).

    Numbers: [offsetTop], [innerHeight], lengths and indices are integers
    ([Z]); [scrollY] and the bounding rectangle are fractional pixels ([Q]).
    Strings are byte strings holding the UTF-8 form of the text. *)

From Stdlib Require Import List String Ascii Bool ZArith QArith Lia.
Import ListNotations.

Open Scope string_scope.
Open Scope Z_scope.

(* ===================================================================== *)
(** ** JavaScript values, exceptions, strings                             *)
(* ===================================================================== *)

Module JS.

(** The only exception the script can raise: a property access or a method
    call on [null] / [undefined]. *)
Inductive JSError : Type := TypeError.

(** How a statement sequence ends.  A [Throw] leaves every mutation made
    before it in place, so handlers return the state next to it. *)
Inductive Completion : Type :=
| Normal
| Throw (e : JSError).

(** A value that is a string or [null] ([getAttribute], [FormData.get],
    [querySelector] results are of this shape): [None] is [null]. *)
Definition ToString (v : option string) : string :=
  match v with
  | Some s => s
  | None => "null"
  end.

(** [Array.prototype.forEach] / [NodeList.prototype.forEach] with a
    callback that mutates the visited element only: elements are visited in
    order, and a throwing callback stops the loop, the remaining elements
    untouched. *)
Fixpoint forEach {A : Type} (f : A -> A * Completion) (l : list A)
  : list A * Completion :=
  match l with
  | [] => ([], Normal)
  | x :: rest =>
      match f x with
      | (x', Normal) =>
          let (rest', c) := forEach f rest in (x' :: rest', c)
      | (x', Throw e) => (x' :: rest, Throw e)
      end
  end.

(** [String.prototype.includes(searchString)]: does [sub] occur in [s]. *)
Fixpoint includes (s sub : string) : bool :=
  if String.prefix sub s then true
  else match s with
       | EmptyString => false
       | String _ s' => includes s' sub
       end.

(** The remainder operator [%] on integers: truncated, sign of the
    dividend.  (Every use in the script has a non-zero divisor.) *)
Definition rem (a b : Z) : Z := Z.rem a b.

End JS.

(* ===================================================================== *)
(** ** classList                                                          *)
(* ===================================================================== *)

Module DOMTokenList.

(** An ordered set of class names. *)
Definition t : Type := list string.

Definition contains (cl : t) (tok : string) : bool :=
  existsb (String.eqb tok) cl.

Definition remove (cl : t) (tok : string) : t :=
  filter (fun c => negb (String.eqb tok c)) cl.

Definition add (cl : t) (tok : string) : t :=
  if contains cl tok then cl else (cl ++ [tok])%list.

Definition toggle (cl : t) (tok : string) : t :=
  if contains cl tok then remove cl tok else (cl ++ [tok])%list.

End DOMTokenList.

(* ===================================================================== *)
(** ** Active navigation link (script.js 32-54)                           *)
(* ===================================================================== *)

Module Nav.
Import JS.

(** A [<section>] element: what [updateActiveNav] reads from it. *)
Record Section : Type := mkSection {
  offsetTop : Z;
  clientHeight : Z;
  id : option string          (* getAttribute('id'); None is null *)
}.

(** A [.nav-link] element. *)
Record Link : Type := mkLink {
  href : option string;       (* getAttribute('href'); None is null *)
  classList : DOMTokenList.t
}.

(** [window.scrollY >= sectionTop - 200] *)
Definition reached (scrollY : Q) (section : Section) : bool :=
  Qle_bool (inject_Z (offsetTop section - 200)) scrollY.

(** The first [forEach]: [current] starts as [''] and is overwritten by the
    id of every section the scroll offset has reached. *)
Definition scanSections (scrollY : Q) (sections : list Section)
  : option string :=
  fold_left
    (fun current section =>
       if reached scrollY section then id section else current)
    sections (Some "").

(** The callback of the second [forEach], on one link. *)
Definition markLink (current : option string) (link : Link)
  : Link * Completion :=
  let link1 :=
    mkLink (href link) (DOMTokenList.remove (classList link) "active") in
  match href link1 with
  | None => (link1, Throw TypeError)        (* null.includes(...) *)
  | Some h =>
      if includes h (ToString current)
      then (mkLink (href link1) (DOMTokenList.add (classList link1) "active"),
            Normal)
      else (link1, Normal)
  end.

Definition updateActiveNav (scrollY : Q) (sections : list Section)
           (links : list Link) : list Link * Completion :=
  let current := scanSections scrollY sections in
  forEach (markLink current) links.

Definition isActive (link : Link) : bool :=
  DOMTokenList.contains (classList link) "active".

Definition activeCount (links : list Link) : nat :=
  List.length (filter isActive links).

End Nav.

(* ===================================================================== *)
(** ** Skill progress animation (script.js 81-97)                         *)
(* ===================================================================== *)

Module Skills.
Import JS.

(** A [.skill-progress] element.  The rectangle is the live layout, as
    [getBoundingClientRect] reports it at the time of the call. *)
Record Bar : Type := mkBar {
  data_progress : option string;   (* getAttribute('data-progress') *)
  rect_top : Q;
  rect_bottom : Q;
  classList : DOMTokenList.t;
  style_width : string             (* the value last assigned to style.width *)
}.

(** [rect.top >= 0 && rect.bottom <= window.innerHeight] *)
Definition isVisible (innerHeight : Z) (bar : Bar) : bool :=
  Qle_bool 0 (rect_top bar) && Qle_bool (rect_bottom bar) (inject_Z innerHeight).

(** The [forEach] callback on one bar. *)
Definition animateBar (innerHeight : Z) (bar : Bar) : Bar :=
  let progress := data_progress bar in
  if isVisible innerHeight bar
     && negb (DOMTokenList.contains (classList bar) "animated")
  then mkBar (data_progress bar) (rect_top bar) (rect_bottom bar)
             (DOMTokenList.add (classList bar) "animated")
             (ToString progress ++ "%")
  else bar.

Definition animateSkills (innerHeight : Z) (skillBars : list Bar) : list Bar :=
  map (animateBar innerHeight) skillBars.

Definition animated (bar : Bar) : bool :=
  DOMTokenList.contains (classList bar) "animated".

(** Between two invocations the page may be scrolled or resized: the bar
    gets a new rectangle, nothing else of it changes. *)
Definition relayout (top bottom : Q) (bar : Bar) : Bar :=
  mkBar (data_progress bar) top bottom (classList bar) (style_width bar).

(** One later invocation: a viewport height and a rectangle for the bar. *)
Record Layout : Type := mkLayout {
  innerHeight : Z;
  top : Q;
  bottom : Q
}.

(** A run of invocations of the visibility check, each under its own
    layout, as seen by one bar. *)
Definition checks (layouts : list Layout) (bar : Bar) : Bar :=
  fold_left
    (fun b l => animateBar (innerHeight l) (relayout (top l) (bottom l) b))
    layouts bar.

End Skills.

(* ===================================================================== *)
(** ** Project image carousel (script.js 99-140)                          *)
(* ===================================================================== *)

Module Carousel.
Import JS.

(** A [.project-img] element. *)
Record Img : Type := mkImg { classList : DOMTokenList.t }.

(** The [.image-nav] container of the previous / next controls. *)
Record ImageNav : Type := mkImageNav { style_display : string }.

(** A [.project-card] element: the results of the three [querySelector]
    calls and of [querySelectorAll('.project-img')]. *)
Record Card : Type := mkCard {
  images : list Img;
  prevBtn : bool;                 (* querySelector('.prev-btn') is not null *)
  nextBtn : bool;                 (* querySelector('.next-btn') is not null *)
  imageNav : option ImageNav
}.

(** What the [forEach] callback installs for one card. *)
Inductive Registration : Type :=
| OnPrevClick
| OnNextClick
| SetInterval (ms : Z).

(** The closure of one card: [currentImageIndex] and the installed
    callbacks. *)
Record Closure : Type := mkClosure {
  currentImageIndex : Z;
  installed : list Registration
}.

Definition length (card : Card) : Z := Z.of_nat (List.length (images card)).

Definition hide (nav : ImageNav) : ImageNav := mkImageNav "none".

(** The [forEach] callback: the card after it, and its closure when the
    callback got past the early [return]. *)
Definition setup (card : Card) : Card * option Closure :=
  if length card <=? 1 then
    (mkCard (images card) (prevBtn card) (nextBtn card)
            (option_map hide (imageNav card)),
     None)
  else
    (card,
     Some (mkClosure 0
             ((if prevBtn card then [OnPrevClick] else [])
                ++ (if nextBtn card then [OnNextClick] else [])
                ++ [SetInterval 5000])%list)).

Definition deactivate (img : Img) : Img :=
  mkImg (DOMTokenList.remove (classList img) "active").

Definition activate (img : Img) : Img :=
  mkImg (DOMTokenList.add (classList img) "active").

(** [l[i] := f l[i]] for [i] in range. *)
Fixpoint updateAt (i : nat) (f : Img -> Img) (l : list Img) : list Img :=
  match l, i with
  | [], _ => []
  | x :: rest, O => f x :: rest
  | x :: rest, S j => x :: updateAt j f rest
  end.

(** [showImage(index)]: [images[index]] is [undefined] out of range, and
    the call on it throws after the loop has cleared every image. *)
Definition showImage (imgs : list Img) (index : Z) : list Img * Completion :=
  let cleared := map deactivate imgs in
  if (0 <=? index) && (index <? Z.of_nat (List.length imgs))
  then (updateAt (Z.to_nat index) activate cleared, Normal)
  else (cleared, Throw TypeError).

Definition withImages (card : Card) (imgs : list Img) : Card :=
  mkCard imgs (prevBtn card) (nextBtn card) (imageNav card).

Definition show (card : Card) (cl : Closure) (index : Z)
  : (Card * Closure) * Completion :=
  let (imgs, c) := showImage (images card) index in
  ((withImages card imgs, mkClosure index (installed cl)), c).

(** The click callback of [.prev-btn]. *)
Definition prevClick (card : Card) (cl : Closure) : (Card * Closure) * Completion :=
  show card cl (rem (currentImageIndex cl - 1 + length card) (length card)).

(** The click callback of [.next-btn]. *)
Definition nextClick (card : Card) (cl : Closure) : (Card * Closure) * Completion :=
  show card cl (rem (currentImageIndex cl + 1) (length card)).

(** The [setInterval] callback. *)
Definition autoRotate (card : Card) (cl : Closure) : (Card * Closure) * Completion :=
  show card cl (rem (currentImageIndex cl + 1) (length card)).

(** What can happen to a card once the page is set up. *)
Inductive Event : Type :=
| ClickPrev          (* a click where the previous control would be *)
| ClickNext
| IntervalElapsed.   (* 5000 ms went by *)

Definition registration_eqb (a b : Registration) : bool :=
  match a, b with
  | OnPrevClick, OnPrevClick => true
  | OnNextClick, OnNextClick => true
  | SetInterval x, SetInterval y => x =? y
  | _, _ => false
  end.

Definition has (cl : Closure) (r : Registration) : bool :=
  existsb (registration_eqb r) (installed cl).

(** Delivery of an event: a callback runs only if [setup] installed it. *)
Definition deliver (ev : Event) (st : Card * option Closure)
  : Card * option Closure :=
  match st with
  | (card, None) => (card, None)
  | (card, Some cl) =>
      let run (h : Card -> Closure -> (Card * Closure) * Completion) :=
        let '((card', cl'), _) := h card cl in (card', Some cl') in
      match ev with
      | ClickPrev => if has cl OnPrevClick then run prevClick else st
      | ClickNext => if has cl OnNextClick then run nextClick else st
      | IntervalElapsed => if has cl (SetInterval 5000) then run autoRotate else st
      end
  end.

Definition run (evs : list Event) (st : Card * option Closure)
  : Card * option Closure :=
  fold_left (fun s ev => deliver ev s) evs st.

(** The index of the closure, for statements about runs. *)
Definition indexOf (st : Card * option Closure) : option Z :=
  option_map currentImageIndex (snd st).

(** Positions of the images that carry the [active] class. *)
Definition displayed (card : Card) : list bool :=
  map (fun img => DOMTokenList.contains (classList img) "active") (images card).

(** The state of a card that was set up: more than one image and an index
    that points at one of them. *)
Definition inRange (card : Card) (cl : Closure) : Prop :=
  1 < length card /\ 0 <= currentImageIndex cl < length card.

(** The index an event leads to, with the wrap-around written as the
    mathematical modulus. *)
Definition target (ev : Event) (n : Z) (cl : Closure) : Z :=
  let i := currentImageIndex cl in
  match ev with
  | ClickPrev => if has cl OnPrevClick then (i - 1 + n) mod n else i
  | ClickNext => if has cl OnNextClick then (i + 1) mod n else i
  | IntervalElapsed => if has cl (SetInterval 5000) then (i + 1) mod n else i
  end.

End Carousel.


(* ===================================================================== *)
(** ** encodeURIComponent                                                 *)
(* ===================================================================== *)

Module URI.

(** The characters [encodeURIComponent] leaves as they are: ASCII letters,
    digits and [- _ . ! ~ * ' ( )]. *)
Definition isUnreserved (c : ascii) : bool :=
  let n := N_of_ascii c in
  ((65 <=? n) && (n <=? 90) || (97 <=? n) && (n <=? 122)
   || (48 <=? n) && (n <=? 57)
   || (n =? 45) || (n =? 95) || (n =? 46) || (n =? 33) || (n =? 126)
   || (n =? 42) || (n =? 39) || (n =? 40) || (n =? 41))%N.

(** Upper-case hexadecimal digit of a value below 16. *)
Definition hexDigit (n : N) : ascii :=
  if (n <? 10)%N then ascii_of_N (48 + n) else ascii_of_N (55 + n).

(** [%XX] for one byte. *)
Definition percentEncode (c : ascii) : string :=
  let n := N_of_ascii c in
  String "%" (String (hexDigit (n / 16)) (String (hexDigit (n mod 16)) "")).

(** Every byte of the UTF-8 form of the text is kept when unreserved and
    escaped otherwise. *)
Fixpoint encodeURIComponent (s : string) : string :=
  match s with
  | EmptyString => EmptyString
  | String c rest =>
      if isUnreserved c then String c (encodeURIComponent rest)
      else percentEncode c ++ encodeURIComponent rest
  end.

(** The value of a hexadecimal digit, either case. *)
Definition hexValue (c : ascii) : option N :=
  let n := N_of_ascii c in
  if ((48 <=? n) && (n <=? 57))%N then Some (n - 48)%N
  else if ((65 <=? n) && (n <=? 70))%N then Some (n - 55)%N
  else if ((97 <=? n) && (n <=? 102))%N then Some (n - 87)%N
  else None.

(** Reading a percent-encoded component back, byte by byte (what the mail
    handler does with the [subject] and [body] fields); [None] on a
    malformed escape. *)
Fixpoint percentDecode (s : string) : option string :=
  match s with
  | EmptyString => Some EmptyString
  | String c rest =>
      if Ascii.eqb c "%" then
        match rest with
        | String h (String l rest') =>
            match hexValue h, hexValue l with
            | Some a, Some b =>
                option_map (String (ascii_of_N (16 * a + b)))
                           (percentDecode rest')
            | _, _ => None
            end
        | _ => None
        end
      else option_map (String c) (percentDecode rest)
  end.

End URI.

(* ===================================================================== *)
(** ** Contact form (script.js 166-197)                                   *)
(* ===================================================================== *)

Module Contact.
Import JS.

(** A named form control. [reset()] puts [defaultValue] back into [value]. *)
Record Field : Type := mkField {
  name : string;
  value : string;
  defaultValue : string
}.

(** The [button[type=submit]] of the form. *)
Record Button : Type := mkButton {
  innerHTML : string;
  style_background : string
}.

Record Form : Type := mkForm {
  fields : list Field;
  submitButton : option Button     (* querySelector('button[type="submit"]') *)
}.

(** The [setTimeout] callback of a submission, with the [originalText] its
    closure captured. *)
Inductive Callback : Type :=
| RestoreButton (originalText : string).

Record Timer : Type := mkTimer {
  due : Z;                 (* the time at which the callback is run *)
  callback : Callback
}.

(** The part of the page the handler works on: the form, the location, the
    clock (in ms) and the timers that are pending, earliest first. *)
Record Page : Type := mkPage {
  form : Form;
  location_href : string;
  now : Z;
  timers : list Timer
}.

Definition quote : string := String (ascii_of_nat 34) EmptyString.
Definition newline : string := String (ascii_of_nat 10) EmptyString.

(** [new FormData(contactForm)]: the entry list, one entry per control. *)
Definition FormData (f : Form) : list (string * string) :=
  map (fun fd => (name fd, value fd)) (fields f).

(** [formData.get(key)]: the value of the first entry of that name, or
    [null]. *)
Fixpoint get (formData : list (string * string)) (key : string)
  : option string :=
  match formData with
  | [] => None
  | (k, v) :: rest => if String.eqb k key then Some v else get rest key
  end.

Definition recipient : string := "imriteshreddy1035@gmail.com".

(** The template literal of the body. *)
Definition bodyText (name email message : option string) : string :=
  "Name: " ++ ToString name ++ newline
  ++ "Email: " ++ ToString email ++ newline ++ newline
  ++ "Message:" ++ newline ++ ToString message.

(** The template literal of [mailtoLink]. *)
Definition mailtoLink (name email subject message : option string) : string :=
  "mailto:" ++ recipient
  ++ "?subject=" ++ URI.encodeURIComponent (ToString subject)
  ++ "&body=" ++ URI.encodeURIComponent (bodyText name email message).

Definition confirmation : string :=
  "<i class=" ++ quote ++ "fas fa-check" ++ quote ++ "></i> Message Prepared!".

(** [setTimeout(cb, delay)]: the timer is queued behind every timer that is
    due no later than it. *)
Fixpoint enqueue (tm : Timer) (queue : list Timer) : list Timer :=
  match queue with
  | [] => [tm]
  | q :: rest =>
      if due q <=? due tm then q :: enqueue tm rest else tm :: q :: rest
  end.

Definition setTimeout (cb : Callback) (delay : Z) (p : Page) : Page :=
  mkPage (form p) (location_href p) (now p)
         (enqueue (mkTimer (now p + delay) cb) (timers p)).

(** The submit handler. *)
Definition submit (p : Page) : Page * Completion :=
  let formData := FormData (form p) in
  let name := get formData "name" in
  let email := get formData "email" in
  let subject := get formData "subject" in
  let message := get formData "message" in
  let link := mailtoLink name email subject message in
  let p1 := mkPage (form p) link (now p) (timers p) in
  match submitButton (form p1) with
  | None => (p1, Throw TypeError)            (* null.innerHTML *)
  | Some button =>
      let originalText := innerHTML button in
      let button' := mkButton confirmation "#10b981" in
      let p2 := mkPage (mkForm (fields (form p1)) (Some button'))
                       (location_href p1) (now p1) (timers p1) in
      (setTimeout (RestoreButton originalText) 3000 p2, Normal)
  end.

(** [contactForm.reset()] *)
Definition reset (f : Form) : Form :=
  mkForm (map (fun fd => mkField (name fd) (defaultValue fd) (defaultValue fd))
              (fields f))
         (submitButton f).

(** Running a timer callback. *)
Definition fire (cb : Callback) (f : Form) : Form :=
  match cb with
  | RestoreButton originalText =>
      reset (mkForm (fields f)
                    (option_map (fun _ => mkButton originalText "")
                                (submitButton f)))
  end.

(** The callbacks of the timers due by [t], in queue order, and the timers
    left. *)
Fixpoint runDue (t : Z) (queue : list Timer) (f : Form) : Form * list Timer :=
  match queue with
  | [] => (f, [])
  | q :: rest =>
      if due q <=? t then runDue t rest (fire (callback q) f)
      else (f, queue)
  end.

(** [d] ms go by with no user action. *)
Definition elapse (d : Z) (p : Page) : Page :=
  let t := now p + Z.max 0 d in
  let (f, queue) := runDue t (timers p) (form p) in
  mkPage f (location_href p) t queue.

(** The user types [v] into the control called [key]. *)
Definition input (key v : string) (p : Page) : Page :=
  mkPage
    (mkForm (map (fun fd => if String.eqb (name fd) key
                            then mkField (name fd) v (defaultValue fd)
                            else fd)
                 (fields (form p)))
            (submitButton (form p)))
    (location_href p) (now p) (timers p).

(** What happens to the form during the life of the page. *)
Inductive Event : Type :=
| Submit
| Elapse (d : Z)
| Input (key v : string).

Definition step (ev : Event) (p : Page) : Page :=
  match ev with
  | Submit => fst (submit p)
  | Elapse d => elapse d p
  | Input key v => input key v p
  end.

(** The page as loaded: the clock at 0 and no timer. *)
Definition loaded (f : Form) (url : string) : Page := mkPage f url 0 [].

Inductive reachable (f : Form) (url : string) : Page -> Prop :=
| reach_loaded : reachable f url (loaded f url)
| reach_step : forall ev p, reachable f url p -> reachable f url (step ev p).

Definition label (p : Page) : option string :=
  option_map innerHTML (submitButton (form p)).

Definition values (p : Page) : list string :=
  map value (fields (form p)).

Definition defaults (p : Page) : list string :=
  map defaultValue (fields (form p)).

(** The link a submission of the page as it stands would build. *)
Definition link (p : Page) : string :=
  mailtoLink (get (FormData (form p)) "name") (get (FormData (form p)) "email")
             (get (FormData (form p)) "subject") (get (FormData (form p)) "message").

(** Every pending timer was set at most 3000 ms before it is due. *)
Definition pendingSoon (p : Page) : Prop :=
  Forall (fun q => due q <= now p + 3000) (timers p).

End Contact.


(* ===================================================================== *)
(** ** The DOMContentLoaded callback (script.js 3-352)                    *)
(* ===================================================================== *)

Module Init.
Import JS.

(** An element of which the script touches the class list only. *)
Record Element : Type := mkElement { classList : DOMTokenList.t }.

(** The page as the callback finds it: the result of every
    [document.querySelector] (an element or [null]) and
    [document.querySelectorAll] (a list, possibly empty) it performs, and the
    two window properties it reads.  For the element lists that only get
    listeners attached, the number of matches is all that matters. *)
Record Document : Type := mkDocument {
  hamburger : option Element;            (* '.hamburger' *)
  navMenu : option Element;              (* '.nav-menu' *)
  navLinks : list Nav.Link;              (* '.nav-link' *)
  navbar : option Element;               (* '.navbar' *)
  sections : list Nav.Section;           (* 'section' *)
  typingText : option string;            (* '.typing-text', its textContent *)
  skillBars : list Skills.Bar;           (* '.skill-progress' *)
  projectCards : list Carousel.Card;     (* '.project-card' *)
  animatedElements : nat;                (* the fade-in selector list *)
  contactForm : option Contact.Form;     (* '.contact-form' *)
  socialLinks : nat;                     (* '.social-link' *)
  anchorLinks : nat;                     (* 'a[href^="#"]' *)
  scrollY : Q;
  innerHeight : Z
}.

(** The callbacks the script defines. *)
Inductive Handler : Type :=
| ToggleMenu                       (* 9-12 *)
| CloseMenu                        (* 16-19 *)
| NavbarScrolled                   (* 24-30 *)
| UpdateActiveNav                  (* 36-52 *)
| TypeWriter (text : string)       (* 63-76 *)
| AnimateSkills                    (* 83-94 *)
| CarouselPrev | CarouselNext | CarouselRotate   (* 122-139 *)
| SubmitContact                    (* 169-196 *)
| SocialEnter | SocialLeave        (* 202-208 *)
| SmoothScroll                     (* 214-226 *)
| ThrottledScroll                  (* 259-267 *)
| PageLoaded                       (* 281-294 *)
| KeyDown | MouseDown | BeforePrint | AfterPrint.   (* 334-351 *)

(** Where a callback is installed. *)
Inductive Target : Type :=
| OnWindow
| OnDocument
| OnHamburger
| OnNavLink (i : nat)
| OnCard (i : nat)
| OnContactForm
| OnSocialLink (i : nat)
| OnAnchorLink (i : nat).

(** One [addEventListener], [setTimeout], [setInterval] or [observe] call. *)
Inductive Installed : Type :=
| Listener (target : Target) (event : string) (h : Handler)
| SetTimeout (h : Handler) (ms : Z)
| SetInterval (target : Target) (h : Handler) (ms : Z)
| Observed (i : nat).

Definition withHamburger (d : Document) (e : option Element) : Document :=
  mkDocument e (navMenu d) (navLinks d) (navbar d) (sections d)
    (typingText d) (skillBars d) (projectCards d) (animatedElements d)
    (contactForm d) (socialLinks d) (anchorLinks d) (scrollY d) (innerHeight d).

Definition withNavMenu (d : Document) (e : option Element) : Document :=
  mkDocument (hamburger d) e (navLinks d) (navbar d) (sections d)
    (typingText d) (skillBars d) (projectCards d) (animatedElements d)
    (contactForm d) (socialLinks d) (anchorLinks d) (scrollY d) (innerHeight d).

Definition withNavbar (d : Document) (e : option Element) : Document :=
  mkDocument (hamburger d) (navMenu d) (navLinks d) e (sections d)
    (typingText d) (skillBars d) (projectCards d) (animatedElements d)
    (contactForm d) (socialLinks d) (anchorLinks d) (scrollY d) (innerHeight d).

Definition withTypingText (d : Document) (t : option string) : Document :=
  mkDocument (hamburger d) (navMenu d) (navLinks d) (navbar d) (sections d)
    t (skillBars d) (projectCards d) (animatedElements d)
    (contactForm d) (socialLinks d) (anchorLinks d) (scrollY d) (innerHeight d).

Definition withSkillBars (d : Document) (b : list Skills.Bar) : Document :=
  mkDocument (hamburger d) (navMenu d) (navLinks d) (navbar d) (sections d)
    (typingText d) b (projectCards d) (animatedElements d)
    (contactForm d) (socialLinks d) (anchorLinks d) (scrollY d) (innerHeight d).

Definition withProjectCards (d : Document) (c : list Carousel.Card) : Document :=
  mkDocument (hamburger d) (navMenu d) (navLinks d) (navbar d) (sections d)
    (typingText d) (skillBars d) c (animatedElements d)
    (contactForm d) (socialLinks d) (anchorLinks d) (scrollY d) (innerHeight d).

(** [list.forEach((x, i) => ...)] over a list of [n] elements, for callbacks
    that only install something. *)
Definition forIndices {A : Type} (n : nat) (f : nat -> list A) : list A :=
  flat_map f (seq 0 n).

(** What the carousel callback installs for card [i] (script.js 102-140). *)
Definition carouselInstalls (i : nat) (card : Carousel.Card) : list Installed :=
  match snd (Carousel.setup card) with
  | None => []
  | Some cl =>
      map (fun r =>
             match r with
             | Carousel.OnPrevClick => Listener (OnCard i) "click" CarouselPrev
             | Carousel.OnNextClick => Listener (OnCard i) "click" CarouselNext
             | Carousel.SetInterval ms => SetInterval (OnCard i) CarouselRotate ms
             end)
          (Carousel.installed cl)
  end.

Fixpoint carouselsFrom (i : nat) (cards : list Carousel.Card) : list Installed :=
  match cards with
  | [] => []
  | card :: rest => (carouselInstalls i card ++ carouselsFrom (S i) rest)%list
  end.

(** The callback, statement by statement.  The result is the page after it,
    what it installed (in order), and how it ended. *)
Definition init (d : Document) : (Document * list Installed) * Completion :=
  match hamburger d with
  | None => ((d, []), Throw TypeError)     (* line 9: null.addEventListener *)
  | Some _ =>
      (* 9-30 *)
      let menu :=
        (Listener OnHamburger "click" ToggleMenu
         :: forIndices (List.length (navLinks d))
              (fun i => [Listener (OnNavLink i) "click" CloseMenu]))%list in
      let bar := [Listener OnWindow "scroll" NavbarScrolled] in
      (* 33-54 *)
      let nav := [Listener OnWindow "scroll" UpdateActiveNav] in
      (* 57-79 *)
      let typing :=
        match typingText d with
        | Some text => [SetTimeout (TypeWriter text) 1000]
        | None => []
        end in
      let d1 := withTypingText d (option_map (fun _ => "") (typingText d)) in
      (* 82-97 *)
      let skills := [Listener OnWindow "scroll" AnimateSkills] in
      let d2 := withSkillBars d1 (Skills.animateSkills (innerHeight d1) (skillBars d1)) in
      (* 100-140 *)
      let carousels := carouselsFrom 0 (projectCards d2) in
      let d3 := withProjectCards d2
                  (map (fun c => fst (Carousel.setup c)) (projectCards d2)) in
      (* 143-164 *)
      let fades := forIndices (animatedElements d3) (fun i => [Observed i]) in
      (* 167-197 *)
      let contact :=
        match contactForm d3 with
        | Some _ => [Listener OnContactForm "submit" SubmitContact]
        | None => []
        end in
      (* 200-227 *)
      let social :=
        forIndices (socialLinks d3)
          (fun i => [Listener (OnSocialLink i) "mouseenter" SocialEnter;
                     Listener (OnSocialLink i) "mouseleave" SocialLeave]) in
      let anchors :=
        forIndices (anchorLinks d3)
          (fun i => [Listener (OnAnchorLink i) "click" SmoothScroll]) in
      (* 259-351 *)
      let rest :=
        [Listener OnWindow "scroll" ThrottledScroll;
         Listener OnWindow "load" PageLoaded;
         Listener OnDocument "keydown" KeyDown;
         Listener OnDocument "mousedown" MouseDown;
         Listener OnWindow "beforeprint" BeforePrint;
         Listener OnWindow "afterprint" AfterPrint] in
      ((d3, (menu ++ bar ++ nav ++ typing ++ skills ++ carousels ++ fades
             ++ contact ++ social ++ anchors ++ rest)%list),
       Normal)
  end.

Definition onClass (f : DOMTokenList.t -> DOMTokenList.t) (e : Element) : Element :=
  mkElement (f (classList e)).

(** The click callback of the hamburger (script.js 9-12). *)
Definition toggleMenu (d : Document) : Document * Completion :=
  match hamburger d with
  | None => (d, Throw TypeError)
  | Some h =>
      let d1 := withHamburger d
                  (Some (onClass (fun cl => DOMTokenList.toggle cl "active") h)) in
      match navMenu d1 with
      | None => (d1, Throw TypeError)           (* null.classList *)
      | Some m =>
          (withNavMenu d1
             (Some (onClass (fun cl => DOMTokenList.toggle cl "active") m)),
           Normal)
      end
  end.

(** The click callback of a navigation link (script.js 16-19). *)
Definition closeMenu (d : Document) : Document * Completion :=
  match hamburger d with
  | None => (d, Throw TypeError)
  | Some h =>
      let d1 := withHamburger d
                  (Some (onClass (fun cl => DOMTokenList.remove cl "active") h)) in
      match navMenu d1 with
      | None => (d1, Throw TypeError)           (* null.classList *)
      | Some m =>
          (withNavMenu d1
             (Some (onClass (fun cl => DOMTokenList.remove cl "active") m)),
           Normal)
      end
  end.

(** The scroll callback of the navbar effect (script.js 24-30). *)
Definition navbarScrolled (d : Document) : Document * Completion :=
  match navbar d with
  | None => (d, Throw TypeError)                (* null.classList, either branch *)
  | Some n =>
      if negb (Qle_bool (scrollY d) (inject_Z 100))      (* scrollY > 100 *)
      then (withNavbar d (Some (onClass (fun cl => DOMTokenList.add cl "scrolled") n)),
            Normal)
      else (withNavbar d (Some (onClass (fun cl => DOMTokenList.remove cl "scrolled") n)),
            Normal)
  end.

(** Is a callback among what was installed. *)
Definition installs (h : Handler) (l : list Installed) : Prop :=
  exists x, In x l /\
            match x with
            | Listener _ _ h' => h' = h
            | SetTimeout h' _ => h' = h
            | SetInterval _ h' _ => h' = h
            | Observed _ => False
            end.

End Init.


(* ===================================================================== *)
(** ** Sample pages                                                       *)
(* ===================================================================== *)

Module Sample.

(** Three sections below a header of 600 px, and their navigation links. *)
Definition sections : list Nav.Section :=
  [Nav.mkSection 600 700 (Some "about");
   Nav.mkSection 1300 900 (Some "skills");
   Nav.mkSection 2200 800 (Some "contact")].

Definition links : list Nav.Link :=
  [Nav.mkLink (Some "#about") ["nav-link"];
   Nav.mkLink (Some "#skills") ["nav-link"];
   Nav.mkLink (Some "#contact") ["nav-link"]].

(** A bar that was animated to 80%, later scrolled out of the viewport. *)
Definition bar : Skills.Bar :=
  Skills.mkBar (Some "80") (-300 # 1) (-280 # 1)
               ["skill-progress"; "animated"] "80%".

(** A bar below the fold that comes into full view. *)
Definition freshBar : Skills.Bar :=
  Skills.mkBar (Some "65") (900 # 1) (920 # 1) ["skill-progress"] "".

Definition layouts : list Skills.Layout :=
  [Skills.mkLayout 800 (100 # 1) (120 # 1);
   Skills.mkLayout 800 (-40 # 1) (-20 # 1);
   Skills.mkLayout 600 (10 # 1) (30 # 1)].

Definition img (active : bool) : Carousel.Img :=
  Carousel.mkImg (if active then ["project-img"; "active"] else ["project-img"]).

(** A card with four screenshots and both controls. *)
Definition card4 : Carousel.Card :=
  Carousel.mkCard [img true; img false; img false; img false] true true
                  (Some (Carousel.mkImageNav "")).

(** A card with one screenshot whose markup still has the controls. *)
Definition card1 : Carousel.Card :=
  Carousel.mkCard [img true] true true (Some (Carousel.mkImageNav "")).

Definition button : Contact.Button := Contact.mkButton "Send Message" "".

(** The form as the visitor filled it in. *)
Definition janeForm : Contact.Form :=
  Contact.mkForm
    [Contact.mkField "name" "Jane" "";
     Contact.mkField "email" "jane@x.com" "";
     Contact.mkField "subject" "Hi" "";
     Contact.mkField "message" "Hello" ""]
    (Some button).

(** The same form on a page whose markup presets the subject. *)
Definition presetForm : Contact.Form :=
  Contact.mkForm
    [Contact.mkField "name" "Jane" "";
     Contact.mkField "email" "jane@x.com" "";
     Contact.mkField "subject" "Hi" "Project enquiry";
     Contact.mkField "message" "Hello" ""]
    (Some button).

Definition url : string := "https://example.org/index.html".

(** A page with every hook the script looks for. *)
Definition page : Init.Document :=
  Init.mkDocument (Some (Init.mkElement ["hamburger"]))
    (Some (Init.mkElement ["nav-menu"])) links
    (Some (Init.mkElement ["navbar"])) sections
    (Some "Ritesh Reddy") [freshBar] [card4; card1] 6 (Some janeForm) 2 3
    (0 # 1) 800.

(** The same page without the mobile navigation toggle. *)
Definition pageNoHamburger : Init.Document := Init.withHamburger page None.

(** The same page without the navigation menu, and without the navbar. *)
Definition pageNoNavMenu : Init.Document := Init.withNavMenu page None.
Definition pageNoNavbar : Init.Document := Init.withNavbar page None.

(** The same page without the typing text and without the contact form. *)
Definition pageNoTypingNoForm : Init.Document :=
  Init.mkDocument (Some (Init.mkElement ["hamburger"]))
    (Some (Init.mkElement ["nav-menu"])) links
    (Some (Init.mkElement ["navbar"])) sections
    None [freshBar] [card4; card1] 6 None 2 3 (0 # 1) 800.

End Sample.

From Stdlib Require Import Sorted.

(* ===================================================================== *)
(** ** Typing animation (script.js 56-79)                                 *)
(* ===================================================================== *)

Module Typing.

(** The two timer callbacks of the animation. *)
Inductive Callback : Type :=
| TypeWriterCb        (* typeWriter, 63-76 *)
| RemoveCursorCb.     (* the arrow function, 70-74 *)

Section Units.

(** A string is the sequence of its code units here, since [charAt] and
    [length] count code units. *)
Variable U : Type.

(** The closure of the animation: the saved [text], the counter [i], the
    element's [textContent] and [style.position], the clock (ms) and the one
    timer that can be pending. *)
Record State : Type := mkState {
  text : list U;
  textContent : list U;
  i : nat;
  style_position : string;
  now : Z;
  pending : option (Z * Callback)
}.

(** [text.charAt(k)]: the unit at [k], the empty string out of range. *)
Definition charAt (s : list U) (k : nat) : list U :=
  match nth_error s k with
  | Some u => [u]
  | None => []
  end.

(** Lines 59-61 and 78, run at time [t0] on an element whose text is
    [content]. *)
Definition start (content : list U) (position : string) (t0 : Z) : State :=
  mkState content [] 0 position t0 (Some (t0 + 1000, TypeWriterCb)).

(** [typeWriter()] *)
Definition typeWriter (st : State) : State :=
  if (i st <? List.length (text st))%nat
  then mkState (text st) (textContent st ++ charAt (text st) (i st)) (S (i st))
               (style_position st) (now st) (Some (now st + 100, TypeWriterCb))
  else mkState (text st) (textContent st) (i st)
               (style_position st) (now st) (Some (now st + 1000, RemoveCursorCb)).

(** The arrow function of lines 70-74.  [querySelector('::after')] selects no
    element, so [cursor] is [null] and the last statement does nothing. *)
Definition removeCursor (st : State) : State :=
  mkState (text st) (textContent st) (i st) "relative" (now st) (pending st).

(** The pending timer fires, at the time it is due. *)
Definition fire (st : State) : State :=
  match pending st with
  | None => st
  | Some (due, cb) =>
      let st1 := mkState (text st) (textContent st) (i st) (style_position st)
                         (Z.max (now st) due) None in
      match cb with
      | TypeWriterCb => typeWriter st1
      | RemoveCursorCb => removeCursor st1
      end
  end.

(** [k] firings in a row. *)
Definition fires (k : nat) (st : State) : State := Nat.iter k fire st.

(** The timers due by [t] fire, one after the other. *)
Fixpoint advance (fuel : nat) (t : Z) (st : State) : State :=
  match fuel with
  | O => st
  | S fuel' =>
      match pending st with
      | Some (due, _) => if due <=? t then advance fuel' t (fire st) else st
      | None => st
      end
  end.

(** The page at time [t]: no more than [length text + 2] timers are ever
    set. *)
Definition at_time (t : Z) (st : State) : State :=
  let st' := advance (List.length (text st) + 2) t st in
  mkState (text st') (textContent st') (i st') (style_position st')
          (Z.max (now st') t) (pending st').

(** How many units are on display at time [t], for an animation started at
    [t0] on a text of [n] units. *)
Definition shown (t0 : Z) (n : nat) (t : Z) : nat :=
  if t <? t0 + 1000 then O
  else Nat.min n (Z.to_nat ((t - t0 - 1000) / 100) + 1).

(** When the [j]-th timer of the animation (counting from 1) is due. *)
Definition dueOf (t0 : Z) (n : nat) (j : nat) : Z :=
  if (j <=? n + 1)%nat then t0 + 1000 + 100 * (Z.of_nat j - 1)
  else t0 + 2000 + 100 * Z.of_nat n.

(** The state after [k] firings, in closed form. *)
Definition typed (content : list U) (position : string) (t0 : Z) (k : nat)
  : State :=
  let n := List.length content in
  match k with
  | O => start content position t0
  | S _ =>
      if (k <=? n)%nat then
        mkState content (firstn k content) k position
                (dueOf t0 n k) (Some (dueOf t0 n (S k), TypeWriterCb))
      else if (k =? n + 1)%nat then
        mkState content content n position
                (dueOf t0 n k) (Some (dueOf t0 n (S k), RemoveCursorCb))
      else
        mkState content content n "relative" (dueOf t0 n (n + 2)) None
  end.

End Units.

Arguments typed {U}.
Arguments mkState {U}.
Arguments text {U}.
Arguments textContent {U}.
Arguments i {U}.
Arguments style_position {U}.
Arguments now {U}.
Arguments pending {U}.
Arguments charAt {U}.
Arguments start {U}.
Arguments typeWriter {U}.
Arguments removeCursor {U}.
Arguments fire {U}.
Arguments fires {U}.
Arguments advance {U}.
Arguments at_time {U}.

End Typing.

(* ===================================================================== *)
(** ** debounce and throttle (script.js 354-378)                          *)
(* ===================================================================== *)

(** The delay of [setTimeout(handler, ms)] for an integer [ms]: the argument
    is converted to a 32-bit signed integer (modulo 2^32), and a negative
    result counts as 0. *)
Module Timers.

Definition toInt32 (ms : Z) : Z :=
  (ms + 2147483648) mod 4294967296 - 2147483648.

Definition delayOf (ms : Z) : Z := Z.max 0 (toInt32 ms).

End Timers.

Module Debounce.

Section Args.

(** The argument list of one call. *)
Variable A : Type.

(** The closure of [debounce(func, wait)]: [wait], the live timer behind
    [timeout] (when it is due and the arguments its [later] captured), and,
    to observe [func], the time and arguments of each of its invocations. *)
Record State : Type := mkState {
  wait : Z;
  timeout : option (Z * A);
  invoked : list (Z * A);
  now : Z
}.

(** [debounce(func, wait)], created at time [t0]. *)
Definition create (w : Z) (t0 : Z) : State := mkState w None [] t0.

(** [executedFunction(...args)]: the live timer is cleared and a new one is
    set, with [wait] as its delay. *)
Definition call (args : A) (st : State) : State :=
  mkState (wait st) (Some (now st + Timers.delayOf (wait st), args))
          (invoked st) (now st).

(** [d] ms go by: the timer, if due by then, runs [later], which invokes
    [func] with the captured arguments. *)
Definition elapse (d : Z) (st : State) : State :=
  let t := now st + Z.max 0 d in
  match timeout st with
  | Some (due, args) =>
      if due <=? t
      then mkState (wait st) None (invoked st ++ [(due, args)]) t
      else mkState (wait st) (timeout st) (invoked st) t
  | None => mkState (wait st) None (invoked st) t
  end.

Inductive Event : Type :=
| Call (args : A)
| Elapse (d : Z).

Definition step (st : State) (ev : Event) : State :=
  match ev with
  | Call args => call args st
  | Elapse d => elapse d st
  end.

Definition run (evs : list Event) (st : State) : State := fold_left step evs st.

(** A burst: each call comes [gap] ms after the one before. *)
Definition burst (calls : list (Z * A)) : list Event :=
  flat_map (fun c => [Elapse (fst c); Call (snd c)]) calls.

(** How long a burst lasts. *)
Definition duration (calls : list (Z * A)) : Z :=
  fold_right (fun c acc => Z.max 0 (fst c) + acc) 0 calls.

(** The arguments of the calls of a trace, in order. *)
Definition callsOf (evs : list Event) : list A :=
  flat_map (fun ev => match ev with Call a => [a] | Elapse _ => [] end) evs.

End Args.

Arguments mkState {A}.
Arguments wait {A}.
Arguments timeout {A}.
Arguments invoked {A}.
Arguments now {A}.
Arguments create {A}.
Arguments call {A}.
Arguments elapse {A}.
Arguments Call {A}.
Arguments Elapse {A}.
Arguments step {A}.
Arguments run {A}.
Arguments burst {A}.
Arguments duration {A}.
Arguments callsOf {A}.

End Debounce.

Module Throttle.

Section Args.

Variable A : Type.

(** The closure of [throttle(func, limit)]: [limit], [inThrottle], the timer
    that will clear it, and the invocations of [func]. *)
Record State : Type := mkState {
  limit : Z;
  inThrottle : bool;            (* undefined counts as false *)
  unlock : option Z;            (* when the pending timer is due *)
  invoked : list (Z * A);
  now : Z
}.

Definition create (l : Z) (t0 : Z) : State := mkState l false None [] t0.

(** The returned function, called with [args] at a time when [func], if it
    is invoked, completes as [c].  [func.apply] comes first: when it throws,
    the exception leaves the function and neither [inThrottle] nor the timer
    is set. *)
Definition call (args : A) (c : JS.Completion) (st : State)
  : State * JS.Completion :=
  if negb (inThrottle st)
  then
    let st1 := mkState (limit st) (inThrottle st) (unlock st)
                       (invoked st ++ [(now st, args)]) (now st) in
    match c with
    | JS.Normal =>
        (mkState (limit st1) true (Some (now st1 + Timers.delayOf (limit st1)))
                 (invoked st1) (now st1),
         JS.Normal)
    | JS.Throw e => (st1, JS.Throw e)
    end
  else (st, JS.Normal).

(** [d] ms go by: the timer, if due by then, clears [inThrottle]. *)
Definition elapse (d : Z) (st : State) : State :=
  let t := now st + Z.max 0 d in
  match unlock st with
  | Some due =>
      if due <=? t
      then mkState (limit st) false None (invoked st) t
      else mkState (limit st) (inThrottle st) (unlock st) (invoked st) t
  | None => mkState (limit st) (inThrottle st) None (invoked st) t
  end.

Inductive Event : Type :=
| Call (args : A) (c : JS.Completion)
| Elapse (d : Z).

Definition step (st : State) (ev : Event) : State :=
  match ev with
  | Call args c => fst (call args c st)
  | Elapse d => elapse d st
  end.

Definition run (evs : list Event) (st : State) : State := fold_left step evs st.

(** Does [func] return normally at every call of the trace. *)
Definition returns (ev : Event) : Prop :=
  match ev with
  | Call _ c => c = JS.Normal
  | Elapse _ => True
  end.

(** Consecutive entries are at least [gap] apart. *)
Fixpoint spaced (gap : Z) (times : list Z) : Prop :=
  match times with
  | [] => True
  | t1 :: rest =>
      match rest with
      | [] => True
      | t2 :: _ => t1 + gap <= t2
      end /\ spaced gap rest
  end.

(** What holds of the closure at any time when [func] never throws: the
    last invocation is in the past; while [inThrottle] is set the timer that
    clears it is pending, due the delay of [limit] after that invocation;
    once it is cleared, [limit] has gone by. *)
Definition consistent (st : State) : Prop :=
  match rev (map fst (invoked st)) with
  | [] => inThrottle st = false /\ unlock st = None
  | tl :: _ =>
      tl <= now st
      /\ if inThrottle st
         then unlock st = Some (tl + Timers.delayOf (limit st))
         else unlock st = None /\ tl + limit st <= now st
  end.

End Args.

Arguments consistent {A}.
Arguments returns {A}.
Arguments mkState {A}.
Arguments limit {A}.
Arguments inThrottle {A}.
Arguments unlock {A}.
Arguments invoked {A}.
Arguments now {A}.
Arguments create {A}.
Arguments call {A}.
Arguments elapse {A}.
Arguments Call {A}.
Arguments Elapse {A}.
Arguments step {A}.
Arguments run {A}.

End Throttle.

(* ===================================================================== *)
(** ** Events on a page that was set up                                   *)
(* ===================================================================== *)

(** Which image a card displays, and where a run of events takes it. *)
Module Gallery.

(** The [active] flags of [n] images of which the one at [k] is displayed. *)
Definition onehot (n : nat) (k : Z) : list bool :=
  map (fun j => Z.of_nat j =? k) (seq 0 n).

(** The [active] flags of a list of images. *)
Definition flagsOf (imgs : list Carousel.Img) : list bool :=
  map (fun img => DOMTokenList.contains (Carousel.classList img) "active") imgs.

(** How far a run of events moves the index when every callback is
    installed: one forward per click on next and per interval, one back per
    click on previous. *)
Definition net (evs : list Carousel.Event) : Z :=
  fold_right
    (fun ev acc =>
       match ev with
       | Carousel.ClickPrev => acc - 1
       | Carousel.ClickNext => acc + 1
       | Carousel.IntervalElapsed => acc + 1
       end)
    0 evs.

(** The intervals among what [init] installed. *)
Definition intervals (l : list Init.Installed) : list Init.Installed :=
  filter (fun x => match x with Init.SetInterval _ _ _ => true | _ => false end) l.

(** The intervals that sit on the card at position [j]. *)
Definition intervalsOn (j : nat) (l : list Init.Installed) : list Init.Installed :=
  filter (fun x => match x with
                   | Init.SetInterval (Init.OnCard k) _ _ => Nat.eqb k j
                   | _ => false
                   end) l.

(** The intervals that [init] is to start on the card at position [j]: the
    rotation, when the card is there and has more than one image. *)
Definition expectedOn (j : nat) (card : option Carousel.Card)
  : list Init.Installed :=
  match card with
  | Some c =>
      if Carousel.length c <=? 1 then []
      else [Init.SetInterval (Init.OnCard j) Init.CarouselRotate 5000]
  | None => []
  end.

(** Are the previous / next controls of the card out of sight: they are when
    the [.image-nav] container that holds them has [display: none]; on a card
    without that container nothing hides them, so they are only when the card
    has no control at all. *)
Definition controlsHidden (card : Carousel.Card) : bool :=
  match Carousel.imageNav card with
  | Some nav => String.eqb (Carousel.style_display nav) "none"
  | None => negb (Carousel.prevBtn card || Carousel.nextBtn card)
  end.

(** A card with one screenshot and both buttons, not wrapped in an
    [.image-nav]. *)
Definition bareCard : Carousel.Card :=
  Carousel.mkCard [Sample.img true] true true None.

(** The cards that have more than one image. *)
Definition rotating (cards : list Carousel.Card) : list Carousel.Card :=
  filter (fun c => negb (Carousel.length c <=? 1)) cards.

End Gallery.

(** The mobile menu (script.js 9-20). *)
Module Menu.

Inductive Event : Type :=
| ClickHamburger        (* runs toggleMenu *)
| ClickNavLink.         (* runs closeMenu *)

Definition step (d : Init.Document) (ev : Event) : Init.Document :=
  match ev with
  | ClickHamburger => fst (Init.toggleMenu d)
  | ClickNavLink => fst (Init.closeMenu d)
  end.

Definition run (evs : list Event) (d : Init.Document) : Init.Document :=
  fold_left step evs d.

Definition isActive (e : option Init.Element) : option bool :=
  option_map (fun x => DOMTokenList.contains (Init.classList x) "active") e.

(** Whether the menu is open after a run of clicks, if it was [open]
    before. *)
Definition opened (evs : list Event) (open : bool) : bool :=
  fold_left (fun o ev => match ev with
                         | ClickHamburger => negb o
                         | ClickNavLink => false
                         end) evs open.

End Menu.

(** The scroll listeners (script.js 24-30, 54, 96, 259-267). *)
Module Scroll.
Import JS.

Definition withNavLinks (d : Init.Document) (l : list Nav.Link) : Init.Document :=
  Init.mkDocument (Init.hamburger d) (Init.navMenu d) l (Init.navbar d)
    (Init.sections d) (Init.typingText d) (Init.skillBars d)
    (Init.projectCards d) (Init.animatedElements d) (Init.contactForm d)
    (Init.socialLinks d) (Init.anchorLinks d) (Init.scrollY d)
    (Init.innerHeight d).

(** [updateActiveNav()] on the page. *)
Definition updateActiveNav (d : Init.Document) : Init.Document * Completion :=
  let (links, c) :=
    Nav.updateActiveNav (Init.scrollY d) (Init.sections d) (Init.navLinks d) in
  (withNavLinks d links, c).

(** [animateSkills()] on the page. *)
Definition animateSkills (d : Init.Document) : Init.Document :=
  Init.withSkillBars d
    (Skills.animateSkills (Init.innerHeight d) (Init.skillBars d)).

(** A scroll event: the three listeners that act at once run in the order
    they were added.  Each is a listener of its own, so an exception in one
    is reported and the next one still runs. *)
Definition listeners (d : Init.Document) : Init.Document * list Completion :=
  let (d1, c1) := Init.navbarScrolled d in
  let (d2, c2) := updateActiveNav d1 in
  (animateSkills d2, [c1; c2; Normal]).

(** The callback of the timer that the fourth listener sets (263-266): one
    function body, so a throw in [updateActiveNav] skips [animateSkills]. *)
Definition settle (d : Init.Document) : Init.Document * Completion :=
  let (d1, c) := updateActiveNav d in
  match c with
  | Normal => (animateSkills d1, Normal)
  | Throw e => (d1, Throw e)
  end.

End Scroll.

(* ===================================================================== *)
(** ** Smooth scroll for anchor links (script.js 211-227)                 *)
(* ===================================================================== *)

Module Anchor.
Import JS.

(** An element with an [id], as [getElementById] sees it. *)
Record Target : Type := mkTarget {
  id : string;
  offsetTop : Z
}.

(** [document.getElementById(key)]: the first element of that id in document
    order; no element has the empty id. *)
Definition getElementById (elements : list Target) (key : string)
  : option Target :=
  if String.eqb key "" then None
  else find (fun e => String.eqb (id e) key) elements.

(** [s.substring(1)] *)
Definition substring1 (s : string) : string :=
  match s with
  | EmptyString => EmptyString
  | String _ rest => rest
  end.

(** What the click leaves: whether the default action was prevented, and the
    [top] passed to [window.scrollTo], if it was called. *)
Record Outcome : Type := mkOutcome {
  defaultPrevented : bool;
  scrollTo : option Z
}.

(** The click callback, on a link whose [getAttribute('href')] is [href]. *)
Definition click (elements : list Target) (href : option string)
  : Outcome * Completion :=
  match href with
  | None => (mkOutcome true None, Throw TypeError)       (* null.substring *)
  | Some h =>
      let targetId := substring1 h in
      match getElementById elements targetId with
      | Some targetSection =>
          let offsetTop := offsetTop targetSection - 80 in
          (mkOutcome true (Some offsetTop), Normal)
      | None => (mkOutcome true None, Normal)
      end
  end.

(** The sections as elements with an id. *)
Definition targetsOf (sections : list Nav.Section) : list Target :=
  flat_map (fun s => match Nav.id s with
                     | Some i => [mkTarget i (Nav.offsetTop s)]
                     | None => []
                     end) sections.

(** Where a scroll to [top] ends on a page that scrolls from 0 to
    [maxScroll]. *)
Definition arrive (maxScroll top : Z) : Z := Z.max 0 (Z.min maxScroll top).

End Anchor.

(* ===================================================================== *)
(** ** Fade-in on scroll (script.js 142-164)                              *)
(* ===================================================================== *)

Module FadeIn.

(** An [IntersectionObserverEntry]: its target, as the position of the
    element among the observed ones, and [isIntersecting]. *)
Record Entry : Type := mkEntry {
  target : nat;
  isIntersecting : bool
}.

(** Lines 161-164: every element of the list gets the [fade-in] class. *)
Definition tag (elements : list DOMTokenList.t) : list DOMTokenList.t :=
  map (fun cl => DOMTokenList.add cl "fade-in") elements.

Fixpoint updateAt (i : nat) (f : DOMTokenList.t -> DOMTokenList.t)
         (l : list DOMTokenList.t) : list DOMTokenList.t :=
  match l, i with
  | [], _ => []
  | x :: rest, O => f x :: rest
  | x :: rest, S j => x :: updateAt j f rest
  end.

(** The body of the [entries.forEach] callback. *)
Definition onEntry (elements : list DOMTokenList.t) (entry : Entry)
  : list DOMTokenList.t :=
  if isIntersecting entry
  then updateAt (target entry) (fun cl => DOMTokenList.add cl "visible") elements
  else elements.

(** The observer callback. *)
Definition callback (entries : list Entry) (elements : list DOMTokenList.t)
  : list DOMTokenList.t :=
  fold_left onEntry entries elements.

(** Was the element at [j] reported as intersecting. *)
Definition reported (entries : list Entry) (j : nat) : bool :=
  existsb (fun e => isIntersecting e && Nat.eqb (target e) j) entries.

End FadeIn.

(* ===================================================================== *)
(** ** Counting characters                                                *)
(* ===================================================================== *)

Module Text.

(** How often [c] occurs in [s]. *)
Fixpoint occurrences (c : ascii) (s : string) : nat :=
  match s with
  | EmptyString => O
  | String x rest =>
      if Ascii.eqb x c then S (occurrences c rest) else occurrences c rest
  end.

End Text.

(* ===================================================================== *)
(** ** Reading a mailto link                                              *)
(* ===================================================================== *)

Module Mailto.

(** The text before and after the first [c]. *)
Fixpoint splitAt (c : ascii) (s : string) : option (string * string) :=
  match s with
  | EmptyString => None
  | String x rest =>
      if Ascii.eqb x c then Some (EmptyString, rest)
      else option_map (fun p => (String x (fst p), snd p)) (splitAt c rest)
  end.

(** [s] without the prefix [p]. *)
Fixpoint stripPrefix (p s : string) : option string :=
  match p with
  | EmptyString => Some s
  | String a p' =>
      match s with
      | EmptyString => None
      | String b s' => if Ascii.eqb a b then stripPrefix p' s' else None
      end
  end.

(** The recipient, subject and body of a link of the form
    [mailto:to?subject=...&body=...], as the mail handler gets them. *)
Definition parse (link : string) : option (string * string * string) :=
  match stripPrefix "mailto:" link with
  | None => None
  | Some rest =>
      match splitAt "?" rest with
      | None => None
      | Some (to, query) =>
          match stripPrefix "subject=" query with
          | None => None
          | Some q1 =>
              match splitAt "&" q1 with
              | None => None
              | Some (subject, q2) =>
                  match stripPrefix "body=" q2 with
                  | None => None
                  | Some body =>
                      match URI.percentDecode subject, URI.percentDecode body with
                      | Some s, Some b => Some (to, s, b)
                      | _, _ => None
                      end
                  end
              end
          end
      end
  end.

End Mailto.

(* ===================================================================== *)
(** ** Classes on the body (script.js 281-283, 333-351)                   *)
(* ===================================================================== *)

Module Body.

Inductive Event : Type :=
| KeyDown (key : string)
| MouseDown
| BeforePrint
| AfterPrint
| Load.

(** The listener of each event, on the class list of [document.body]. *)
Definition handle (cl : DOMTokenList.t) (ev : Event) : DOMTokenList.t :=
  match ev with
  | KeyDown key =>
      if String.eqb key "Tab" then DOMTokenList.add cl "keyboard-navigation"
      else cl
  | MouseDown => DOMTokenList.remove cl "keyboard-navigation"
  | BeforePrint => DOMTokenList.add cl "printing"
  | AfterPrint => DOMTokenList.remove cl "printing"
  | Load => DOMTokenList.add cl "loaded"
  end.

Definition run (evs : list Event) (cl : DOMTokenList.t) : DOMTokenList.t :=
  fold_left handle evs cl.

Definition isTab (ev : Event) : bool :=
  match ev with
  | KeyDown key => String.eqb key "Tab"
  | _ => false
  end.

Definition isMouseDown (ev : Event) : bool :=
  match ev with
  | MouseDown => true
  | _ => false
  end.

End Body.

(* ===================================================================== *)
(** ** Values of data-progress                                            *)
(* ===================================================================== *)

Module Progress.

Definition isDigit (c : ascii) : bool :=
  let n := N_of_ascii c in ((48 <=? n) && (n <=? 57))%N.

(** A non-negative whole number written the plain way: decimal digits only,
    no leading zero except for [0] itself.  For such a [p] the text [p%] is a
    valid width and reads back as it was written. *)
Definition plainNumber (p : string) : bool :=
  match p with
  | EmptyString => false
  | String c rest =>
      forallb isDigit (list_ascii_of_string p)
      && (negb (Ascii.eqb c "0") || String.eqb rest "")
  end.

End Progress.

(* ===================================================================== *)
(** ** Navigation links of which one has no href                          *)
(* ===================================================================== *)

Module Broken.

(** The sample links behind a logo link that has no [href]. *)
Definition links : list Nav.Link :=
  Nav.mkLink None ["nav-link"; "logo"] :: Sample.links.

End Broken.


(* ===================================================================== *)
(** * Properties                                                          *)
(* ===================================================================== *)

(** ** Strings and class lists *)

Lemma prefix_iff_append (p s : string) :
  String.prefix p s = true <-> exists t, s = p ++ t.
Proof.
  revert s; induction p as [|a p IH]; intros s; simpl.
  - destruct s; split; intros; eauto.
  - destruct s as [|b s]; simpl.
    + split; [discriminate | intros [t H]; discriminate].
    + destruct (ascii_dec a b) as [->|Hab].
      * rewrite IH. split; intros [t H]; exists t; [now rewrite H | now inversion H].
      * split; [discriminate | intros [t H]; inversion H; congruence].
Qed.

Lemma includes_unfold (s sub : string) :
  JS.includes s sub =
  if String.prefix sub s then true
  else match s with
       | EmptyString => false
       | String _ s' => JS.includes s' sub
       end.
Proof. destruct s; reflexivity. Qed.

(** [includes] decides the occurrence of a substring. *)
Lemma includes_iff_substring (s sub : string) :
  JS.includes s sub = true <-> exists pre post, s = pre ++ sub ++ post.
Proof.
  induction s as [|c s IH]; rewrite includes_unfold.
  - destruct (String.prefix sub "") eqn:E.
    + apply prefix_iff_append in E as [t E]. split; [|reflexivity].
      intros _. exists "", t. exact E.
    + split; [discriminate|]. intros [pre [post H]].
      destruct pre; [|discriminate]. simpl in H.
      assert (String.prefix sub "" = true) by (apply prefix_iff_append; eauto).
      congruence.
  - destruct (String.prefix sub (String c s)) eqn:E.
    + apply prefix_iff_append in E as [t E]. split; [|reflexivity].
      intros _. exists "", t. exact E.
    + rewrite IH. split.
      * intros [pre [post H]]. exists (String c pre), post. simpl. now rewrite H.
      * intros [pre [post H]]. destruct pre as [|c' pre].
        -- simpl in H.
           assert (String.prefix sub (String c s) = true)
             by (apply prefix_iff_append; eauto).
           congruence.
        -- inversion H. eauto.
Qed.

Lemma includes_empty (s : string) : JS.includes s "" = true.
Proof. apply includes_iff_substring. exists "", s. reflexivity. Qed.

Lemma contains_remove (cl : DOMTokenList.t) (tok : string) :
  DOMTokenList.contains (DOMTokenList.remove cl tok) tok = false.
Proof.
  unfold DOMTokenList.contains, DOMTokenList.remove.
  induction cl as [|c cl IH]; simpl; [reflexivity|].
  destruct (String.eqb tok c) eqn:E; simpl; [exact IH|].
  now rewrite E.
Qed.

Lemma contains_append_self (cl : DOMTokenList.t) (tok : string) :
  DOMTokenList.contains (cl ++ [tok])%list tok = true.
Proof.
  unfold DOMTokenList.contains. rewrite existsb_app. simpl.
  rewrite String.eqb_refl. now rewrite orb_true_r.
Qed.

Lemma contains_add (cl : DOMTokenList.t) (tok : string) :
  DOMTokenList.contains (DOMTokenList.add cl tok) tok = true.
Proof.
  unfold DOMTokenList.add.
  destruct (DOMTokenList.contains cl tok) eqn:E; [exact E|].
  apply contains_append_self.
Qed.

Lemma add_idempotent (cl : DOMTokenList.t) (tok : string) :
  DOMTokenList.contains cl tok = true -> DOMTokenList.add cl tok = cl.
Proof. unfold DOMTokenList.add. now intros ->. Qed.

(** ** Active navigation link *)

Section NavFacts.
Import Nav.

Variable scrollY : Q.

Lemma find_app {A : Type} (p : A -> bool) (l1 l2 : list A) :
  find p (l1 ++ l2) =
  match find p l1 with Some x => Some x | None => find p l2 end.
Proof.
  induction l1 as [|x l1 IH]; simpl; [reflexivity|].
  now destruct (p x).
Qed.

Lemma scan_from (sections : list Section) (start : option string) :
  fold_left
    (fun current section => if reached scrollY section then id section else current)
    sections start
  = match find (reached scrollY) (rev sections) with
    | Some s => id s
    | None => start
    end.
Proof.
  revert start; induction sections as [|s sections IH]; intros start; simpl.
  - reflexivity.
  - rewrite IH, find_app. simpl.
    destruct (find (reached scrollY) (rev sections)); [reflexivity|].
    now destruct (reached scrollY s).
Qed.

(** The scan keeps the id of the last section, in document order, that the
    scroll offset has reached, and [''] when there is none. *)
Lemma scanSections_last_reached (sections : list Section) :
  scanSections scrollY sections
  = match find (reached scrollY) (rev sections) with
    | Some s => id s
    | None => Some ""
    end.
Proof. apply scan_from. Qed.

Lemma reached_iff (s : Section) :
  reached scrollY s = true <-> (inject_Z (offsetTop s - 200) <= scrollY)%Q.
Proof. apply Qle_bool_iff. Qed.

Lemma scanSections_none_reached (sections : list Section) :
  Forall (fun s => reached scrollY s = false) sections ->
  scanSections scrollY sections = Some "".
Proof.
  intros H. rewrite scanSections_last_reached.
  destruct (find (reached scrollY) (rev sections)) as [s|] eqn:E; [|reflexivity].
  apply find_some in E as [Hin Hr]. apply in_rev in Hin.
  rewrite Forall_forall in H. rewrite (H _ Hin) in Hr. discriminate.
Qed.

(** One link with an [href]: the callback ends normally, keeps the [href],
    and leaves the class exactly when [includes] says so. *)
Lemma markLink_href (current : option string) (l : Link) (h : string) :
  href l = Some h ->
  snd (markLink current l) = JS.Normal
  /\ href (fst (markLink current l)) = Some h
  /\ isActive (fst (markLink current l)) = JS.includes h (JS.ToString current).
Proof.
  intros Hh. unfold markLink. simpl. rewrite Hh.
  destruct (JS.includes h (JS.ToString current)); simpl; repeat split;
    try assumption; unfold isActive; simpl.
  - apply contains_add.
  - apply contains_remove.
Qed.

Lemma forEach_markLink (current : option string) (links : list Link) :
  Forall (fun l => href l <> None) links ->
  JS.forEach (markLink current) links
  = (map (fun l => fst (markLink current l)) links, JS.Normal).
Proof.
  induction 1 as [|l links Hl _ IH]; simpl; [reflexivity|].
  destruct (href l) as [h|] eqn:Hh; [|contradiction].
  destruct (markLink_href current l h Hh) as [Hn _].
  destruct (markLink current l) as [l' c]. simpl in *. subst c.
  now rewrite IH.
Qed.

End NavFacts.

(** C10.  When every navigation link has an [href], [updateActiveNav] ends
    normally, and afterwards a link carries the [active] class exactly when
    the identifier kept by the scan (as a string) occurs in its [href] as a
    substring.  When the scroll offset has reached no section, that identifier
    is the empty string, and every link carries the class. *)
Theorem updateActiveNav_active_iff_substring :
  forall (scrollY : Q) (sections : list Nav.Section) (links : list Nav.Link),
    Forall (fun l => Nav.href l <> None) links ->
    let current := JS.ToString (Nav.scanSections scrollY sections) in
    let links' := fst (Nav.updateActiveNav scrollY sections links) in
    snd (Nav.updateActiveNav scrollY sections links) = JS.Normal
    /\ map Nav.href links' = map Nav.href links
    /\ (forall i l', nth_error links' i = Some l' ->
          (Nav.isActive l' = true <->
           exists h pre post, Nav.href l' = Some h /\ h = pre ++ current ++ post))
    /\ (Forall (fun s => Nav.reached scrollY s = false) sections ->
          current = "" /\ Forall (fun l' => Nav.isActive l' = true) links').
Proof.
  intros scrollY sections links Hall current links'.
  unfold links', Nav.updateActiveNav.
  rewrite (forEach_markLink _ links Hall). simpl.
  assert (Hlink : forall l, In l links ->
            exists h, Nav.href l = Some h
              /\ Nav.href (fst (Nav.markLink (Nav.scanSections scrollY sections) l)) = Some h
              /\ Nav.isActive (fst (Nav.markLink (Nav.scanSections scrollY sections) l))
                 = JS.includes h current).
  { intros l Hin. rewrite Forall_forall in Hall. specialize (Hall l Hin).
    destruct (Nav.href l) as [h|] eqn:Hh; [|contradiction].
    exists h. split; [reflexivity|].
    now destruct (markLink_href (Nav.scanSections scrollY sections) l h Hh)
      as [_ [? ?]]. }
  repeat split.
  - rewrite map_map. apply map_ext_in. intros l Hin.
    destruct (Hlink l Hin) as [h [H1 [H2 _]]]. congruence.
  - intros Hact. rewrite nth_error_map in H.
    destruct (nth_error links i) as [l|] eqn:Hi; [|discriminate].
    injection H as <-. apply nth_error_In in Hi.
    destruct (Hlink l Hi) as [h [_ [H2 H3]]].
    rewrite H3 in Hact. apply includes_iff_substring in Hact as [pre [post E]].
    exists h, pre, post. split; assumption.
  - intros [h [pre [post [Hh E]]]]. rewrite nth_error_map in H.
    destruct (nth_error links i) as [l|] eqn:Hi; [|discriminate].
    injection H as <-. apply nth_error_In in Hi.
    destruct (Hlink l Hi) as [h' [_ [H2 H3]]].
    rewrite H3. apply includes_iff_substring.
    rewrite H2 in Hh. injection Hh as ->. eauto.
  - unfold current. now rewrite (scanSections_none_reached scrollY sections H).
  - apply Forall_forall. intros l' Hin. apply in_map_iff in Hin as [l [<- Hin]].
    destruct (Hlink l Hin) as [h [_ [_ H3]]]. rewrite H3.
    unfold current. rewrite (scanSections_none_reached scrollY sections H).
    apply includes_empty.
Qed.

Lemma updateActiveNav_active_iff_substring_witness :
  Forall (fun l => Nav.href l <> None) Sample.links
  /\ snd (Nav.updateActiveNav (1200 # 1) Sample.sections Sample.links) = JS.Normal.
Proof.
  assert (H : Forall (fun l => Nav.href l <> None) Sample.links)
    by (repeat constructor; discriminate).
  split; [exact H|].
  exact (proj1 (updateActiveNav_active_iff_substring
                  (1200 # 1) Sample.sections Sample.links H)).
Defined.

(** At 1200 px the scan keeps the second section and one link is marked. *)
Example updateActiveNav_mid_page :
  Nav.scanSections (1200 # 1) Sample.sections = Some "skills"
  /\ map Nav.isActive (fst (Nav.updateActiveNav (1200 # 1) Sample.sections Sample.links))
     = [false; true; false].
Proof. split; reflexivity. Qed.

(** C1.  The code at the top of the sample page (scroll offset 0, the first
    section starting at 600 px): no section is reached, [current] stays [''],
    and all three navigation links carry the [active] class afterwards, where
    the claim allows one at most. *)
Theorem updateActiveNav_top_of_page_three_active :
  snd (Nav.updateActiveNav (0 # 1) Sample.sections Sample.links) = JS.Normal
  /\ Nav.activeCount (fst (Nav.updateActiveNav (0 # 1) Sample.sections Sample.links))
     = 3%nat.
Proof. split; reflexivity. Qed.

(** C2.  The code just above the threshold of the first section (scroll
    offset 399, the first section at 600 - 200 = 400): no section satisfies
    the test, the scan yields [''], and every navigation link is made active,
    where the claim says every one is inactive. *)
Theorem updateActiveNav_no_section_all_links_active :
  forallb (Nav.reached (399 # 1)) Sample.sections = false
  /\ existsb (Nav.reached (399 # 1)) Sample.sections = false
  /\ Nav.scanSections (399 # 1) Sample.sections = Some ""
  /\ map Nav.isActive (fst (Nav.updateActiveNav (399 # 1) Sample.sections Sample.links))
     = [true; true; true].
Proof. repeat split; reflexivity. Qed.

(** ** Skill progress animation *)

Section SkillFacts.
Import Skills.

Lemma animateBar_animated (ih : Z) (b : Bar) :
  animated b = true -> animateBar ih b = b.
Proof.
  unfold animated, animateBar. intros ->.
  now rewrite andb_false_r.
Qed.

Lemma animateBar_keeps_flag (ih : Z) (b : Bar) :
  animated b = true -> animated (animateBar ih b) = true.
Proof. intros H. now rewrite animateBar_animated. Qed.

Lemma checks_animated (layouts : list Layout) (b : Bar) :
  animated b = true ->
  style_width (checks layouts b) = style_width b
  /\ classList (checks layouts b) = classList b
  /\ data_progress (checks layouts b) = data_progress b.
Proof.
  unfold checks. revert b.
  induction layouts as [|l layouts IH]; intros b Hb; simpl; [auto|].
  assert (Hr : animated (relayout (top l) (bottom l) b) = true) by exact Hb.
  rewrite (animateBar_animated _ _ Hr).
  destruct (IH _ Hr) as [H1 [H2 H3]]. auto.
Qed.

Lemma animateBar_sets_flag_when_visible (ih : Z) (b : Bar) :
  animated b = false ->
  animated (animateBar ih b) = true ->
  isVisible ih b = true
  /\ style_width (animateBar ih b) = JS.ToString (data_progress b) ++ "%".
Proof.
  unfold animated, animateBar. intros Hb.
  rewrite Hb. simpl. rewrite andb_true_r.
  destruct (isVisible ih b); simpl; [auto|].
  intros H. congruence.
Qed.

End SkillFacts.

(** C6.  A bar that carries the [animated] class is left as it is by
    [animateSkills]; over any run of later invocations, whatever the layout
    at each, its width stays what it was and the class stays on it; and an
    invocation puts the class on a bar only if the bar passes the test
    [top >= 0 && bottom <= innerHeight]. *)
Theorem animateSkills_animates_once :
  (forall (ih : Z) (bars : list Skills.Bar) (i : nat) (b : Skills.Bar),
      nth_error bars i = Some b -> Skills.animated b = true ->
      nth_error (Skills.animateSkills ih bars) i = Some b)
  /\ (forall (layouts : list Skills.Layout) (b : Skills.Bar),
        Skills.animated b = true ->
        Skills.style_width (Skills.checks layouts b) = Skills.style_width b
        /\ Skills.animated (Skills.checks layouts b) = true)
  /\ (forall (ih : Z) (b : Skills.Bar),
        Skills.animated b = false ->
        Skills.animated (Skills.animateBar ih b) = true ->
        (0 <= Skills.rect_top b)%Q
        /\ (Skills.rect_bottom b <= inject_Z ih)%Q).
Proof.
  repeat split.
  - intros ih bars i b Hi Hb. unfold Skills.animateSkills.
    rewrite nth_error_map, Hi. simpl. now rewrite animateBar_animated.
  - now apply checks_animated.
  - destruct (checks_animated layouts b H) as [_ [Hc _]].
    unfold Skills.animated. rewrite Hc. exact H.
  - destruct (animateBar_sets_flag_when_visible ih b H H0) as [Hv _].
    unfold Skills.isVisible in Hv. apply andb_true_iff in Hv as [Hv _].
    now apply Qle_bool_iff.
  - destruct (animateBar_sets_flag_when_visible ih b H H0) as [Hv _].
    unfold Skills.isVisible in Hv. apply andb_true_iff in Hv as [_ Hv].
    now apply Qle_bool_iff.
Qed.

Lemma animateSkills_animates_once_witness :
  (nth_error [Sample.freshBar; Sample.bar] 1 = Some Sample.bar
   /\ Skills.animated Sample.bar = true
   /\ nth_error (Skills.animateSkills 800 [Sample.freshBar; Sample.bar]) 1
      = Some Sample.bar)
  /\ (Skills.style_width (Skills.checks Sample.layouts Sample.bar) = "80%"
      /\ Skills.animated (Skills.checks Sample.layouts Sample.bar) = true)
  /\ (Skills.animated Sample.freshBar = false
      /\ Skills.animated (Skills.animateBar 1000 Sample.freshBar) = true
      /\ (0 <= 900 # 1)%Q /\ (920 # 1 <= inject_Z 1000)%Q).
Proof.
  destruct animateSkills_animates_once as [Hkeep [Hrun Honly]].
  split; [|split].
  - split; [reflexivity|]. split; [reflexivity|].
    exact (Hkeep 800 [Sample.freshBar; Sample.bar] 1%nat Sample.bar eq_refl eq_refl).
  - exact (Hrun Sample.layouts Sample.bar eq_refl).
  - split; [reflexivity|]. split; [reflexivity|].
    exact (Honly 1000 Sample.freshBar eq_refl eq_refl).
Defined.

(** A fresh bar in full view gets its width and the class; a bar that does
    not fit the viewport gets neither. *)
Example animateBar_fresh :
  Skills.animateBar 1000 Sample.freshBar
  = Skills.mkBar (Some "65") (900 # 1) (920 # 1) ["skill-progress"; "animated"] "65%"
  /\ Skills.animateBar 800 Sample.freshBar = Sample.freshBar.
Proof. split; reflexivity. Qed.

(** ** Project image carousel *)

Section CarouselFacts.
Import Carousel.

Lemma updateAt_length (i : nat) (f : Img -> Img) (l : list Img) :
  List.length (updateAt i f l) = List.length l.
Proof.
  revert i; induction l as [|x l IH]; intros [|i]; simpl; auto.
Qed.

Lemma rem_is_mod (a n : Z) : 0 <= a -> 0 < n -> JS.rem a n = a mod n.
Proof. intros Ha Hn. unfold JS.rem. now apply Z.rem_mod_nonneg. Qed.

(** [showImage] on an index in range ends normally; the card keeps its
    number of images and its controls, the closure takes the index. *)
Lemma show_in_range (card : Card) (cl : Closure) (index : Z) :
  0 <= index < length card ->
  exists card',
    show card cl index = ((card', mkClosure index (installed cl)), JS.Normal)
    /\ length card' = length card
    /\ prevBtn card' = prevBtn card
    /\ nextBtn card' = nextBtn card
    /\ imageNav card' = imageNav card.
Proof.
  intros [Hlo Hhi]. unfold show, showImage, length in *.
  apply Z.leb_le in Hlo. apply Z.ltb_lt in Hhi. rewrite Hlo, Hhi. simpl.
  eexists. split; [reflexivity|]. unfold length, withImages. simpl.
  rewrite updateAt_length, length_map. auto.
Qed.

Ltac moved Hidx :=
  match goal with
  | |- context [show ?c ?k ?i] =>
      let card' := fresh "card'" in
      let E := fresh "E" in
      let H1 := fresh "H" in
      let H2 := fresh "H" in
      let H3 := fresh "H" in
      destruct (show_in_range c k i Hidx) as [card' [E [H1 [H2 [H3 _]]]]];
      rewrite E; exists card'; eexists; unfold inRange; rewrite H1;
      repeat split; simpl; auto; try lia
  end.

Lemma deliver_in_range (ev : Event) (card : Card) (cl : Closure) :
  inRange card cl ->
  exists card' cl',
    deliver ev (card, Some cl) = (card', Some cl')
    /\ length card' = length card
    /\ prevBtn card' = prevBtn card
    /\ nextBtn card' = nextBtn card
    /\ installed cl' = installed cl
    /\ currentImageIndex cl' = target ev (length card) cl
    /\ inRange card' cl'.
Proof.
  intros [HN Hi].
  assert (Hp : 0 <= (currentImageIndex cl - 1 + length card) mod length card
               < length card) by (apply Z.mod_pos_bound; lia).
  assert (Hn : 0 <= (currentImageIndex cl + 1) mod length card < length card)
    by (apply Z.mod_pos_bound; lia).
  assert (Hstay : exists card' cl',
             (card, Some cl) = (card', Some cl')
             /\ length card' = length card
             /\ prevBtn card' = prevBtn card
             /\ nextBtn card' = nextBtn card
             /\ installed cl' = installed cl
             /\ currentImageIndex cl' = currentImageIndex cl
             /\ inRange card' cl').
  { exists card, cl. unfold inRange. repeat split; auto; lia. }
  destruct ev; unfold target; simpl.
  - destruct (has cl OnPrevClick); [|exact Hstay].
    unfold prevClick. rewrite rem_is_mod by lia. moved Hp.
  - destruct (has cl OnNextClick); [|exact Hstay].
    unfold nextClick. rewrite rem_is_mod by lia. moved Hn.
  - destruct (has cl (SetInterval 5000)); [|exact Hstay].
    unfold autoRotate. rewrite rem_is_mod by lia. moved Hn.
Qed.

(** Any run of events keeps a card that was set up in range. *)
Lemma run_in_range (evs : list Event) (card : Card) (cl : Closure) :
  inRange card cl ->
  exists card' cl',
    run evs (card, Some cl) = (card', Some cl')
    /\ length card' = length card
    /\ installed cl' = installed cl
    /\ inRange card' cl'.
Proof.
  unfold run. revert card cl.
  induction evs as [|ev evs IH]; intros card cl Hin; cbn [fold_left].
  - exists card, cl. auto.
  - destruct (deliver_in_range ev card cl Hin)
      as [card1 [cl1 [E [H1 [_ [_ [H4 [_ H6]]]]]]]].
    rewrite E. destruct (IH card1 cl1 H6) as [card2 [cl2 [E2 [K1 [K2 K3]]]]].
    exists card2, cl2. rewrite E2.
    split; [reflexivity|]. split; [congruence|]. split; [congruence|exact K3].
Qed.

Lemma setup_many (card : Card) :
  1 < length card ->
  exists cl,
    setup card = (card, Some cl)
    /\ currentImageIndex cl = 0
    /\ has cl OnPrevClick = prevBtn card
    /\ has cl OnNextClick = nextBtn card
    /\ has cl (SetInterval 5000) = true.
Proof.
  intros HN. unfold setup.
  destruct (length card <=? 1) eqn:E; [apply Z.leb_le in E; lia|].
  eexists. split; [reflexivity|]. unfold has. simpl.
  destruct (prevBtn card), (nextBtn card); repeat split; reflexivity.
Qed.

(** The index after [k] deliveries of one event to a card that was set up,
    when each delivery moves the index by [step] modulo the length. *)
Lemma run_repeat (ev : Event) (step : Z) (card : Card) (cl : Closure) (k : nat) :
  inRange card cl ->
  currentImageIndex cl = 0 ->
  (forall cl', installed cl' = installed cl ->
               target ev (length card) cl'
               = (currentImageIndex cl' + step) mod length card) ->
  indexOf (run (repeat ev k) (card, Some cl))
  = Some ((Z.of_nat k * step) mod length card).
Proof.
  intros Hin H0 Hstep.
  assert (G : exists card' cl',
             run (repeat ev k) (card, Some cl) = (card', Some cl')
             /\ length card' = length card
             /\ installed cl' = installed cl
             /\ inRange card' cl'
             /\ currentImageIndex cl' = (Z.of_nat k * step) mod length card).
  { induction k as [|k IH].
    - exists card, cl. simpl. repeat split; try apply Hin.
      rewrite H0. destruct Hin as [HN _]. now rewrite Z.mod_0_l by lia.
    - destruct IH as [card1 [cl1 [E [H1 [H2 [H3 H4]]]]]].
      replace (repeat ev (S k)) with (repeat ev k ++ [ev])%list
        by (symmetry; apply (repeat_cons k ev)).
      unfold run in *. rewrite fold_left_app, E. cbn [fold_left].
      destruct (deliver_in_range ev card1 cl1 H3)
        as [card2 [cl2 [E2 [K1 [_ [_ [K4 [K5 K6]]]]]]]].
      exists card2, cl2. rewrite E2.
      repeat split; try congruence; try apply K6.
      rewrite K5, H1, (Hstep cl1 H2), H4.
      rewrite Zplus_mod_idemp_l. f_equal. lia. }
  destruct G as [card' [cl' [E [_ [_ [_ H]]]]]].
  rewrite E. unfold indexOf. simpl. now rewrite H.
Qed.

End CarouselFacts.

(** C3.  On a card with N > 1 images and the index i in [0, N): the
    previous callback ends normally with the index (i - 1 + N) mod N, the next
    callback with (i + 1) mod N; from the state [setup] leaves, k clicks on
    next lead to k mod N (0, 1, ..., N-1, 0, ...) and k clicks on previous to
    (-k) mod N (0, N-1, ..., 1, 0, ...); and after any run of events the index
    is in [0, N). *)
Theorem carousel_manual_navigation_wraps :
  forall (card : Carousel.Card) (cl : Carousel.Closure),
    1 < Carousel.length card ->
    0 <= Carousel.currentImageIndex cl < Carousel.length card ->
    let N := Carousel.length card in
    let i := Carousel.currentImageIndex cl in
    (snd (Carousel.prevClick card cl) = JS.Normal
     /\ Carousel.currentImageIndex (snd (fst (Carousel.prevClick card cl)))
        = (i - 1 + N) mod N
     /\ Carousel.length (fst (fst (Carousel.prevClick card cl))) = N)
    /\ (snd (Carousel.nextClick card cl) = JS.Normal
        /\ Carousel.currentImageIndex (snd (fst (Carousel.nextClick card cl)))
           = (i + 1) mod N
        /\ Carousel.length (fst (fst (Carousel.nextClick card cl))) = N)
    /\ (forall k : nat,
          Carousel.nextBtn card = true ->
          Carousel.indexOf
            (Carousel.run (repeat Carousel.ClickNext k) (Carousel.setup card))
          = Some (Z.of_nat k mod N))
    /\ (forall k : nat,
          Carousel.prevBtn card = true ->
          Carousel.indexOf
            (Carousel.run (repeat Carousel.ClickPrev k) (Carousel.setup card))
          = Some ((- Z.of_nat k) mod N))
    /\ (forall evs : list Carousel.Event,
          exists j, Carousel.indexOf (Carousel.run evs (card, Some cl)) = Some j
                    /\ 0 <= j < N).
Proof.
  intros card cl HN Hi N i.
  assert (Hp : 0 <= (i - 1 + N) mod N < N) by (apply Z.mod_pos_bound; lia).
  assert (Hn : 0 <= (i + 1) mod N < N) by (apply Z.mod_pos_bound; lia).
  split; [|split; [|split; [|split]]].
  - unfold Carousel.prevClick. rewrite rem_is_mod by (unfold i, N; lia).
    destruct (show_in_range card cl _ Hp) as [card' [E [H1 _]]].
    fold N i. rewrite E. simpl. auto.
  - unfold Carousel.nextClick. rewrite rem_is_mod by (unfold i, N; lia).
    destruct (show_in_range card cl _ Hn) as [card' [E [H1 _]]].
    fold N i. rewrite E. simpl. auto.
  - intros k Hbtn.
    destruct (setup_many card HN) as [cl0 [E [H0 [_ [Hnext _]]]]].
    rewrite E, (run_repeat Carousel.ClickNext 1 card cl0 k).
    + f_equal. f_equal. lia.
    + unfold Carousel.inRange. rewrite H0. fold N. lia.
    + exact H0.
    + intros cl' Hinst. unfold Carousel.target, Carousel.has in *.
      now rewrite Hinst, Hnext, Hbtn.
  - intros k Hbtn.
    destruct (setup_many card HN) as [cl0 [E [H0 [Hprev _]]]].
    rewrite E, (run_repeat Carousel.ClickPrev (-1) card cl0 k).
    + f_equal. f_equal. lia.
    + unfold Carousel.inRange. rewrite H0. fold N. lia.
    + exact H0.
    + intros cl' Hinst. unfold Carousel.target, Carousel.has in *.
      rewrite Hinst, Hprev, Hbtn.
      replace (Carousel.currentImageIndex cl' - 1 + Carousel.length card)
        with (Carousel.currentImageIndex cl' + -1 + 1 * Carousel.length card)
        by lia.
      apply Z_mod_plus_full.
  - intros evs.
    destruct (run_in_range evs card cl (conj HN Hi))
      as [card' [cl' [E [H1 [_ [_ H3]]]]]].
    exists (Carousel.currentImageIndex cl'). rewrite E. split; [reflexivity|].
    unfold N. rewrite <- H1. exact H3.
Qed.

Lemma carousel_manual_navigation_wraps_witness :
  Carousel.indexOf
    (Carousel.run (repeat Carousel.ClickNext 6) (Carousel.setup Sample.card4))
  = Some 2
  /\ Carousel.indexOf
       (Carousel.run (repeat Carousel.ClickPrev 1) (Carousel.setup Sample.card4))
     = Some 3.
Proof.
  assert (HN : 1 < Carousel.length Sample.card4) by (vm_compute; reflexivity).
  assert (Hi : 0 <= Carousel.currentImageIndex (Carousel.mkClosure 0 [])
               < Carousel.length Sample.card4) by (vm_compute; split; congruence).
  destruct (carousel_manual_navigation_wraps Sample.card4 _ HN Hi)
    as [_ [_ [Hnext [Hprev _]]]].
  split.
  - exact (Hnext 6%nat eq_refl).
  - exact (Hprev 1%nat eq_refl).
Defined.

(** Clicking through the four screenshots, by evaluation. *)
Example carousel_next_cycle :
  map (fun k => Carousel.indexOf
                  (Carousel.run (repeat Carousel.ClickNext k)
                                (Carousel.setup Sample.card4)))
      [0; 1; 2; 3; 4; 5]%nat
  = [Some 0; Some 1; Some 2; Some 3; Some 0; Some 1]
  /\ Carousel.displayed
       (fst (Carousel.run [Carousel.ClickNext; Carousel.ClickNext]
                          (Carousel.setup Sample.card4)))
     = [false; false; true; false].
Proof. split; reflexivity. Qed.

(** C4.  The interval callback is the next callback; [setup] installs it with
    a period of 5000 on every card with N > 1 images, starting from index 0;
    k firings with nothing else happening lead to k mod N, and five firings on
    a card with four images lead to index 1. *)
Theorem carousel_auto_rotation :
  (forall (card : Carousel.Card) (cl : Carousel.Closure),
      Carousel.autoRotate card cl = Carousel.nextClick card cl)
  /\ (forall card : Carousel.Card,
        1 < Carousel.length card ->
        exists cl,
          Carousel.setup card = (card, Some cl)
          /\ Carousel.currentImageIndex cl = 0
          /\ In (Carousel.SetInterval 5000) (Carousel.installed cl))
  /\ (forall (card : Carousel.Card) (k : nat),
        1 < Carousel.length card ->
        Carousel.indexOf
          (Carousel.run (repeat Carousel.IntervalElapsed k) (Carousel.setup card))
        = Some (Z.of_nat k mod Carousel.length card))
  /\ (forall card : Carousel.Card,
        Carousel.length card = 4 ->
        Carousel.indexOf
          (Carousel.run (repeat Carousel.IntervalElapsed 5) (Carousel.setup card))
        = Some 1).
Proof.
  assert (Hrun : forall (card : Carousel.Card) (k : nat),
             1 < Carousel.length card ->
             Carousel.indexOf
               (Carousel.run (repeat Carousel.IntervalElapsed k)
                             (Carousel.setup card))
             = Some (Z.of_nat k mod Carousel.length card)).
  { intros card k HN.
    destruct (setup_many card HN) as [cl0 [E [H0 [_ [_ Hint]]]]].
    rewrite E, (run_repeat Carousel.IntervalElapsed 1 card cl0 k).
    - f_equal. f_equal. lia.
    - unfold Carousel.inRange. rewrite H0. lia.
    - exact H0.
    - intros cl' Hinst. unfold Carousel.target, Carousel.has in *.
      now rewrite Hinst, Hint. }
  split; [reflexivity|]. split; [|split; [exact Hrun|]].
  - intros card HN. unfold Carousel.setup.
    destruct (Carousel.length card <=? 1) eqn:E; [apply Z.leb_le in E; lia|].
    eexists. split; [reflexivity|]. split; [reflexivity|]. simpl.
    apply in_or_app. right. apply in_or_app. right. now left.
  - intros card H4. rewrite Hrun by lia. now rewrite H4.
Qed.

Lemma carousel_auto_rotation_witness :
  Carousel.length Sample.card4 = 4
  /\ Carousel.indexOf
       (Carousel.run (repeat Carousel.IntervalElapsed 5)
                     (Carousel.setup Sample.card4))
     = Some 1.
Proof.
  split; [reflexivity|].
  exact (proj2 (proj2 (proj2 carousel_auto_rotation)) Sample.card4 eq_refl).
Defined.

(** C5.  On a card with at most one image the callback returns early: the
    [.image-nav] container of the card, when it has one, is hidden; no click
    callback and no interval are installed; the images are left as they are,
    and no run of events changes the card. *)
Theorem carousel_single_image_inert :
  forall card : Carousel.Card,
    Carousel.length card <= 1 ->
    snd (Carousel.setup card) = None
    /\ (forall i : nat, Init.carouselInstalls i card = [])
    /\ option_map Carousel.style_display (Carousel.imageNav (fst (Carousel.setup card)))
       = option_map (fun _ => "none") (Carousel.imageNav card)
    /\ Carousel.images (fst (Carousel.setup card)) = Carousel.images card
    /\ (forall evs : list Carousel.Event,
          Carousel.run evs (Carousel.setup card) = Carousel.setup card).
Proof.
  intros card HN.
  assert (E : Carousel.setup card
              = (Carousel.mkCard (Carousel.images card) (Carousel.prevBtn card)
                   (Carousel.nextBtn card)
                   (option_map Carousel.hide (Carousel.imageNav card)), None)).
  { unfold Carousel.setup. apply Z.leb_le in HN. now rewrite HN. }
  split; [now rewrite E|]. split; [|split; [|split]].
  - intros i. unfold Init.carouselInstalls. now rewrite E.
  - rewrite E. simpl. now destruct (Carousel.imageNav card).
  - now rewrite E.
  - intros evs. rewrite E. unfold Carousel.run.
    induction evs as [|ev evs IH]; [reflexivity|]. exact IH.
Qed.

Lemma carousel_single_image_inert_witness :
  Carousel.length Sample.card1 <= 1
  /\ snd (Carousel.setup Sample.card1) = None
  /\ Carousel.run [Carousel.ClickNext; Carousel.IntervalElapsed; Carousel.ClickPrev]
                  (Carousel.setup Sample.card1)
     = Carousel.setup Sample.card1.
Proof.
  assert (HN : Carousel.length Sample.card1 <= 1) by (vm_compute; congruence).
  destruct (carousel_single_image_inert Sample.card1 HN) as [H1 [_ [_ [_ H5]]]].
  split; [exact HN|]. split; [exact H1|]. apply H5.
Defined.

(** ** encodeURIComponent *)

Section URIFacts.
Import URI.

Local Ltac each_byte c :=
  destruct c as [[] [] [] [] [] [] [] []].

Lemma unreserved_is_not_percent (c : ascii) :
  isUnreserved c = true -> Ascii.eqb c "%" = false.
Proof. each_byte c; intros H; try reflexivity; discriminate H. Qed.

Lemma percentDecode_escape (c : ascii) (rest : string) :
  percentDecode (percentEncode c ++ rest)
  = option_map (String c) (percentDecode rest).
Proof. each_byte c; reflexivity. Qed.

Lemma encodeURIComponent_app (s t : string) :
  encodeURIComponent (s ++ t) = encodeURIComponent s ++ encodeURIComponent t.
Proof.
  induction s as [|c s IH]; simpl; [reflexivity|].
  rewrite IH. destruct (isUnreserved c); [reflexivity|].
  unfold percentEncode. reflexivity.
Qed.

(** Percent-decoding gives back the text that was encoded. *)
Lemma percentDecode_encodeURIComponent (s : string) :
  percentDecode (encodeURIComponent s) = Some s.
Proof.
  induction s as [|c s IH]; [reflexivity|].
  cbn [encodeURIComponent].
  destruct (isUnreserved c) eqn:E.
  - cbn [percentDecode]. rewrite (unreserved_is_not_percent c E), IH. reflexivity.
  - rewrite percentDecode_escape, IH. reflexivity.
Qed.

(** The encoded text holds unreserved characters, [%] and hexadecimal digits
    only, so it passes through a [mailto:] URL unchanged. *)
Lemma encodeURIComponent_alphabet (s : string) :
  forallb (fun c => isUnreserved c || Ascii.eqb c "%")
          (list_ascii_of_string (encodeURIComponent s)) = true.
Proof.
  induction s as [|c s IH]; [reflexivity|].
  cbn [encodeURIComponent].
  destruct (isUnreserved c) eqn:E.
  - cbn. cbn in E. rewrite E. exact IH.
  - unfold percentEncode. cbn [append list_ascii_of_string forallb].
    rewrite IH. clear. each_byte c; reflexivity.
Qed.

End URIFacts.

(** ** Contact form *)

Section ContactFacts.
Import Contact.

Lemma submit_with_button (p : Page) (b : Button) :
  submitButton (form p) = Some b ->
  submit p
  = (setTimeout (RestoreButton (innerHTML b)) 3000
       (mkPage (mkForm (fields (form p)) (Some (mkButton confirmation "#10b981")))
               (link p) (now p) (timers p)),
     JS.Normal).
Proof. intros H. unfold submit. cbn. now rewrite H. Qed.

Lemma submit_without_button (p : Page) :
  submitButton (form p) = None ->
  submit p = (mkPage (form p) (link p) (now p) (timers p), JS.Throw JS.TypeError).
Proof. intros H. unfold submit. cbn. now rewrite H. Qed.

Lemma submit_location (p : Page) :
  location_href (fst (submit p))
  = mailtoLink (get (FormData (form p)) "name") (get (FormData (form p)) "email")
               (get (FormData (form p)) "subject") (get (FormData (form p)) "message").
Proof. unfold submit. simpl. now destruct (submitButton (form p)). Qed.

Lemma enqueue_last (tm : Timer) (queue : list Timer) :
  Forall (fun q => due q <= due tm) queue ->
  enqueue tm queue = (queue ++ [tm])%list.
Proof.
  induction 1 as [|q queue Hq _ IH]; simpl; [reflexivity|].
  apply Z.leb_le in Hq. now rewrite Hq, IH.
Qed.

Lemma enqueue_Forall (P : Timer -> Prop) (tm : Timer) (queue : list Timer) :
  P tm -> Forall P queue -> Forall P (enqueue tm queue).
Proof.
  intros Htm. induction 1 as [|q queue Hq Hall IH]; simpl.
  - now constructor.
  - destruct (due q <=? due tm); repeat constructor; assumption.
Qed.

Lemma runDue_Forall (P : Timer -> Prop) (t : Z) (queue : list Timer) (f : Form) :
  Forall P queue -> Forall P (snd (runDue t queue f)).
Proof.
  intros H. revert f. induction H as [|q queue Hq Hall IH]; intros f; simpl.
  - constructor.
  - destruct (due q <=? t); [apply IH|]. simpl. now constructor.
Qed.

(** When everything is due, every callback runs, in queue order. *)
Lemma runDue_all (t : Z) (queue : list Timer) (f : Form) :
  Forall (fun q => due q <= t) queue ->
  runDue t queue f
  = (fold_left (fun g q => fire (callback q) g) queue f, []).
Proof.
  intros H. revert f. induction H as [|q queue Hq _ IH]; intros f; simpl.
  - reflexivity.
  - apply Z.leb_le in Hq. now rewrite Hq, IH.
Qed.

Lemma fire_defaults (cb : Callback) (f : Form) :
  map defaultValue (fields (fire cb f)) = map defaultValue (fields f).
Proof.
  destruct cb. simpl. rewrite map_map. reflexivity.
Qed.

Lemma fire_button (cb : Callback) (f : Form) :
  submitButton f <> None -> submitButton (fire cb f) <> None.
Proof. destruct cb. simpl. now destruct (submitButton f). Qed.

Lemma fire_all_defaults (queue : list Timer) (f : Form) :
  map defaultValue (fields (fold_left (fun g q => fire (callback q) g) queue f))
  = map defaultValue (fields f).
Proof.
  revert f; induction queue as [|q queue IH]; intros f; simpl; [reflexivity|].
  now rewrite IH, fire_defaults.
Qed.

Lemma fire_all_button (queue : list Timer) (f : Form) :
  submitButton f <> None ->
  submitButton (fold_left (fun g q => fire (callback q) g) queue f) <> None.
Proof.
  revert f; induction queue as [|q queue IH]; intros f H; simpl; [exact H|].
  apply IH. now apply fire_button.
Qed.

(** What the callback of a submission leaves, whatever the form was. *)
Lemma fire_restore (originalText : string) (f : Form) :
  submitButton f <> None ->
  submitButton (fire (RestoreButton originalText) f)
  = Some (mkButton originalText "")
  /\ map value (fields (fire (RestoreButton originalText) f))
     = map defaultValue (fields f).
Proof.
  intros H. simpl. split.
  - now destruct (submitButton f).
  - rewrite !map_map. reflexivity.
Qed.

Lemma reachable_pendingSoon (f : Form) (url : string) (p : Page) :
  reachable f url p -> pendingSoon p.
Proof.
  induction 1 as [|ev p _ IH]; [constructor|].
  unfold pendingSoon in *. destruct ev as [|d|key v]; cbn [step].
  - destruct (submitButton (form p)) as [b|] eqn:E.
    + rewrite (submit_with_button p b E). simpl.
      apply enqueue_Forall; simpl; [lia|exact IH].
    + rewrite (submit_without_button p E). exact IH.
  - unfold elapse.
    pose proof (runDue_Forall _ (now p + Z.max 0 d) (timers p) (form p) IH) as H.
    destruct (runDue (now p + Z.max 0 d) (timers p) (form p)) as [g queue].
    simpl in *. eapply Forall_impl; [|exact H]. simpl. intros q Hq. lia.
  - exact IH.
Qed.

End ContactFacts.

(** C7.  With the four fields in the form, a submission assigns the location
    once, to the [mailto:] link of the fixed recipient whose [subject] is the
    encoded subject field and whose [body] is the encoded text
    [Name: name\nEmail: email\n\nMessage:\nmessage]; both decode to the text
    they encode.  For Jane the link is as spelled out, and its body decodes to
    exactly [Name: Jane\nEmail: jane@x.com\n\nMessage:\nHello]. *)
Theorem contact_submit_builds_mailto :
  (forall (p : Contact.Page) (name email subject message : string),
      Contact.get (Contact.FormData (Contact.form p)) "name" = Some name ->
      Contact.get (Contact.FormData (Contact.form p)) "email" = Some email ->
      Contact.get (Contact.FormData (Contact.form p)) "subject" = Some subject ->
      Contact.get (Contact.FormData (Contact.form p)) "message" = Some message ->
      let body := "Name: " ++ name ++ Contact.newline
                  ++ "Email: " ++ email ++ Contact.newline ++ Contact.newline
                  ++ "Message:" ++ Contact.newline ++ message in
      Contact.location_href (fst (Contact.submit p))
      = "mailto:imriteshreddy1035@gmail.com?subject="
        ++ URI.encodeURIComponent subject
        ++ "&body=" ++ URI.encodeURIComponent body
      /\ URI.percentDecode (URI.encodeURIComponent subject) = Some subject
      /\ URI.percentDecode (URI.encodeURIComponent body) = Some body)
  /\ Contact.location_href
       (fst (Contact.submit (Contact.loaded Sample.janeForm Sample.url)))
     = "mailto:imriteshreddy1035@gmail.com?subject=Hi&body=Name%3A%20Jane%0AEmail%3A%20jane%40x.com%0A%0AMessage%3A%0AHello"
  /\ URI.percentDecode
       "Name%3A%20Jane%0AEmail%3A%20jane%40x.com%0A%0AMessage%3A%0AHello"
     = Some ("Name: Jane" ++ Contact.newline ++ "Email: jane@x.com"
             ++ Contact.newline ++ Contact.newline
             ++ "Message:" ++ Contact.newline ++ "Hello").
Proof.
  split; [|split; reflexivity].
  intros p name email subject message Hn He Hs Hm body.
  rewrite submit_location, Hn, He, Hs, Hm.
  split; [reflexivity|].
  split; apply percentDecode_encodeURIComponent.
Qed.

Lemma contact_submit_builds_mailto_witness :
  Contact.location_href
    (fst (Contact.submit (Contact.loaded Sample.presetForm Sample.url)))
  = "mailto:imriteshreddy1035@gmail.com?subject="
    ++ URI.encodeURIComponent "Hi"
    ++ "&body="
    ++ URI.encodeURIComponent
         ("Name: " ++ "Jane" ++ Contact.newline
          ++ "Email: " ++ "jane@x.com" ++ Contact.newline ++ Contact.newline
          ++ "Message:" ++ Contact.newline ++ "Hello").
Proof.
  exact (proj1 (proj1 contact_submit_builds_mailto
                  (Contact.loaded Sample.presetForm Sample.url)
                  "Jane" "jane@x.com" "Hi" "Hello"
                  eq_refl eq_refl eq_refl eq_refl)).
Defined.

(** A field the form does not have reads as [null] and is written out as the
    text [null]. *)
Example mailtoLink_missing_field :
  Contact.mailtoLink (Some "Jane") None (Some "Hi") (Some "Hello")
  = "mailto:imriteshreddy1035@gmail.com?subject=Hi&body=Name%3A%20Jane%0AEmail%3A%20null%0A%0AMessage%3A%0AHello".
Proof. reflexivity. Qed.




(** The confirmation is up for the whole 3000 ms: one ms short, after a
    first submission, the label is still the confirmation and the fields
    still hold what was typed. *)
Example contact_confirmation_shown_until_3000 :
  let p' := Contact.elapse 2999
              (fst (Contact.submit (Contact.loaded Sample.janeForm Sample.url))) in
  Contact.label p' = Some Contact.confirmation
  /\ Contact.values p' = ["Jane"; "jane@x.com"; "Hi"; "Hello"].
Proof. split; reflexivity. Qed.

(** ** The DOMContentLoaded callback *)

Section InitFacts.
Import Init.

(** The callback throws exactly when the page has no [.hamburger]; nothing is
    installed then. *)
Lemma init_throws_iff_no_hamburger (d : Document) :
  snd (init d) = JS.Throw JS.TypeError <-> hamburger d = None.
Proof.
  unfold init. destruct (hamburger d); simpl; split; intros H;
    try reflexivity; discriminate H.
Qed.

Lemma init_no_hamburger (d : Document) :
  hamburger d = None -> init d = ((d, []), JS.Throw JS.TypeError).
Proof. intros H. unfold init. now rewrite H. Qed.

(** The menu callbacks throw when the page has no [.nav-menu], after the
    hamburger was toggled. *)
Lemma toggleMenu_no_navMenu (d : Document) (h : Element) :
  hamburger d = Some h -> navMenu d = None ->
  toggleMenu d
  = (withHamburger d (Some (onClass (fun cl => DOMTokenList.toggle cl "active") h)),
     JS.Throw JS.TypeError).
Proof. intros Hh Hm. unfold toggleMenu. rewrite Hh. cbn. now rewrite Hm. Qed.

Lemma closeMenu_no_navMenu (d : Document) (h : Element) :
  hamburger d = Some h -> navMenu d = None ->
  snd (closeMenu d) = JS.Throw JS.TypeError.
Proof. intros Hh Hm. unfold closeMenu. rewrite Hh. cbn. now rewrite Hm. Qed.

(** The navbar callback throws on every scroll event when the page has no
    [.navbar]. *)
Lemma navbarScrolled_no_navbar (d : Document) :
  navbar d = None -> navbarScrolled d = (d, JS.Throw JS.TypeError).
Proof. intros H. unfold navbarScrolled. now rewrite H. Qed.

Lemma forIndices_not_installs {h : Handler} (n : nat) (f : nat -> list Installed) :
  (forall i x, In x (f i) ->
     match x with
     | Listener _ _ h' => h' <> h
     | SetTimeout h' _ => h' <> h
     | SetInterval _ h' _ => h' <> h
     | Observed _ => True
     end) ->
  ~ installs h (forIndices n f).
Proof.
  intros Hf [x [Hin Hx]]. unfold forIndices in Hin.
  apply in_flat_map in Hin as [i [_ Hin]].
  specialize (Hf i x Hin). destruct x; auto.
Qed.

Lemma carousels_not_installs (h : Handler) (cards : list Carousel.Card) (i : nat) :
  h <> CarouselPrev -> h <> CarouselNext -> h <> CarouselRotate ->
  ~ installs h (carouselsFrom i cards).
Proof.
  intros H1 H2 H3 [x [Hin Hx]]. revert i Hin.
  induction cards as [|card cards IH]; intros i Hin; simpl in Hin; [exact Hin|].
  apply in_app_or in Hin as [Hin|Hin]; [|exact (IH _ Hin)].
  unfold carouselInstalls in Hin.
  destruct (snd (Carousel.setup card)); [|exact Hin].
  apply in_map_iff in Hin as [r [<- _]].
  destruct r; simpl in Hx; congruence.
Qed.

Lemma installs_app (h : Handler) (l1 l2 : list Installed) :
  installs h (l1 ++ l2) <-> installs h l1 \/ installs h l2.
Proof.
  unfold installs. split.
  - intros [x [Hin Hx]]. apply in_app_or in Hin as [Hin|Hin]; eauto.
  - intros [[x [Hin Hx]]|[x [Hin Hx]]]; exists x; split; auto;
      apply in_or_app; auto.
Qed.

Lemma installs_cons (h : Handler) (x : Installed) (l : list Installed) :
  installs h (x :: l) <-> installs h [x] \/ installs h l.
Proof. apply (installs_app h [x] l). Qed.

Ltac split_installs H :=
  repeat match type of H with
         | installs _ (_ ++ _) => apply installs_app in H as [H|H]
         | installs _ (_ :: _ :: _) => apply installs_cons in H as [H|H]
         | installs _ (_ :: forIndices _ _) => apply installs_cons in H as [H|H]
         end.

Lemma installs_one (k : Handler) (x : Installed) :
  installs k [x] ->
  match x with
  | Listener _ _ h' => h' = k
  | SetTimeout h' _ => h' = k
  | SetInterval _ h' _ => h' = k
  | Observed _ => False
  end.
Proof. intros [y [[<-|[]] Hy]]. exact Hy. Qed.

Ltac not_installed H :=
  solve [ apply installs_one in H; discriminate H
        | revert H; apply forIndices_not_installs;
          intros ? ? [<-|[<-|[]]]; discriminate
        | revert H; apply forIndices_not_installs;
          intros ? ? [<-|[]]; try discriminate; exact I
        | revert H; apply carousels_not_installs; discriminate
        | destruct H as [? [[] _]] ].

(** The two guarded hooks: with the hamburger in place the callback ends
    normally whatever else is missing, and it installs the typing timer
    exactly when the page has a [.typing-text], the submit callback exactly
    when it has a [.contact-form]. *)
Lemma init_guards (d : Document) (h : Element) :
  hamburger d = Some h ->
  snd (init d) = JS.Normal
  /\ (installs SubmitContact (snd (fst (init d))) <-> contactForm d <> None)
  /\ ((exists text, installs (TypeWriter text) (snd (fst (init d))))
      <-> typingText d <> None).
Proof.
  intros Hh. unfold init. rewrite Hh. cbn [fst snd].
  split; [reflexivity|].
  cbn [withTypingText withSkillBars withProjectCards contactForm].
  split; split.
  - intros H. destruct (contactForm d); [discriminate|]. exfalso.
    split_installs H; try not_installed H.
    destruct (typingText d); not_installed H.
  - intros H. destruct (contactForm d); [|contradiction].
    do 7 (apply installs_app; right).
    apply installs_app. left. eexists. split; [left; reflexivity|reflexivity].
  - intros [text H]. destruct (typingText d); [discriminate|]. exfalso.
    split_installs H; try not_installed H.
    destruct (contactForm d); not_installed H.
  - intros H. destruct (typingText d) as [text|]; [|contradiction].
    exists text. do 3 (apply installs_app; right).
    apply installs_app. left. eexists. split; [left; reflexivity|reflexivity].
Qed.

End InitFacts.

(** C9.  The callback on the sample page without the [.hamburger] element:
    it throws a TypeError at its first statement that uses the element and
    installs nothing, not even the components whose hooks are present.  The
    sample page itself sets every component up.  Without the [.nav-menu] the
    click on the hamburger throws, without the [.navbar] every scroll event
    does.  Only the typing text and the contact form are skipped silently
    when absent. *)
Theorem init_without_hamburger_throws :
  Init.init Sample.pageNoHamburger
  = ((Sample.pageNoHamburger, []), JS.Throw JS.TypeError)
  /\ snd (Init.init Sample.page) = JS.Normal
  /\ List.length (snd (fst (Init.init Sample.page))) = 31%nat
  /\ (snd (Init.init Sample.pageNoNavMenu) = JS.Normal
      /\ snd (Init.toggleMenu (fst (fst (Init.init Sample.pageNoNavMenu))))
         = JS.Throw JS.TypeError)
  /\ (snd (Init.init Sample.pageNoNavbar) = JS.Normal
      /\ snd (Init.navbarScrolled (fst (fst (Init.init Sample.pageNoNavbar))))
         = JS.Throw JS.TypeError)
  /\ (snd (Init.init Sample.pageNoTypingNoForm) = JS.Normal
      /\ List.length (snd (fst (Init.init Sample.pageNoTypingNoForm))) = 29%nat).
Proof. repeat split; vm_compute; reflexivity. Qed.

(* ===================================================================== *)
(** * Further properties of the script                                    *)
(* ===================================================================== *)

(** ** Typing animation *)

Ltac nat_cases :=
  repeat match goal with
         | |- context [(?a <=? ?b)%nat] => destruct (Nat.leb_spec a b)
         | |- context [(?a <? ?b)%nat] => destruct (Nat.ltb_spec a b)
         | |- context [(?a =? ?b)%nat] => destruct (Nat.eqb_spec a b)
         end.

Section TypingFacts.
Import Typing.

Variable U : Type.
Variable content : list U.
Variable position : string.
Variable t0 : Z.

Let n := List.length content.

Lemma firstn_snoc_charAt (k : nat) :
  (k < n)%nat -> (firstn k content ++ charAt content k)%list = firstn (S k) content.
Proof.
  unfold n, charAt. revert k. induction content as [|u l IH]; intros k Hk; simpl in *.
  - lia.
  - destruct k as [|k]; simpl; [reflexivity|].
    f_equal. apply IH. lia.
Qed.

Lemma typed_step (k : nat) :
  fire (typed content position t0 k) = typed content position t0 (S k).
Proof.
  assert (Hsnoc := firstn_snoc_charAt k).
  assert (Hall : forall j, (n <= j)%nat -> firstn j content = content)
    by (intros j Hj; apply firstn_all2; exact Hj).
  assert (Hnil : n = 0%nat -> content = [])
    by (intros H0; now apply length_zero_iff_nil).
  subst n.
  unfold typed, fire, start, typeWriter, removeCursor, dueOf.
  destruct k as [|k]; cbn [pending text textContent i now style_position];
    [cbn [firstn] in Hsnoc|];
    nat_cases; cbn [pending text textContent i now style_position] in *;
    nat_cases; cbn [pending text textContent i now style_position] in *;
    try lia;
    try rewrite Hsnoc by lia;
    try (rewrite (Hall (S k)) by lia);
    try (rewrite (Hall 1%nat) by lia);
    try (rewrite Hnil by lia; cbn [List.length]);
    try (f_equal; try lia; f_equal; f_equal; lia).
Qed.

Lemma fires_typed (k : nat) :
  fires k (start content position t0) = typed content position t0 k.
Proof.
  unfold fires. induction k as [|k IH]; [reflexivity|].
  rewrite Nat.iter_succ, IH. apply typed_step.
Qed.

Lemma pending_typed (k : nat) :
  ((k < n + 2)%nat ->
   exists cb, pending (typed content position t0 k)
              = Some (dueOf t0 n (S k), cb))
  /\ ((n + 2 <= k)%nat -> pending (typed content position t0 k) = None).
Proof.
  subst n. unfold typed, start, dueOf.
  destruct k as [|k]; cbn [pending]; nat_cases; cbn [pending]; split; intros;
    try lia; try reflexivity;
    try (eexists; reflexivity);
    try (eexists; f_equal; f_equal; lia).
Qed.

Lemma textContent_typed (k : nat) :
  textContent (typed content position t0 k) = firstn (Nat.min k n) content.
Proof.
  subst n. unfold typed, start.
  destruct k as [|k]; cbn [textContent]; [reflexivity|].
  nat_cases; cbn [textContent].
  - now rewrite Nat.min_l by lia.
  - rewrite Nat.min_r by lia. now rewrite firstn_all.
  - rewrite Nat.min_r by lia. now rewrite firstn_all.
Qed.

(** Letting time run to [t] from the state after [k] firings leads to the
    state after [k'] firings, where the [k']-th timer was due by [t] and the
    next one is not. *)
Lemma advance_typed (t : Z) (fuel k : nat) :
  (n + 2 <= k + fuel)%nat ->
  exists k',
    advance fuel t (typed content position t0 k) = typed content position t0 k'
    /\ (k <= k')%nat
    /\ ((k < k')%nat -> dueOf t0 n k' <= t)
    /\ ((k' < n + 2)%nat -> t < dueOf t0 n (S k')).
Proof.
  revert k. induction fuel as [|fuel IH]; intros k Hk.
  - exists k. cbn [advance]. repeat split; lia.
  - cbn [advance].
    destruct (pending_typed k) as [Hsome Hnone].
    destruct (Nat.lt_ge_cases k (n + 2)) as [Hlt|Hge].
    + destruct (Hsome Hlt) as [cb ->].
      destruct (Z.leb_spec (dueOf t0 n (S k)) t) as [Hdue|Hdue].
      * rewrite typed_step.
        destruct (IH (S k)) as [k' [E [H1 [H2 H3]]]]; [lia|].
        exists k'. rewrite E. repeat split; try lia; try assumption.
        intros _. destruct (Nat.eq_dec k' (S k)) as [->|Hne]; [exact Hdue|].
        apply H2. lia.
      * exists k. repeat split; lia.
    + rewrite (Hnone Hge). exists k. repeat split; lia.
Qed.

End TypingFacts.

(** X1.  The typing animation, callback by callback: after [k] timer
    callbacks, [k] no more than the length of the text, the element shows the
    first [k] units of the text it had; after [length + 2] callbacks or more
    it shows the whole text, [style.position] is [relative], the clock stands
    at [2000 + 100 * length] ms after the start and no timer is pending, so
    the animation has ended for good. *)
Theorem typing_runs_to_the_full_text :
  forall (U : Type) (content : list U) (position : string) (t0 : Z) (k : nat),
    ((k <= List.length content)%nat ->
     Typing.textContent (Typing.fires k (Typing.start content position t0))
     = firstn k content
     /\ Typing.i (Typing.fires k (Typing.start content position t0)) = k
     /\ Typing.style_position (Typing.fires k (Typing.start content position t0))
        = position)
    /\ ((List.length content + 2 <= k)%nat ->
        Typing.fires k (Typing.start content position t0)
        = Typing.mkState content content (List.length content) "relative"
            (t0 + 2000 + 100 * Z.of_nat (List.length content)) None).
Proof.
  intros U content position t0 k. rewrite fires_typed.
  unfold Typing.typed, Typing.start, Typing.dueOf.
  split; intros Hk.
  - destruct k as [|k]; [repeat split|].
    nat_cases; try lia. repeat split.
  - destruct k as [|k]; [lia|]. nat_cases; try lia. reflexivity.
Qed.

Lemma typing_runs_to_the_full_text_witness :
  Typing.textContent
    (Typing.fires 3 (Typing.start (list_ascii_of_string "Ritesh") "" 0))
  = list_ascii_of_string "Rit"
  /\ Typing.fires 9 (Typing.start (list_ascii_of_string "Ritesh") "" 0)
     = Typing.mkState (list_ascii_of_string "Ritesh")
         (list_ascii_of_string "Ritesh") 6 "relative" 2600 None.
Proof.
  split.
  - exact (proj1 (proj1 (typing_runs_to_the_full_text
                           ascii (list_ascii_of_string "Ritesh") "" 0 3)
                        ltac:(cbn; lia))).
  - exact (proj2 (typing_runs_to_the_full_text
                    ascii (list_ascii_of_string "Ritesh") "" 0 9)
                 ltac:(cbn; lia)).
Defined.

(** X2.  The typing animation against the clock: at any time [t] the element
    shows the first [shown t] units of its text, nothing during the first
    second, then one unit more every 100 ms until the text is complete; from
    [2000 + 100 * length] ms on, no timer is pending. *)
Theorem typing_shows_one_more_unit_every_100ms :
  forall (U : Type) (content : list U) (position : string) (t0 t : Z),
    Typing.textContent (Typing.at_time t (Typing.start content position t0))
    = firstn (Typing.shown t0 (List.length content) t) content
    /\ (t0 + 2000 + 100 * Z.of_nat (List.length content) <= t ->
        Typing.pending (Typing.at_time t (Typing.start content position t0)) = None
        /\ Typing.style_position
             (Typing.at_time t (Typing.start content position t0)) = "relative").
Proof.
  intros U content position t0 t.
  unfold Typing.at_time. cbn [Typing.textContent Typing.pending Typing.style_position].
  change (Typing.text (Typing.start content position t0)) with content.
  change (Typing.start content position t0) with (Typing.typed content position t0 0).
  destruct (advance_typed U content position t0 t (List.length content + 2) 0)
    as [k' [E [_ [Hfired Hnext]]]]; [lia|].
  rewrite E. rewrite textContent_typed.
  pose proof (Z.div_mod (t - t0 - 1000) 100 ltac:(lia)) as Hdiv.
  pose proof (Z.mod_pos_bound (t - t0 - 1000) 100 ltac:(lia)) as Hmod.
  unfold Typing.shown, Typing.dueOf in *.
  set (n := List.length content) in *.
  set (q := (t - t0 - 1000) / 100) in *.
  set (r := (t - t0 - 1000) mod 100) in *.
  split.
  - f_equal.
    destruct (Z.ltb_spec t (t0 + 1000)) as [Hearly|Hlate].
    + destruct k' as [|k']; [reflexivity|].
      exfalso. specialize (Hfired ltac:(lia)). revert Hfired. nat_cases; lia.
    + destruct (Nat.le_gt_cases k' n) as [Hle|Hgt].
      * specialize (Hnext ltac:(lia)). revert Hnext. nat_cases; try lia. intros Hnext.
        destruct k' as [|k'].
        -- exfalso. cbn in Hnext. lia.
        -- specialize (Hfired ltac:(lia)). revert Hfired. nat_cases; try lia.
      * specialize (Hfired ltac:(lia)). revert Hfired. nat_cases; lia.
  - intros Hend.
    assert (Hk : (n + 2 <= k')%nat).
    { destruct (Nat.lt_ge_cases k' (n + 2)) as [Hlt|Hge]; [|exact Hge].
      specialize (Hnext Hlt). revert Hnext. nat_cases; lia. }
    unfold Typing.typed. fold n. destruct k' as [|k']; [lia|].
    nat_cases; try lia. split; reflexivity.
Qed.

Lemma typing_shows_one_more_unit_every_100ms_witness :
  Typing.textContent
    (Typing.at_time 1250 (Typing.start (list_ascii_of_string "Ritesh") "" 0))
  = list_ascii_of_string "Rit"
  /\ Typing.pending
       (Typing.at_time 2600 (Typing.start (list_ascii_of_string "Ritesh") "" 0))
     = None.
Proof.
  destruct (typing_shows_one_more_unit_every_100ms
              ascii (list_ascii_of_string "Ritesh") "" 0 1250) as [H1 _].
  destruct (typing_shows_one_more_unit_every_100ms
              ascii (list_ascii_of_string "Ritesh") "" 0 2600) as [_ H2].
  split; [exact H1|]. exact (proj1 (H2 ltac:(cbn; lia))).
Defined.

(** The sample title at a few instants. *)
Example typing_sample_times :
  map (fun t => string_of_list_ascii
                  (Typing.textContent
                     (Typing.at_time t
                        (Typing.start (list_ascii_of_string "Ritesh") "" 0))))
      [0; 999; 1000; 1099; 1100; 1500; 1600; 9000]
  = [""; ""; "R"; "R"; "Ri"; "Ritesh"; "Ritesh"; "Ritesh"].
Proof. reflexivity. Qed.

(** ** debounce *)

Section DebounceFacts.
Import Debounce.

Variable A : Type.

Lemma run_app (evs1 evs2 : list (Event A)) (st : State A) :
  run (evs1 ++ evs2) st = run evs2 (run evs1 st).
Proof. unfold run. apply fold_left_app. Qed.

Lemma last_nonempty (x : A) (l : list A) (d d' : A) :
  last (x :: l) d = last (x :: l) d'.
Proof.
  revert x. induction l as [|y l IH]; intros x; [reflexivity|].
  change (last (y :: l) d = last (y :: l) d'). apply IH.
Qed.

(** During a burst the timer keeps being replaced and [func] is not
    invoked. *)
Lemma delayOf_small (w : Z) :
  0 <= w <= 2147483647 -> Timers.delayOf w = w.
Proof.
  intros H. unfold Timers.delayOf, Timers.toInt32.
  rewrite Z.mod_small by lia. lia.
Qed.

Lemma burst_keeps_waiting (w : Z) (rest : list (Z * A)) (st : State A) (a : A) :
  0 < w <= 2147483647 ->
  wait st = w ->
  timeout st = Some (now st + w, a) ->
  Forall (fun c => fst c < w) rest ->
  let st' := run (burst rest) st in
  wait st' = w
  /\ invoked st' = invoked st
  /\ now st' = now st + duration rest
  /\ timeout st' = Some (now st' + w, last (map snd rest) a).
Proof.
  intros Hw. revert st a.
  induction rest as [|[g b] rest IH]; intros st a Hwait Hto Hall.
  - cbn. repeat split; try lia; try assumption.
    all: rewrite Hto; f_equal; f_equal; lia.
  - inversion Hall as [|c l Hg Hrest]; subst c l. cbn [fst] in Hg.
    cbn [burst flat_map fst snd app]. unfold run. cbn [fold_left step].
    set (st1 := call b (elapse g st)).
    assert (E : elapse g st
                = mkState (wait st) (timeout st) (invoked st)
                          (now st + Z.max 0 g)).
    { unfold elapse. rewrite Hto.
      destruct (Z.leb_spec (now st + w) (now st + Z.max 0 g));
        [lia|reflexivity]. }
    assert (H1 : wait st1 = w) by (unfold st1; rewrite E; exact Hwait).
    assert (H2 : invoked st1 = invoked st) by (unfold st1; rewrite E; reflexivity).
    assert (H3 : now st1 = now st + Z.max 0 g) by (unfold st1; rewrite E; reflexivity).
    assert (H4 : timeout st1 = Some (now st1 + w, b)).
    { unfold st1. rewrite E. unfold call. cbn [timeout now wait].
      rewrite Hwait, delayOf_small by lia. reflexivity. }
    destruct (IH st1 b H1 H4 Hrest) as [K1 [K2 [K3 K4]]].
    unfold run, burst in K1, K2, K3, K4. fold st1.
    rewrite K1, K2, K4, K3, H2, H3.
    split; [reflexivity|]. split; [reflexivity|].
    split; [unfold duration; cbn [fold_right fst]; lia|].
    f_equal. f_equal.
    cbn [map snd]. destruct (map snd rest) as [|x l]; [reflexivity|].
    change (last (x :: l) b = last (x :: l) a). apply last_nonempty.
Qed.

(** The invocations of [func] and the pending timer are accounted for by
    the calls made. *)
Lemma run_accounts (evs : list (Event A)) (st : State A) :
  let pend (s : State A) := match timeout s with Some (_, a) => [a] | None => [] end in
  let st' := run evs st in
  (List.length (invoked st') + List.length (pend st')
   <= List.length (invoked st) + List.length (pend st)
      + List.length (callsOf evs))%nat
  /\ (forall a, In a (map snd (invoked st') ++ pend st')%list ->
                In a (map snd (invoked st) ++ pend st ++ callsOf evs)%list).
Proof.
  cbn zeta. revert st. induction evs as [|ev evs IH]; intros st.
  - cbn. split; [lia|]. intros a. rewrite app_nil_r. auto.
  - unfold run. cbn [fold_left]. fold (run evs (step st ev)).
    destruct (IH (step st ev)) as [Hlen Hin]. clear IH.
    unfold callsOf in *.
    destruct ev as [b|d]; cbn [step flat_map app] in *.
    + unfold call in *. cbn [invoked timeout] in *. split.
      * cbn [List.length] in *. destruct (timeout st) as [[? ?]|]; cbn [List.length]; lia.
      * intros a Ha. specialize (Hin a Ha).
        rewrite !in_app_iff in *. cbn [In] in *.
        destruct Hin as [H|[[H|[]]|H]]; auto.
    + unfold elapse in *.
      destruct (timeout st) as [[due a0]|] eqn:Et; cbn [List.length] in *.
      * destruct (due <=? now st + Z.max 0 d); cbn [invoked timeout] in *.
        -- rewrite length_app in Hlen. cbn [List.length] in *.
           split; [lia|]. intros a Ha. specialize (Hin a Ha).
           rewrite map_app in Hin. rewrite !in_app_iff in *. cbn [map snd In] in *.
           destruct Hin as [[H|[H|[]]]|[[]|H]]; auto.
        -- cbn [List.length] in *. split; [lia|exact Hin].
      * cbn [invoked timeout List.length] in *. split; [lia|exact Hin].
Qed.

End DebounceFacts.

(** X3.  [debounce]: after a call and a burst of further calls, each less
    than [wait] ms after the one before, followed by [wait] ms or more of
    quiet, [func] has been invoked exactly once more, at [wait] ms after the
    last call and with the arguments of the last call; no timer is left.
    [wait] is a positive delay that fits the 32 bits of a timer delay. *)
Theorem debounce_burst_invokes_once_with_last_arguments :
  forall (A : Type) (st : Debounce.State A) (a0 : A)
         (rest : list (Z * A)) (d : Z),
    Debounce.timeout st = None ->
    0 < Debounce.wait st <= 2147483647 ->
    Forall (fun c => fst c < Debounce.wait st) rest ->
    Debounce.wait st <= d ->
    let st' := Debounce.run
                 (Debounce.Call a0 :: Debounce.burst rest ++ [Debounce.Elapse d])%list
                 st in
    Debounce.invoked st'
    = (Debounce.invoked st
       ++ [(Debounce.now st + Debounce.duration rest + Debounce.wait st,
            last (map snd rest) a0)])%list
    /\ Debounce.timeout st' = None
    /\ Debounce.now st' = Debounce.now st + Debounce.duration rest + d.
Proof.
  intros A st a0 rest d Hnone Hw Hall Hd st'. unfold st'.
  change (Debounce.Call a0 :: Debounce.burst rest ++ [Debounce.Elapse d])%list
    with ([Debounce.Call a0] ++ Debounce.burst rest ++ [Debounce.Elapse d])%list.
  rewrite !run_app.
  set (st0 := Debounce.run [Debounce.Call a0] st).
  assert (Hto : Debounce.timeout st0
                = Some (Debounce.now st0 + Debounce.wait st, a0)).
  { unfold st0, Debounce.run. cbn [fold_left Debounce.step]. unfold Debounce.call.
    cbn [Debounce.timeout Debounce.now]. rewrite delayOf_small by lia. reflexivity. }
  destruct (burst_keeps_waiting A (Debounce.wait st) rest st0 a0)
    as [K1 [K2 [K3 K4]]];
    [exact Hw | reflexivity | exact Hto | exact Hall |].
  set (st1 := Debounce.run (Debounce.burst rest) st0) in *.
  change (Debounce.invoked st0) with (Debounce.invoked st) in *.
  change (Debounce.now st0) with (Debounce.now st) in *.
  unfold Debounce.run. cbn [fold_left Debounce.step]. unfold Debounce.elapse.
  rewrite K4, K3, K2, K1.
  destruct (Z.leb_spec (Debounce.now st + Debounce.duration rest
                        + Debounce.wait st)
                       (Debounce.now st + Debounce.duration rest + Z.max 0 d));
    [|lia].
  cbn [Debounce.invoked Debounce.timeout Debounce.now].
  repeat split; try lia.
Qed.

Lemma debounce_burst_invokes_once_with_last_arguments_witness :
  Debounce.invoked
    (Debounce.run
       [Debounce.Call "a"; Debounce.Elapse 3; Debounce.Call "b";
        Debounce.Elapse 9; Debounce.Call "c"; Debounce.Elapse 10]
       (Debounce.create 10 0))
  = [(22, "c")].
Proof.
  exact (proj1 (debounce_burst_invokes_once_with_last_arguments
                  string (Debounce.create 10 0) "a" [(3, "b"); (9, "c")] 10
                  eq_refl ltac:(cbn; lia)
                  ltac:(repeat constructor; cbn; lia) ltac:(cbn; lia))).
Defined.

(** A delay of 2^31 ms does not fit: the timer is due at once, and both
    calls of a burst invoke [func]. *)
Example debounce_delay_beyond_32_bits :
  Debounce.invoked
    (Debounce.run [Debounce.Call "a"; Debounce.Elapse 100; Debounce.Call "b";
                   Debounce.Elapse 100]
                  (Debounce.create 2147483648 0))
  = [(0, "a"); (100, "b")].
Proof. reflexivity. Qed.

(** X4.  [debounce]: over any trace of calls and waits, [func] is invoked
    at most as many times as the function was called, and only with the
    arguments of some call of the trace; a call by itself never invokes
    [func]. *)
Theorem debounce_invokes_no_more_than_called :
  forall (A : Type) (w t0 : Z) (evs : list (Debounce.Event A)),
    let st := Debounce.run evs (Debounce.create w t0) in
    (List.length (Debounce.invoked st) <= List.length (Debounce.callsOf evs))%nat
    /\ (forall e, In e (Debounce.invoked st) -> In (snd e) (Debounce.callsOf evs))
    /\ (forall a, Debounce.invoked (Debounce.call a st) = Debounce.invoked st).
Proof.
  intros A w t0 evs st.
  destruct (run_accounts A evs (Debounce.create w t0)) as [Hlen Hin].
  cbn [Debounce.create Debounce.invoked Debounce.timeout List.length map app] in *.
  fold st in Hlen, Hin.
  split; [lia|]. split; [|reflexivity].
  intros e He. apply Hin. apply in_or_app. left. now apply in_map.
Qed.

Lemma debounce_invokes_no_more_than_called_witness :
  In (22, "c")
     (Debounce.invoked
        (Debounce.run
           [Debounce.Call "a"; Debounce.Elapse 3; Debounce.Call "b";
            Debounce.Elapse 9; Debounce.Call "c"; Debounce.Elapse 10]
           (Debounce.create 10 0)))
  /\ In "c" ["a"; "b"; "c"].
Proof.
  assert (H : In (22, "c")
                 (Debounce.invoked
                    (Debounce.run
                       [Debounce.Call "a"; Debounce.Elapse 3; Debounce.Call "b";
                        Debounce.Elapse 9; Debounce.Call "c"; Debounce.Elapse 10]
                       (Debounce.create 10 0)))) by (left; reflexivity).
  split; [exact H|].
  exact (proj1 (proj2 (debounce_invokes_no_more_than_called
                         string 10 0
                         [Debounce.Call "a"; Debounce.Elapse 3; Debounce.Call "b";
                          Debounce.Elapse 9; Debounce.Call "c"; Debounce.Elapse 10]))
               (22, "c") H).
Defined.

(** ** throttle *)

Section ThrottleFacts.
Import Throttle.

Variable A : Type.

Lemma spaced_snoc (gap t : Z) (times : list Z) :
  spaced gap times ->
  match rev times with
  | [] => True
  | tl :: _ => tl + gap <= t
  end ->
  spaced gap (times ++ [t]).
Proof.
  induction times as [|x times IH]; intros Hs Hl; [cbn; auto|].
  destruct Hs as [Hx Hs]. cbn [rev] in Hl.
  destruct times as [|y times].
  - cbn in *. auto.
  - assert (Hrev : exists h r, rev (y :: times) = h :: r).
    { destruct (rev (y :: times)) as [|h r] eqn:E; [|eauto].
      apply (f_equal (@List.length Z)) in E. rewrite length_rev in E. discriminate E. }
    destruct Hrev as [h [r Hrev]]. rewrite Hrev in Hl. cbn [app] in Hl.
    change ((x :: y :: times) ++ [t])%list with (x :: y :: (times ++ [t]))%list.
    cbn [spaced]. split; [exact Hx|].
    apply IH; [exact Hs|]. now rewrite Hrev.
Qed.

(** A limit that fits 32 bits is no more than the delay it stands for. *)
Lemma limit_le_delay (l : Z) : l <= 2147483647 -> l <= Timers.delayOf l.
Proof.
  intros H. destruct (Z.le_gt_cases l 0) as [Hneg|Hpos].
  - unfold Timers.delayOf. lia.
  - rewrite delayOf_small by lia. lia.
Qed.

(** Every step at which [func] returns keeps the closure consistent and the
    invocations spaced. *)
Lemma step_consistent (st : State A) (ev : Event A) :
  limit st <= 2147483647 ->
  returns ev ->
  consistent st /\ spaced (limit st) (map fst (invoked st)) ->
  consistent (step st ev) /\ spaced (limit (step st ev)) (map fst (invoked (step st ev)))
  /\ limit (step st ev) = limit st.
Proof.
  unfold consistent. intros Hl Hret [Hc Hs].
  pose proof (limit_le_delay (limit st) Hl) as Hdelay.
  destruct ev as [a c|d]; cbn [step].
  - cbn [returns] in Hret. subst c.
    unfold call. destruct (inThrottle st) eqn:Ein; cbn [negb fst].
    + rewrite Ein. auto.
    + cbn [invoked limit inThrottle unlock now].
      rewrite map_app. cbn [map fst]. rewrite rev_unit.
      split; [split; [lia|reflexivity]|]. split; [|reflexivity].
      apply spaced_snoc; [exact Hs|].
      destruct (rev (map fst (invoked st))); [exact I|]. lia.
  - unfold elapse.
    destruct (unlock st) as [due|] eqn:Eu.
    + destruct (Z.leb_spec due (now st + Z.max 0 d)) as [Hdue|Hdue];
        cbn [invoked limit inThrottle unlock now].
      * split; [|auto].
        destruct (rev (map fst (invoked st))) as [|tl r].
        -- auto.
        -- destruct Hc as [Hpast Hc]. split; [lia|].
           destruct (inThrottle st).
           ++ injection Hc as Hc. split; [reflexivity|lia].
           ++ destruct Hc as [Hc _]. discriminate Hc.
      * split; [|auto].
        destruct (rev (map fst (invoked st))) as [|tl r].
        -- destruct Hc as [_ Hc]. discriminate Hc.
        -- destruct Hc as [Hpast Hc]. split; [lia|].
           destruct (inThrottle st); [exact Hc|].
           destruct Hc as [Hc _]. discriminate Hc.
    + cbn [invoked limit inThrottle unlock now]. split; [|auto].
      destruct (rev (map fst (invoked st))) as [|tl r].
      * destruct Hc as [Hc _]. auto.
      * destruct Hc as [Hpast Hc]. split; [lia|].
        destruct (inThrottle st); [discriminate Hc|].
        split; [reflexivity|lia].
Qed.

Lemma run_consistent (evs : list (Event A)) (st : State A) :
  limit st <= 2147483647 ->
  Forall returns evs ->
  consistent st /\ spaced (limit st) (map fst (invoked st)) ->
  consistent (run evs st)
  /\ spaced (limit st) (map fst (invoked (run evs st))).
Proof.
  unfold run. intros Hl Hret. revert st Hl.
  induction Hret as [|ev evs Hev _ IH]; intros st Hl H; [exact H|].
  cbn [fold_left].
  destruct (step_consistent st ev Hl Hev H) as [H1 [H2 H3]].
  rewrite <- H3. apply IH; [now rewrite H3|]. split; assumption.
Qed.

End ThrottleFacts.



(** X6.  [throttle], with a positive [limit] that fits the 32 bits of a timer
    delay: a call made while [inThrottle] is clear invokes [func] at once
    with its arguments and ends as [func] does.  When [func] returns, a call
    made less than [limit] ms later is dropped and is not made up for later,
    however long one waits.  When [func] throws, [inThrottle] is not set, and
    the next call invokes [func] again, however soon it comes. *)
Theorem throttle_drops_calls_within_limit :
  forall (A : Type) (st : Throttle.State A) (a b : A) (c : JS.Completion)
         (g d : Z),
    Throttle.inThrottle st = false ->
    Throttle.unlock st = None ->
    0 < Throttle.limit st <= 2147483647 ->
    g < Throttle.limit st ->
    (Throttle.invoked (fst (Throttle.call a c st))
     = (Throttle.invoked st ++ [(Throttle.now st, a)])%list
     /\ snd (Throttle.call a c st) = c)
    /\ Throttle.invoked
         (Throttle.run [Throttle.Call a JS.Normal; Throttle.Elapse g;
                        Throttle.Call b c; Throttle.Elapse d] st)
       = (Throttle.invoked st ++ [(Throttle.now st, a)])%list
    /\ (forall e,
          Throttle.invoked
            (Throttle.run [Throttle.Call a (JS.Throw e); Throttle.Elapse g;
                           Throttle.Call b c] st)
          = (Throttle.invoked st
             ++ [(Throttle.now st, a); (Throttle.now st + Z.max 0 g, b)])%list).
Proof.
  intros A st a b c g d Hin Hun Hl Hg.
  pose proof (delayOf_small (Throttle.limit st) ltac:(lia)) as Hdelay.
  split; [|split].
  - unfold Throttle.call. rewrite Hin. cbn [negb].
    destruct c; cbn [fst snd Throttle.invoked]; auto.
  - unfold Throttle.run. cbn [fold_left Throttle.step].
    assert (E1 : fst (Throttle.call a JS.Normal st)
                 = Throttle.mkState (Throttle.limit st) true
                     (Some (Throttle.now st + Throttle.limit st))
                     (Throttle.invoked st ++ [(Throttle.now st, a)])
                     (Throttle.now st)).
    { unfold Throttle.call. rewrite Hin. cbn [negb fst Throttle.limit Throttle.now
                                              Throttle.invoked].
      now rewrite Hdelay. }
    rewrite E1. unfold Throttle.elapse at 2.
    cbn [Throttle.unlock Throttle.now Throttle.limit Throttle.inThrottle Throttle.invoked].
    destruct (Z.leb_spec (Throttle.now st + Throttle.limit st)
                         (Throttle.now st + Z.max 0 g)); [lia|].
    unfold Throttle.call. cbn [Throttle.inThrottle negb fst].
    unfold Throttle.elapse.
    cbn [Throttle.unlock Throttle.now Throttle.limit Throttle.inThrottle Throttle.invoked].
    destruct (_ <=? _); reflexivity.
  - intros e. unfold Throttle.run. cbn [fold_left Throttle.step].
    assert (E1 : fst (Throttle.call a (JS.Throw e) st)
                 = Throttle.mkState (Throttle.limit st) false None
                     (Throttle.invoked st ++ [(Throttle.now st, a)])
                     (Throttle.now st)).
    { unfold Throttle.call. rewrite Hin. cbn [negb fst]. now rewrite Hun. }
    rewrite E1. unfold Throttle.elapse.
    cbn [Throttle.unlock Throttle.now Throttle.limit Throttle.inThrottle Throttle.invoked].
    unfold Throttle.call. cbn [Throttle.inThrottle negb].
    destruct c; cbn [fst Throttle.invoked Throttle.now];
      now rewrite <- app_assoc.
Qed.

Lemma throttle_drops_calls_within_limit_witness :
  Throttle.invoked
    (Throttle.run [Throttle.Call "a" JS.Normal; Throttle.Elapse 99;
                   Throttle.Call "b" JS.Normal; Throttle.Elapse 5000]
                  (Throttle.create 100 0))
  = [(0, "a")]
  /\ Throttle.invoked
       (Throttle.run [Throttle.Call "a" (JS.Throw JS.TypeError); Throttle.Elapse 1;
                      Throttle.Call "b" JS.Normal]
                     (Throttle.create 100 0))
     = [(0, "a"); (1, "b")].
Proof.
  destruct (throttle_drops_calls_within_limit
              string (Throttle.create 100 0) "a" "b" JS.Normal 99 5000
              eq_refl eq_refl ltac:(cbn; lia) ltac:(cbn; lia)) as [_ [H1 _]].
  destruct (throttle_drops_calls_within_limit
              string (Throttle.create 100 0) "a" "b" JS.Normal 1 0
              eq_refl eq_refl ltac:(cbn; lia) ltac:(cbn; lia)) as [_ [_ H2]].
  split; [exact H1 | exact (H2 JS.TypeError)].
Defined.

(** A call exactly [limit] ms after an invocation goes through; a limit of
    2^31 ms does not fit a timer delay and throttles nothing. *)
Example throttle_sample :
  Throttle.invoked
    (Throttle.run [Throttle.Call "a" JS.Normal; Throttle.Elapse 40;
                   Throttle.Call "b" JS.Normal; Throttle.Elapse 60;
                   Throttle.Call "c" JS.Normal; Throttle.Call "d" JS.Normal]
                  (Throttle.create 100 0))
  = [(0, "a"); (100, "c")]
  /\ Throttle.invoked
       (Throttle.run [Throttle.Call "a" JS.Normal; Throttle.Elapse 100;
                      Throttle.Call "b" JS.Normal]
                     (Throttle.create 2147483648 0))
     = [(0, "a"); (100, "b")].
Proof. split; reflexivity. Qed.

(** ** More on class lists *)

Lemma remove_idempotent (cl : DOMTokenList.t) (tok : string) :
  DOMTokenList.remove (DOMTokenList.remove cl tok) tok = DOMTokenList.remove cl tok.
Proof.
  unfold DOMTokenList.remove. induction cl as [|c cl IH]; [reflexivity|].
  cbn [filter]. destruct (String.eqb tok c) eqn:E; cbn [negb filter]; [exact IH|].
  rewrite E. cbn [negb]. now rewrite IH.
Qed.

Lemma remove_append_self (cl : DOMTokenList.t) (tok : string) :
  DOMTokenList.remove (cl ++ [tok])%list tok = DOMTokenList.remove cl tok.
Proof.
  unfold DOMTokenList.remove. rewrite filter_app. cbn [filter].
  rewrite String.eqb_refl. cbn [negb]. apply app_nil_r.
Qed.

Lemma remove_add (cl : DOMTokenList.t) (tok : string) :
  DOMTokenList.remove (DOMTokenList.add cl tok) tok = DOMTokenList.remove cl tok.
Proof.
  unfold DOMTokenList.add. destruct (DOMTokenList.contains cl tok); [reflexivity|].
  apply remove_append_self.
Qed.

Lemma contains_remove_other (cl : DOMTokenList.t) (tok other : string) :
  other <> tok ->
  DOMTokenList.contains (DOMTokenList.remove cl tok) other
  = DOMTokenList.contains cl other.
Proof.
  intros Hne. unfold DOMTokenList.contains, DOMTokenList.remove.
  induction cl as [|c cl IH]; [reflexivity|]. cbn [filter existsb].
  destruct (String.eqb tok c) eqn:E; cbn [negb existsb].
  - apply String.eqb_eq in E. subst c.
    replace (String.eqb other tok) with false
      by (symmetry; now apply String.eqb_neq).
    exact IH.
  - now rewrite IH.
Qed.

Lemma contains_append_other (cl : DOMTokenList.t) (tok other : string) :
  other <> tok ->
  DOMTokenList.contains (cl ++ [tok])%list other = DOMTokenList.contains cl other.
Proof.
  intros Hne. unfold DOMTokenList.contains. rewrite existsb_app. cbn [existsb].
  replace (String.eqb other tok) with false by (symmetry; now apply String.eqb_neq).
  now rewrite !orb_false_r.
Qed.

Lemma contains_add_other (cl : DOMTokenList.t) (tok other : string) :
  other <> tok ->
  DOMTokenList.contains (DOMTokenList.add cl tok) other
  = DOMTokenList.contains cl other.
Proof.
  intros Hne. unfold DOMTokenList.add.
  destruct (DOMTokenList.contains cl tok); [reflexivity|].
  now apply contains_append_other.
Qed.

Lemma contains_toggle (cl : DOMTokenList.t) (tok : string) :
  DOMTokenList.contains (DOMTokenList.toggle cl tok) tok
  = negb (DOMTokenList.contains cl tok).
Proof.
  unfold DOMTokenList.toggle. destruct (DOMTokenList.contains cl tok) eqn:E.
  - apply contains_remove.
  - apply contains_append_self.
Qed.

Lemma contains_toggle_other (cl : DOMTokenList.t) (tok other : string) :
  other <> tok ->
  DOMTokenList.contains (DOMTokenList.toggle cl tok) other
  = DOMTokenList.contains cl other.
Proof.
  intros Hne. unfold DOMTokenList.toggle.
  destruct (DOMTokenList.contains cl tok).
  - now apply contains_remove_other.
  - now apply contains_append_other.
Qed.

(** ** More on the active navigation link *)

Section NavMore.
Import Nav.

Lemma markLink_idempotent (current : option string) (l : Link) :
  markLink current (fst (markLink current l)) = markLink current l.
Proof.
  unfold markLink. cbn [href classList].
  destruct (href l) as [h|]; cbn [fst href classList].
  - destruct (JS.includes h (JS.ToString current)) eqn:E;
      cbn [fst href classList]; rewrite E.
    + now rewrite remove_add, remove_idempotent.
    + now rewrite remove_idempotent.
  - now rewrite remove_idempotent.
Qed.

Lemma forEach_idempotent {X : Type} (f : X -> X * JS.Completion) (l : list X) :
  (forall x, f (fst (f x)) = f x) ->
  JS.forEach f (fst (JS.forEach f l)) = JS.forEach f l.
Proof.
  intros Hf. induction l as [|x l IH]; [reflexivity|].
  cbn [JS.forEach]. specialize (Hf x).
  destruct (f x) as [x' [|e]] eqn:Ex; cbn [fst] in Hf.
  - destruct (JS.forEach f l) as [l' c] eqn:El. cbn [fst JS.forEach] in *.
    now rewrite Hf, IH.
  - cbn [fst JS.forEach]. now rewrite Hf.
Qed.

(** What the loop does to the list: each link is left as it was or is the
    result of the callback on it. *)
Lemma forEach_pointwise {X : Type} (f : X -> X * JS.Completion) (l : list X) :
  Forall2 (fun x x' => x' = x \/ x' = fst (f x)) l (fst (JS.forEach f l)).
Proof.
  induction l as [|x l IH]; [constructor|].
  cbn [JS.forEach].
  destruct (f x) as [x' [|e]] eqn:Ex.
  - destruct (JS.forEach f l) as [l' c]. cbn [fst] in *.
    constructor; [right; now rewrite Ex | exact IH].
  - cbn [fst]. constructor; [right; now rewrite Ex|].
    clear. induction l; constructor; auto.
Qed.

Lemma markLink_keeps (current : option string) (l : Link) (tok : string) :
  tok <> "active" ->
  href (fst (markLink current l)) = href l
  /\ DOMTokenList.contains (classList (fst (markLink current l))) tok
     = DOMTokenList.contains (classList l) tok.
Proof.
  intros Hne. unfold markLink. cbn [href classList].
  destruct (href l) as [h|]; cbn [fst href classList].
  - destruct (JS.includes h (JS.ToString current)); cbn [fst href classList].
    + split; [reflexivity|].
      rewrite contains_add_other by exact Hne. now apply contains_remove_other.
    + split; [reflexivity|]. now apply contains_remove_other.
  - split; [reflexivity|]. now apply contains_remove_other.
Qed.

(** The loop stops at the first link without an [href]. *)
Lemma forEach_markLink_throws (current : option string)
      (pre post : list Link) (l : Link) :
  Forall (fun x => href x <> None) pre ->
  href l = None ->
  JS.forEach (markLink current) (pre ++ l :: post)
  = ((map (fun x => fst (markLink current x)) pre
      ++ mkLink None (DOMTokenList.remove (classList l) "active") :: post)%list,
     JS.Throw JS.TypeError).
Proof.
  intros Hpre Hl. induction Hpre as [|x pre Hx _ IH]; cbn [app map JS.forEach].
  - unfold markLink. cbn [href]. now rewrite Hl.
  - destruct (href x) as [h|] eqn:Hh; [|contradiction].
    destruct (markLink_href current x h Hh) as [Hn _].
    destruct (markLink current x) as [x' c]. cbn [fst snd] in *. subst c.
    now rewrite IH.
Qed.

Lemma Qle_bool_inject (a b : Z) :
  Qle_bool (inject_Z a) (inject_Z b) = (a <=? b).
Proof.
  destruct (Z.leb_spec a b) as [H|H].
  - apply Qle_bool_iff. now rewrite <- Zle_Qle.
  - destruct (Qle_bool (inject_Z a) (inject_Z b)) eqn:E; [|reflexivity].
    apply Qle_bool_iff in E. rewrite <- Zle_Qle in E. lia.
Qed.

Lemma find_none_iff {X : Type} (p : X -> bool) (l : list X) :
  find p l = None <-> Forall (fun x => p x = false) l.
Proof.
  induction l as [|x l IH]; cbn [find].
  - split; auto.
  - destruct (p x) eqn:E.
    + split; [discriminate|]. intros H. inversion H. congruence.
    + rewrite IH. split; intros H; [now constructor|now inversion H].
Qed.

(** The scan picks the section before the first one that is not reached,
    when all sections after that one are not reached either. *)
Lemma scanSections_split (scrollY : Q) (pre post : list Section) (s : Section) :
  reached scrollY s = true ->
  Forall (fun x => reached scrollY x = false) post ->
  scanSections scrollY (pre ++ s :: post) = id s.
Proof.
  intros Hs Hpost. rewrite scanSections_last_reached.
  rewrite rev_app_distr. cbn [rev]. rewrite <- app_assoc. cbn [app].
  rewrite find_app.
  replace (find (reached scrollY) (rev post)) with (@None Section).
  - cbn [find]. now rewrite Hs.
  - symmetry. apply find_none_iff. apply Forall_rev. exact Hpost.
Qed.

End NavMore.

Lemma updateActiveNav_idempotent_lemma (scrollY : Q)
      (sections : list Nav.Section) (links : list Nav.Link) :
  Nav.updateActiveNav scrollY sections
    (fst (Nav.updateActiveNav scrollY sections links))
  = Nav.updateActiveNav scrollY sections links.
Proof.
  unfold Nav.updateActiveNav.
  apply forEach_idempotent. apply markLink_idempotent.
Qed.

(** X7.  [updateActiveNav] is idempotent: run again at the same scroll
    offset, on the links it left, it gives the same links and ends the same
    way (the second invocation that the scroll listeners make changes
    nothing), whether or not some link lacks an [href]. *)
Theorem updateActiveNav_idempotent :
  forall (scrollY : Q) (sections : list Nav.Section) (links : list Nav.Link),
    Nav.updateActiveNav scrollY sections
      (fst (Nav.updateActiveNav scrollY sections links))
    = Nav.updateActiveNav scrollY sections links.
Proof.
  intros scrollY sections links. apply updateActiveNav_idempotent_lemma.
Qed.

(** X8.  [updateActiveNav] touches nothing but the [active] class: it keeps
    the number and order of the links, the [href] of each, and for every
    other class name whether the link carries it, also when it throws. *)
Theorem updateActiveNav_touches_only_active :
  forall (scrollY : Q) (sections : list Nav.Section) (links : list Nav.Link)
         (tok : string),
    tok <> "active" ->
    let links' := fst (Nav.updateActiveNav scrollY sections links) in
    map Nav.href links' = map Nav.href links
    /\ map (fun l => DOMTokenList.contains (Nav.classList l) tok) links'
       = map (fun l => DOMTokenList.contains (Nav.classList l) tok) links.
Proof.
  intros scrollY sections links tok Hne links'. unfold links', Nav.updateActiveNav.
  pose proof (forEach_pointwise
                (Nav.markLink (Nav.scanSections scrollY sections)) links) as H.
  induction H as [|x x' l l' Hx _ IH]; [split; reflexivity|].
  destruct IH as [IH1 IH2]. cbn [map].
  destruct (markLink_keeps (Nav.scanSections scrollY sections) x tok Hne) as [K1 K2].
  destruct Hx as [->| ->].
  - now rewrite IH1, IH2.
  - now rewrite IH1, IH2, K1, K2.
Qed.

Lemma updateActiveNav_touches_only_active_witness :
  map (fun l => DOMTokenList.contains (Nav.classList l) "nav-link")
      (fst (Nav.updateActiveNav (1200 # 1) Sample.sections Sample.links))
  = [true; true; true].
Proof.
  exact (proj2 (updateActiveNav_touches_only_active
                  (1200 # 1) Sample.sections Sample.links "nav-link"
                  ltac:(discriminate))).
Defined.

(** X9.  A navigation link without an [href] makes [updateActiveNav] throw a
    TypeError when the loop gets to it: the links before it are marked as
    usual, the link itself has lost the [active] class, and the links after
    it are left as they were, a stale [active] class included. *)
Theorem updateActiveNav_throws_at_link_without_href :
  forall (scrollY : Q) (sections : list Nav.Section)
         (pre post : list Nav.Link) (l : Nav.Link),
    Forall (fun x => Nav.href x <> None) pre ->
    Nav.href l = None ->
    Nav.updateActiveNav scrollY sections (pre ++ l :: post)
    = ((fst (Nav.updateActiveNav scrollY sections pre)
        ++ Nav.mkLink None (DOMTokenList.remove (Nav.classList l) "active")
        :: post)%list,
       JS.Throw JS.TypeError).
Proof.
  intros scrollY sections pre post l Hpre Hl. unfold Nav.updateActiveNav.
  rewrite (forEach_markLink_throws _ pre post l Hpre Hl).
  now rewrite (forEach_markLink _ pre Hpre).
Qed.

Lemma updateActiveNav_throws_at_link_without_href_witness :
  Nav.updateActiveNav (1200 # 1) Sample.sections
    (Sample.links ++ Nav.mkLink None ["logo"; "active"]
       :: [Nav.mkLink (Some "#about") ["active"]])
  = ([Nav.mkLink (Some "#about") ["nav-link"];
      Nav.mkLink (Some "#skills") ["nav-link"; "active"];
      Nav.mkLink (Some "#contact") ["nav-link"];
      Nav.mkLink None ["logo"];
      Nav.mkLink (Some "#about") ["active"]],
     JS.Throw JS.TypeError).
Proof.
  exact (updateActiveNav_throws_at_link_without_href
           (1200 # 1) Sample.sections Sample.links
           [Nav.mkLink (Some "#about") ["active"]]
           (Nav.mkLink None ["logo"; "active"])
           ltac:(repeat constructor; discriminate) eq_refl).
Defined.

Lemma scan_sorted_in_view (scrollY : Q) (pre post : list Nav.Section)
      (s : Nav.Section) :
  StronglySorted (fun a b => Nav.offsetTop a <= Nav.offsetTop b)
                 (pre ++ s :: post) ->
  (inject_Z (Nav.offsetTop s - 200) <= scrollY)%Q ->
  (forall nxt, hd_error post = Some nxt ->
               (scrollY < inject_Z (Nav.offsetTop nxt - 200))%Q) ->
  Nav.scanSections scrollY (pre ++ s :: post) = Nav.id s.
Proof.
  intros Hsorted Hs Hnext.
  apply scanSections_split; [now apply Qle_bool_iff|].
  assert (Hpost : StronglySorted (fun a b => Nav.offsetTop a <= Nav.offsetTop b) post).
  { clear Hs Hnext. induction pre as [|x pre IH]; cbn [app] in Hsorted.
    - now inversion Hsorted.
    - apply IH. now inversion Hsorted. }
  destruct post as [|nxt post]; [constructor|].
  specialize (Hnext nxt eq_refl).
  assert (Hall : Forall (fun x => Nav.offsetTop nxt <= Nav.offsetTop x) (nxt :: post)).
  { constructor; [lia|]. now inversion Hpost. }
  eapply Forall_impl; [|exact Hall]. cbn beta. intros x Hx.
  unfold Nav.reached.
  destruct (Qle_bool (inject_Z (Nav.offsetTop x - 200)) scrollY) eqn:E; [|reflexivity].
  apply Qle_bool_iff in E. exfalso.
  apply (Qlt_irrefl scrollY).
  eapply Qlt_le_trans; [exact Hnext|].
  eapply Qle_trans; [|exact E].
  rewrite <- Zle_Qle. lia.
Qed.

(** X10.  With the sections in ascending order of [offsetTop], the scan
    yields the id of the section in view: the section [s] with
    [offsetTop s - 200 <= scrollY] whose successor, if it has one, has
    [scrollY < offsetTop - 200]. *)
Theorem scanSections_picks_the_section_in_view :
  forall (scrollY : Q) (pre post : list Nav.Section) (s : Nav.Section),
    StronglySorted (fun a b => Nav.offsetTop a <= Nav.offsetTop b)
                   (pre ++ s :: post) ->
    (inject_Z (Nav.offsetTop s - 200) <= scrollY)%Q ->
    (forall nxt, hd_error post = Some nxt ->
                 (scrollY < inject_Z (Nav.offsetTop nxt - 200))%Q) ->
    Nav.scanSections scrollY (pre ++ s :: post) = Nav.id s.
Proof. intros scrollY pre post s. apply scan_sorted_in_view. Qed.

Lemma scanSections_picks_the_section_in_view_witness :
  Nav.scanSections (1099 # 1) Sample.sections = Some "about".
Proof.
  exact (scanSections_picks_the_section_in_view
           (1099 # 1) [] [Nav.mkSection 1300 900 (Some "skills");
                          Nav.mkSection 2200 800 (Some "contact")]
           (Nav.mkSection 600 700 (Some "about"))
           ltac:(repeat constructor; cbn; lia)
           ltac:(cbn; discriminate)
           ltac:(intros nxt H; injection H as <-; reflexivity)).
Defined.

(** X11.  When every link has an [href], the number of links that carry
    [active] after [updateActiveNav] is the number of links whose [href]
    contains the identifier kept by the scan: one link is highlighted exactly
    when one [href] contains it. *)
Theorem updateActiveNav_counts_matching_hrefs :
  forall (scrollY : Q) (sections : list Nav.Section) (links : list Nav.Link),
    Forall (fun l => Nav.href l <> None) links ->
    Nav.activeCount (fst (Nav.updateActiveNav scrollY sections links))
    = List.length
        (filter (fun l => JS.includes (JS.ToString (Nav.href l))
                            (JS.ToString (Nav.scanSections scrollY sections)))
                links).
Proof.
  intros scrollY sections links Hall. unfold Nav.updateActiveNav, Nav.activeCount.
  rewrite (forEach_markLink _ links Hall). cbn [fst].
  induction Hall as [|l links Hl _ IH]; [reflexivity|].
  cbn [map filter].
  destruct (Nav.href l) as [h|] eqn:Hh; [|contradiction].
  destruct (markLink_href (Nav.scanSections scrollY sections) l h Hh) as [_ [_ Hact]].
  rewrite Hact. cbn [JS.ToString].
  destruct (JS.includes h _); cbn [List.length]; now rewrite IH.
Qed.

Lemma updateActiveNav_counts_matching_hrefs_witness :
  Nav.activeCount (fst (Nav.updateActiveNav (1200 # 1) Sample.sections Sample.links))
  = 1%nat.
Proof.
  exact (updateActiveNav_counts_matching_hrefs
           (1200 # 1) Sample.sections Sample.links
           ltac:(repeat constructor; discriminate)).
Defined.

(** ** More on the skill bars *)

Section SkillMore.
Import Skills.

Lemma checks_app (l1 l2 : list Layout) (b : Bar) :
  checks (l1 ++ l2) b = checks l2 (checks l1 b).
Proof. unfold checks. apply fold_left_app. Qed.

(** A layout in which the bar does not fit the viewport leaves it as it is,
    up to the rectangle. *)
Lemma check_not_visible (l : Layout) (b : Bar) :
  isVisible (innerHeight l) (relayout (top l) (bottom l) b) = false ->
  animateBar (innerHeight l) (relayout (top l) (bottom l) b)
  = relayout (top l) (bottom l) b.
Proof. intros H. unfold animateBar. now rewrite H. Qed.

Lemma checks_never_visible (layouts : list Layout) (b : Bar) :
  Forall (fun l => isVisible (innerHeight l) (relayout (top l) (bottom l) b) = false)
         layouts ->
  classList (checks layouts b) = classList b
  /\ style_width (checks layouts b) = style_width b
  /\ data_progress (checks layouts b) = data_progress b.
Proof.
  unfold checks. revert b. induction layouts as [|l layouts IH]; intros b H.
  - cbn. auto.
  - inversion H as [|x y Hl Hrest]; subst. cbn [fold_left].
    rewrite (check_not_visible l b Hl).
    destruct (IH (relayout (top l) (bottom l) b)) as [H1 [H2 H3]]; [|auto].
    eapply Forall_impl; [|exact Hrest]. cbn beta. intros a Ha. exact Ha.
Qed.

Lemma isVisible_fits (ih : Z) (b : Bar) :
  isVisible ih b = true ->
  (rect_bottom b - rect_top b <= inject_Z ih)%Q.
Proof.
  unfold isVisible. intros H. apply andb_true_iff in H as [H1 H2].
  apply Qle_bool_iff in H1, H2.
  apply Qle_trans with (y := (rect_bottom b - 0)%Q).
  - apply Qplus_le_compat; [apply Qle_refl|]. now apply Qopp_le_compat.
  - unfold Qminus. setoid_replace (- 0)%Q with 0%Q by reflexivity.
    now rewrite Qplus_0_r.
Qed.

End SkillMore.

(** X12.  A skill bar that is taller than the viewport in every layout it is
    checked under is never animated: it gets neither the [animated] class nor
    a width, however often [animateSkills] runs. *)
Theorem animateSkills_never_animates_a_bar_taller_than_the_viewport :
  forall (layouts : list Skills.Layout) (b : Skills.Bar),
    Skills.animated b = false ->
    Forall (fun l => (inject_Z (Skills.innerHeight l)
                      < Skills.bottom l - Skills.top l)%Q) layouts ->
    Skills.animated (Skills.checks layouts b) = false
    /\ Skills.style_width (Skills.checks layouts b) = Skills.style_width b.
Proof.
  intros layouts b Hb Htall.
  destruct (checks_never_visible layouts b) as [H1 [H2 _]].
  - eapply Forall_impl; [|exact Htall]. cbn beta. intros l Hl.
    destruct (Skills.isVisible (Skills.innerHeight l)
                (Skills.relayout (Skills.top l) (Skills.bottom l) b)) eqn:E;
      [|reflexivity].
    apply isVisible_fits in E. cbn [Skills.relayout Skills.rect_bottom Skills.rect_top] in E.
    exfalso. apply (Qlt_irrefl (inject_Z (Skills.innerHeight l))).
    eapply Qlt_le_trans; [exact Hl | exact E].
  - unfold Skills.animated. rewrite H1. split; [exact Hb | exact H2].
Qed.

Lemma animateSkills_never_animates_a_bar_taller_than_the_viewport_witness :
  Skills.animated
    (Skills.checks [Skills.mkLayout 600 (-100 # 1) (700 # 1);
                    Skills.mkLayout 600 (0 # 1) (800 # 1)] Sample.freshBar)
  = false.
Proof.
  exact (proj1 (animateSkills_never_animates_a_bar_taller_than_the_viewport
                  [Skills.mkLayout 600 (-100 # 1) (700 # 1);
                   Skills.mkLayout 600 (0 # 1) (800 # 1)] Sample.freshBar
                  eq_refl ltac:(repeat constructor))).
Defined.

(** X13.  A bar that is not animated and whose [data-progress] is a plain
    non-negative whole number [p] gets animated by the first check that finds
    it wholly inside the viewport: from then on it carries the [animated]
    class and its width is [p%], whatever the later layouts are.  (For such a
    [p] the text [p%] is a width the element accepts and keeps as written.) *)
Theorem animateSkills_animates_at_first_full_view :
  forall (before after : list Skills.Layout) (l : Skills.Layout) (b : Skills.Bar)
         (p : string),
    Skills.animated b = false ->
    Skills.data_progress b = Some p ->
    Progress.plainNumber p = true ->
    Forall (fun x => Skills.isVisible (Skills.innerHeight x)
                       (Skills.relayout (Skills.top x) (Skills.bottom x) b) = false)
           before ->
    Skills.isVisible (Skills.innerHeight l)
      (Skills.relayout (Skills.top l) (Skills.bottom l) b) = true ->
    let b' := Skills.checks (before ++ l :: after) b in
    Skills.animated b' = true
    /\ Skills.style_width b' = p ++ "%".
Proof.
  intros before after l b p Hb Hp _ Hbefore Hl b'. unfold b'.
  rewrite checks_app.
  destruct (checks_never_visible before b Hbefore) as [H1 [H2 H3]].
  set (b1 := Skills.checks before b) in *.
  change (Skills.checks (l :: after) b1)
    with (Skills.checks after
            (Skills.animateBar (Skills.innerHeight l)
               (Skills.relayout (Skills.top l) (Skills.bottom l) b1))).
  set (b2 := Skills.animateBar (Skills.innerHeight l)
               (Skills.relayout (Skills.top l) (Skills.bottom l) b1)).
  assert (E : b2 = Skills.mkBar (Skills.data_progress b) (Skills.top l) (Skills.bottom l)
                     (DOMTokenList.add (Skills.classList b) "animated")
                     (JS.ToString (Skills.data_progress b) ++ "%")).
  { unfold b2, Skills.animateBar.
    replace (Skills.isVisible (Skills.innerHeight l)
               (Skills.relayout (Skills.top l) (Skills.bottom l) b1)) with true
      by (symmetry; exact Hl).
    cbn [Skills.relayout Skills.classList Skills.data_progress
         Skills.rect_top Skills.rect_bottom].
    rewrite H1, H3. unfold Skills.animated in Hb. rewrite Hb. reflexivity. }
  assert (Ha : Skills.animated b2 = true).
  { rewrite E. unfold Skills.animated. cbn [Skills.classList]. apply contains_add. }
  destruct (checks_animated after b2 Ha) as [K1 [K2 _]].
  unfold Skills.animated in *. rewrite K2, K1. split; [exact Ha|].
  rewrite E. cbn [Skills.style_width]. now rewrite Hp.
Qed.

Lemma animateSkills_animates_at_first_full_view_witness :
  Skills.style_width
    (Skills.checks
       ([Skills.mkLayout 800 (900 # 1) (920 # 1)]
        ++ Skills.mkLayout 800 (400 # 1) (420 # 1)
        :: [Skills.mkLayout 800 (-50 # 1) (-30 # 1)]) Sample.freshBar)
  = "65%".
Proof.
  exact (proj2 (animateSkills_animates_at_first_full_view
                  [Skills.mkLayout 800 (900 # 1) (920 # 1)]
                  [Skills.mkLayout 800 (-50 # 1) (-30 # 1)]
                  (Skills.mkLayout 800 (400 # 1) (420 # 1)) Sample.freshBar "65"
                  eq_refl eq_refl eq_refl ltac:(repeat constructor) eq_refl)).
Defined.

(** Which values of [data-progress] are plain numbers. *)
Example plainNumber_samples :
  map Progress.plainNumber ["0"; "7"; "80"; "100"; ""; "080"; "-5"; "8.5"; "null"; "80%"]
  = [true; true; true; true; false; false; false; false; false; false].
Proof. reflexivity. Qed.

(** ** More on the carousel *)

Section CarouselMore.
Import Carousel.
Import Gallery.

Lemma flags_cleared (imgs : list Img) :
  flagsOf (map deactivate imgs) = map (fun _ => false) imgs.
Proof.
  unfold flagsOf. rewrite map_map. apply map_ext. intros img.
  unfold deactivate. cbn [classList]. apply contains_remove.
Qed.

Lemma const_map_seq {X : Type} (l : list X) (off : nat) :
  map (fun _ => false) l = map (fun _ : nat => false) (seq off (List.length l)).
Proof.
  revert off. induction l as [|x l IH]; intros off; [reflexivity|].
  cbn [map List.length seq]. f_equal. apply IH.
Qed.

Lemma flags_one (imgs : list Img) (k off : nat) :
  flagsOf (updateAt k activate (map deactivate imgs))
  = map (fun j => Nat.eqb j (off + k)) (seq off (List.length imgs)).
Proof.
  revert k off. induction imgs as [|img imgs IH]; intros k off.
  - destruct k; reflexivity.
  - cbn [map List.length seq]. destruct k as [|k]; cbn [updateAt].
    + unfold flagsOf. cbn [map]. fold (flagsOf (map deactivate imgs)).
      unfold activate, deactivate at 1. cbn [classList]. rewrite contains_add.
      rewrite Nat.add_0_r, Nat.eqb_refl. f_equal.
      rewrite flags_cleared, (const_map_seq imgs (S off)).
      apply map_ext_in. intros j Hj. apply in_seq in Hj.
      symmetry. apply Nat.eqb_neq. lia.
    + unfold flagsOf. cbn [map].
      fold (flagsOf (updateAt k activate (map deactivate imgs))).
      unfold deactivate at 1. cbn [classList]. rewrite contains_remove.
      replace (off =? off + S k)%nat with false by (symmetry; apply Nat.eqb_neq; lia).
      f_equal. rewrite (IH k (S off)).
      apply map_ext. intros j. f_equal. lia.
Qed.

Lemma showImage_in_range (imgs : list Img) (index : Z) :
  0 <= index < Z.of_nat (List.length imgs) ->
  snd (showImage imgs index) = JS.Normal
  /\ flagsOf (fst (showImage imgs index)) = onehot (List.length imgs) index.
Proof.
  intros [Hlo Hhi]. unfold showImage.
  apply Z.leb_le in Hlo. apply Z.ltb_lt in Hhi. rewrite Hlo, Hhi. cbn [andb fst snd].
  split; [reflexivity|]. rewrite (flags_one imgs (Z.to_nat index) 0).
  unfold onehot. apply map_ext. intros j. cbn [Nat.add].
  apply Z.leb_le in Hlo.
  destruct (Nat.eqb_spec j (Z.to_nat index)) as [->|Hne].
  - symmetry. apply Z.eqb_eq. lia.
  - symmetry. apply Z.eqb_neq. lia.
Qed.

Lemma showImage_out_of_range (imgs : list Img) (index : Z) :
  ~ (0 <= index < Z.of_nat (List.length imgs)) ->
  snd (showImage imgs index) = JS.Throw JS.TypeError
  /\ flagsOf (fst (showImage imgs index)) = map (fun _ => false) imgs.
Proof.
  intros Hout. unfold showImage.
  destruct ((0 <=? index) && (index <? Z.of_nat (List.length imgs))) eqn:E.
  - apply andb_true_iff in E as [H1 H2].
    apply Z.leb_le in H1. apply Z.ltb_lt in H2. lia.
  - cbn [fst snd]. split; [reflexivity|]. apply flags_cleared.
Qed.

(** One delivery of an event whose callback is installed: the index moves
    and the image at the new index is the one displayed. *)
Lemma deliver_displays (ev : Event) (card : Card) (cl : Closure) :
  inRange card cl ->
  has cl OnPrevClick = true -> has cl OnNextClick = true ->
  has cl (SetInterval 5000) = true ->
  displayed (fst (deliver ev (card, Some cl)))
  = onehot (List.length (images card)) (target ev (length card) cl).
Proof.
  intros [HN Hi] Hp Hn Ht.
  assert (Bp : 0 <= (currentImageIndex cl - 1 + length card) mod length card
               < length card) by (apply Z.mod_pos_bound; lia).
  assert (Bn : 0 <= (currentImageIndex cl + 1) mod length card < length card)
    by (apply Z.mod_pos_bound; lia).
  unfold target. rewrite Hp, Hn, Ht.
  destruct ev; cbn [deliver]; rewrite ?Hp, ?Hn, ?Ht;
    unfold prevClick, nextClick, autoRotate; rewrite rem_is_mod by lia;
    unfold show.
  - destruct (showImage_in_range (images card) _ Bp) as [_ H].
    destruct (showImage (images card) _) as [imgs c]. cbn [fst] in *. exact H.
  - destruct (showImage_in_range (images card) _ Bn) as [_ H].
    destruct (showImage (images card) _) as [imgs c]. cbn [fst] in *. exact H.
  - destruct (showImage_in_range (images card) _ Bn) as [_ H].
    destruct (showImage (images card) _) as [imgs c]. cbn [fst] in *. exact H.
Qed.

Lemma has_installed (cl cl' : Closure) (r : Registration) :
  installed cl' = installed cl -> has cl' r = has cl r.
Proof. unfold has. now intros ->. Qed.

(** Where a run of events takes the index, every callback installed. *)
Lemma run_net (evs : list Event) (card : Card) (cl : Closure) :
  inRange card cl ->
  has cl OnPrevClick = true -> has cl OnNextClick = true ->
  has cl (SetInterval 5000) = true ->
  indexOf (run evs (card, Some cl))
  = Some ((currentImageIndex cl + net evs) mod length card).
Proof.
  revert card cl. induction evs as [|ev evs IH]; intros card cl Hin Hp Hn Ht.
  - cbn. destruct Hin as [HN Hi]. rewrite Z.add_0_r.
    now rewrite Z.mod_small by lia.
  - unfold run. cbn [fold_left]. fold (run evs (deliver ev (card, Some cl))).
    destruct (deliver_in_range ev card cl Hin)
      as [card' [cl' [E [H1 [_ [_ [H4 [H5 H6]]]]]]]].
    rewrite E, (IH card' cl' H6); try (rewrite (has_installed cl cl' _ H4); assumption).
    rewrite H1, H5. f_equal. unfold target. rewrite Hp, Hn, Ht.
    destruct Hin as [HN _].
    destruct ev; cbn [net fold_right]; fold (net evs);
      rewrite Zplus_mod_idemp_l.
    + replace (currentImageIndex cl - 1 + length card + net evs)
        with (currentImageIndex cl + (net evs - 1) + 1 * length card) by lia.
      apply Z_mod_plus_full.
    + f_equal. lia.
    + f_equal. lia.
Qed.

End CarouselMore.

(** X14.  [showImage(index)]: on an index in range it ends normally and
    leaves the [active] class on the image at that index and on no other,
    whatever the classes were before; on any other index it throws a
    TypeError after it has taken the class from every image. *)
Theorem showImage_displays_exactly_one_image :
  forall (imgs : list Carousel.Img) (index : Z),
    (0 <= index < Z.of_nat (List.length imgs) ->
     snd (Carousel.showImage imgs index) = JS.Normal
     /\ Gallery.flagsOf (fst (Carousel.showImage imgs index))
        = Gallery.onehot (List.length imgs) index)
    /\ (~ (0 <= index < Z.of_nat (List.length imgs)) ->
        snd (Carousel.showImage imgs index) = JS.Throw JS.TypeError
        /\ Gallery.flagsOf (fst (Carousel.showImage imgs index))
           = map (fun _ => false) imgs).
Proof.
  intros imgs index. split.
  - apply showImage_in_range.
  - apply showImage_out_of_range.
Qed.

Lemma showImage_displays_exactly_one_image_witness :
  Gallery.flagsOf (fst (Carousel.showImage (Carousel.images Sample.card4) 2))
  = [false; false; true; false]
  /\ snd (Carousel.showImage (Carousel.images Sample.card4) 4)
     = JS.Throw JS.TypeError.
Proof.
  destruct (showImage_displays_exactly_one_image (Carousel.images Sample.card4) 2)
    as [Hin _].
  destruct (showImage_displays_exactly_one_image (Carousel.images Sample.card4) 4)
    as [_ Hout].
  split.
  - exact (proj2 (Hin ltac:(cbn; lia))).
  - exact (proj1 (Hout ltac:(cbn; lia))).
Defined.

(** X15.  On a card that was set up with both controls, clicks and timer
    firings may come in any order: after a run of events the index is the
    index before plus the number of next clicks and timer firings minus the
    number of previous clicks, modulo the number of images (so a click on
    next undoes a click on previous, and as many forward steps as there are
    images lead back), and after at least one event the image at that index is
    the only one displayed. *)
Theorem carousel_events_add_up :
  forall (card : Carousel.Card) (cl : Carousel.Closure)
         (evs : list Carousel.Event),
    Carousel.inRange card cl ->
    Carousel.has cl Carousel.OnPrevClick = true ->
    Carousel.has cl Carousel.OnNextClick = true ->
    Carousel.has cl (Carousel.SetInterval 5000) = true ->
    let N := Carousel.length card in
    let index := (Carousel.currentImageIndex cl + Gallery.net evs) mod N in
    Carousel.indexOf (Carousel.run evs (card, Some cl)) = Some index
    /\ (evs <> [] ->
        Carousel.displayed (fst (Carousel.run evs (card, Some cl)))
        = Gallery.onehot (List.length (Carousel.images card)) index).
Proof.
  intros card cl evs Hin Hp Hn Ht N index.
  pose proof (run_net evs card cl Hin Hp Hn Ht) as Hidx.
  split; [exact Hidx|]. intros Hne.
  destruct (exists_last Hne) as [evs' [ev E]]. subst evs.
  unfold Carousel.run in *. rewrite fold_left_app in *. cbn [fold_left] in *.
  destruct (run_in_range evs' card cl Hin) as [card' [cl' [E' [H1 [H2 H3]]]]].
  unfold Carousel.run in E'. rewrite E' in *.
  rewrite (deliver_displays ev card' cl' H3);
    try (rewrite (has_installed cl cl' _ H2); assumption).
  destruct (deliver_in_range ev card' cl' H3)
    as [card2 [cl2 [E2 [_ [_ [_ [_ [K5 _]]]]]]]].
  rewrite E2 in Hidx. unfold Carousel.indexOf in Hidx. cbn [snd option_map] in Hidx.
  injection Hidx as Hidx. rewrite <- K5, Hidx.
  f_equal. unfold Carousel.length in H1. lia.
Qed.

Lemma carousel_events_add_up_witness :
  Carousel.indexOf
    (Carousel.run [Carousel.ClickPrev; Carousel.IntervalElapsed;
                   Carousel.ClickPrev; Carousel.ClickNext; Carousel.ClickPrev]
                  (Carousel.setup Sample.card4))
  = Some 3.
Proof.
  exact (proj1 (carousel_events_add_up
                  Sample.card4
                  (Carousel.mkClosure 0 [Carousel.OnPrevClick; Carousel.OnNextClick;
                                         Carousel.SetInterval 5000])
                  [Carousel.ClickPrev; Carousel.IntervalElapsed;
                   Carousel.ClickPrev; Carousel.ClickNext; Carousel.ClickPrev]
                  ltac:(unfold Carousel.inRange; cbn; lia)
                  eq_refl eq_refl eq_refl)).
Defined.

(** ** What [init] installs for the carousels *)

Section InstallFacts.
Import Init.
Import Gallery.

Lemma intervals_none (l : list Installed) :
  Forall (fun x => match x with SetInterval _ _ _ => False | _ => True end) l ->
  intervals l = [].
Proof.
  unfold intervals. induction 1 as [|x l Hx _ IH]; [reflexivity|].
  cbn [filter]. destruct x; cbn; auto. contradiction.
Qed.

Lemma forIndices_Forall (P : Installed -> Prop) (n : nat)
      (f : nat -> list Installed) :
  (forall i, Forall P (f i)) -> Forall P (forIndices n f).
Proof.
  intros H. unfold forIndices. apply Forall_flat_map.
  apply Forall_forall. intros i _. apply H.
Qed.

Lemma intervals_app (l1 l2 : list Installed) :
  intervals (l1 ++ l2) = (intervals l1 ++ intervals l2)%list.
Proof. apply filter_app. Qed.

Lemma carouselInstalls_intervals (i : nat) (card : Carousel.Card) :
  intervals (carouselInstalls i card)
  = if Carousel.length card <=? 1 then []
    else [SetInterval (OnCard i) CarouselRotate 5000].
Proof.
  unfold carouselInstalls, Carousel.setup.
  destruct (Carousel.length card <=? 1); [reflexivity|]. cbn [snd Carousel.installed].
  destruct (Carousel.prevBtn card), (Carousel.nextBtn card); reflexivity.
Qed.

Lemma carouselsFrom_intervals (cards : list Carousel.Card) (i : nat) :
  List.length (intervals (carouselsFrom i cards)) = List.length (rotating cards)
  /\ Forall (fun x => exists j, x = SetInterval (OnCard j) CarouselRotate 5000)
            (intervals (carouselsFrom i cards)).
Proof.
  revert i. induction cards as [|card cards IH]; intros i.
  - cbn. auto.
  - cbn [carouselsFrom]. rewrite intervals_app, carouselInstalls_intervals.
    unfold rotating. cbn [filter]. fold (rotating cards).
    destruct (IH (S i)) as [H1 H2].
    destruct (Carousel.length card <=? 1); cbn [negb app List.length].
    + split; assumption.
    + split; [now rewrite H1|]. constructor; [eauto|exact H2].
Qed.

Lemma intervalsOn_none (j : nat) (l : list Installed) :
  Forall (fun x => match x with SetInterval _ _ _ => False | _ => True end) l ->
  intervalsOn j l = [].
Proof.
  unfold intervalsOn. induction 1 as [|x l Hx _ IH]; [reflexivity|].
  cbn [filter]. destruct x; cbn; auto. contradiction.
Qed.

Lemma intervalsOn_app (j : nat) (l1 l2 : list Installed) :
  intervalsOn j (l1 ++ l2) = (intervalsOn j l1 ++ intervalsOn j l2)%list.
Proof. apply filter_app. Qed.

Lemma carouselInstalls_on (i j : nat) (card : Carousel.Card) :
  intervalsOn j (carouselInstalls i card)
  = if Nat.eqb i j then expectedOn j (Some card) else [].
Proof.
  unfold carouselInstalls, Carousel.setup, expectedOn.
  destruct (Carousel.length card <=? 1); cbn [snd].
  - now destruct (Nat.eqb i j).
  - cbn [Carousel.installed].
    destruct (Carousel.prevBtn card), (Carousel.nextBtn card);
      cbn [app map intervalsOn filter];
      destruct (Nat.eqb_spec i j) as [->|Hne]; reflexivity.
Qed.

(** The cards from position [i] on install, on the card at position [j],
    what is expected of the card found there. *)
Lemma carouselsFrom_on (cards : list Carousel.Card) (i j : nat) :
  intervalsOn j (carouselsFrom i cards)
  = if (j <? i)%nat then [] else expectedOn j (nth_error cards (j - i)).
Proof.
  revert i. induction cards as [|card cards IH]; intros i.
  - cbn [carouselsFrom]. destruct (j <? i)%nat; [reflexivity|].
    now destruct (j - i)%nat.
  - cbn [carouselsFrom]. rewrite intervalsOn_app, carouselInstalls_on, (IH (S i)).
    destruct (Nat.eqb_spec i j) as [->|Hne].
    + replace (j <? S j)%nat with true by (symmetry; apply Nat.ltb_lt; lia).
      replace (j <? j)%nat with false by (symmetry; apply Nat.ltb_ge; lia).
      rewrite Nat.sub_diag. cbn [nth_error]. apply app_nil_r.
    + cbn [app]. destruct (Nat.ltb_spec j i) as [Hlt|Hge].
      * replace (j <? S i)%nat with true by (symmetry; apply Nat.ltb_lt; lia).
        reflexivity.
      * replace (j <? S i)%nat with false by (symmetry; apply Nat.ltb_ge; lia).
        replace (j - i)%nat with (S (j - S i)) by lia. reflexivity.
Qed.

End InstallFacts.

(** X16.  On a page with the hamburger, [init] starts exactly one interval
    on each card that has more than one image, with the rotation callback and
    a period of 5000 ms, none on a card with at most one image, and no
    interval anywhere else. *)
Theorem init_starts_one_interval_per_rotating_card :
  forall (d : Init.Document) (h : Init.Element),
    Init.hamburger d = Some h ->
    (forall j : nat,
        Gallery.intervalsOn j (snd (fst (Init.init d)))
        = Gallery.expectedOn j (nth_error (Init.projectCards d) j))
    /\ Forall (fun x => exists j,
                   x = Init.SetInterval (Init.OnCard j) Init.CarouselRotate 5000)
              (Gallery.intervals (snd (fst (Init.init d))))
    /\ List.length (Gallery.intervals (snd (fst (Init.init d))))
       = List.length (Gallery.rotating (Init.projectCards d)).
Proof.
  intros d h Hh. unfold Init.init. rewrite Hh. cbn [fst snd].
  cbn [Init.withTypingText Init.withSkillBars Init.withProjectCards
       Init.projectCards Init.contactForm Init.typingText Init.navLinks
       Init.animatedElements Init.socialLinks Init.anchorLinks].
  assert (Hmenu : Forall (fun x => match x with
                                   | Init.SetInterval _ _ _ => False
                                   | _ => True
                                   end)
                    (Init.Listener Init.OnHamburger "click" Init.ToggleMenu
                     :: Init.forIndices (List.length (Init.navLinks d))
                          (fun i => [Init.Listener (Init.OnNavLink i) "click"
                                       Init.CloseMenu]))).
  { constructor; [exact I|]. apply forIndices_Forall. intros i. repeat constructor. }
  assert (Htyping : Forall (fun x => match x with
                                     | Init.SetInterval _ _ _ => False
                                     | _ => True
                                     end)
                      (match Init.typingText d with
                       | Some text => [Init.SetTimeout (Init.TypeWriter text) 1000]
                       | None => []
                       end))
    by (destruct (Init.typingText d); repeat constructor).
  assert (Hcontact : Forall (fun x => match x with
                                      | Init.SetInterval _ _ _ => False
                                      | _ => True
                                      end)
                       (match Init.contactForm d with
                        | Some _ => [Init.Listener Init.OnContactForm "submit"
                                       Init.SubmitContact]
                        | None => []
                        end))
    by (destruct (Init.contactForm d); repeat constructor).
  split; [|split].
  - intros j. rewrite !intervalsOn_app.
    rewrite (intervalsOn_none j _ Hmenu), (intervalsOn_none j _ Htyping),
      (intervalsOn_none j _ Hcontact).
    rewrite (intervalsOn_none j [Init.Listener Init.OnWindow "scroll" Init.NavbarScrolled])
      by (repeat constructor).
    rewrite (intervalsOn_none j [Init.Listener Init.OnWindow "scroll" Init.UpdateActiveNav])
      by (repeat constructor).
    rewrite (intervalsOn_none j [Init.Listener Init.OnWindow "scroll" Init.AnimateSkills])
      by (repeat constructor).
    rewrite (intervalsOn_none j (Init.forIndices (Init.animatedElements d) _))
      by (apply forIndices_Forall; intros i; repeat constructor).
    rewrite (intervalsOn_none j (Init.forIndices (Init.socialLinks d) _))
      by (apply forIndices_Forall; intros i; repeat constructor).
    rewrite (intervalsOn_none j (Init.forIndices (Init.anchorLinks d) _))
      by (apply forIndices_Forall; intros i; repeat constructor).
    rewrite (intervalsOn_none j (_ :: _ :: _)) by (repeat constructor).
    cbn [app]. rewrite app_nil_r, carouselsFrom_on.
    cbn [Nat.ltb Nat.leb]. now rewrite Nat.sub_0_r.
  - rewrite !intervals_app.
    rewrite (intervals_none _ Hmenu), (intervals_none _ Htyping),
      (intervals_none _ Hcontact).
    rewrite (intervals_none [Init.Listener Init.OnWindow "scroll" Init.NavbarScrolled])
      by (repeat constructor).
    rewrite (intervals_none [Init.Listener Init.OnWindow "scroll" Init.UpdateActiveNav])
      by (repeat constructor).
    rewrite (intervals_none [Init.Listener Init.OnWindow "scroll" Init.AnimateSkills])
      by (repeat constructor).
    rewrite (intervals_none (Init.forIndices (Init.animatedElements d) _))
      by (apply forIndices_Forall; intros i; repeat constructor).
    rewrite (intervals_none (Init.forIndices (Init.socialLinks d) _))
      by (apply forIndices_Forall; intros i; repeat constructor).
    rewrite (intervals_none (Init.forIndices (Init.anchorLinks d) _))
      by (apply forIndices_Forall; intros i; repeat constructor).
    rewrite (intervals_none (_ :: _ :: _)) by (repeat constructor).
    cbn [app]. rewrite app_nil_r. apply carouselsFrom_intervals.
  - rewrite !intervals_app.
    rewrite (intervals_none _ Hmenu), (intervals_none _ Htyping),
      (intervals_none _ Hcontact).
    rewrite (intervals_none [Init.Listener Init.OnWindow "scroll" Init.NavbarScrolled])
      by (repeat constructor).
    rewrite (intervals_none [Init.Listener Init.OnWindow "scroll" Init.UpdateActiveNav])
      by (repeat constructor).
    rewrite (intervals_none [Init.Listener Init.OnWindow "scroll" Init.AnimateSkills])
      by (repeat constructor).
    rewrite (intervals_none (Init.forIndices (Init.animatedElements d) _))
      by (apply forIndices_Forall; intros i; repeat constructor).
    rewrite (intervals_none (Init.forIndices (Init.socialLinks d) _))
      by (apply forIndices_Forall; intros i; repeat constructor).
    rewrite (intervals_none (Init.forIndices (Init.anchorLinks d) _))
      by (apply forIndices_Forall; intros i; repeat constructor).
    rewrite (intervals_none (_ :: _ :: _)) by (repeat constructor).
    cbn [app]. rewrite app_nil_r. apply carouselsFrom_intervals.
Qed.

Lemma init_starts_one_interval_per_rotating_card_witness :
  Gallery.intervalsOn 0 (snd (fst (Init.init Sample.page)))
  = [Init.SetInterval (Init.OnCard 0) Init.CarouselRotate 5000]
  /\ Gallery.intervalsOn 1 (snd (fst (Init.init Sample.page))) = [].
Proof.
  destruct (init_starts_one_interval_per_rotating_card
              Sample.page (Init.mkElement ["hamburger"]) eq_refl) as [H _].
  split; [exact (H 0%nat) | exact (H 1%nat)].
Defined.

(** ** More on encodeURIComponent *)

Section URIMore.
Import URI.

Lemma occurrences_app (c : ascii) (s t : string) :
  Text.occurrences c (s ++ t)
  = (Text.occurrences c s + Text.occurrences c t)%nat.
Proof.
  induction s as [|x s IH]; [reflexivity|].
  cbn [append Text.occurrences]. rewrite IH. now destruct (Ascii.eqb x c).
Qed.

Lemma hexDigit_unreserved (c : ascii) :
  isUnreserved (hexDigit (N_of_ascii c / 16)) = true
  /\ isUnreserved (hexDigit (N_of_ascii c mod 16)) = true.
Proof. destruct c as [[] [] [] [] [] [] [] []]; split; reflexivity. Qed.

Lemma occurrences_encoded (c : ascii) (s : string) :
  isUnreserved c = false -> c <> "%"%char ->
  Text.occurrences c (encodeURIComponent s) = 0%nat.
Proof.
  intros Hc Hp. induction s as [|x s IH]; [reflexivity|].
  cbn [encodeURIComponent].
  destruct (isUnreserved x) eqn:Ex.
  - cbn [Text.occurrences].
    destruct (Ascii.eqb_spec x c) as [->|_]; [congruence|exact IH].
  - unfold percentEncode. cbn [append Text.occurrences].
    destruct (hexDigit_unreserved x) as [H1 H2].
    destruct (Ascii.eqb_spec "%"%char c) as [E|_]; [congruence|].
    destruct (Ascii.eqb_spec (hexDigit (N_of_ascii x / 16)) c) as [E|_];
      [congruence|].
    destruct (Ascii.eqb_spec (hexDigit (N_of_ascii x mod 16)) c) as [E|_];
      [congruence|].
    exact IH.
Qed.

End URIMore.

(** ** More on the contact form *)

Section MailtoFacts.
Import Mailto.

Lemma splitAt_first (c : ascii) (a b : string) :
  Text.occurrences c a = 0%nat ->
  splitAt c (a ++ String c b) = Some (a, b).
Proof.
  induction a as [|x a IH]; cbn [append splitAt Text.occurrences].
  - intros _. now rewrite Ascii.eqb_refl.
  - destruct (Ascii.eqb x c); [discriminate|]. intros H. now rewrite (IH H).
Qed.

End MailtoFacts.

(** X17.  The link carries the mail intact: read back the way a mail handler
    reads a [mailto:] link (split at [?] and [&], percent-decode), it yields
    the fixed recipient, the subject as typed and the body text, whatever
    characters the fields contain. *)
Theorem mailtoLink_reads_back :
  forall name email subject message : option string,
    Mailto.parse (Contact.mailtoLink name email subject message)
    = Some (Contact.recipient,
            JS.ToString subject,
            Contact.bodyText name email message).
Proof.
  intros name email subject message.
  unfold Contact.mailtoLink, Mailto.parse.
  cbn [append Mailto.stripPrefix Ascii.eqb Bool.eqb].
  unfold Contact.recipient.
  cbn [append Mailto.splitAt Ascii.eqb Bool.eqb option_map fst snd
       Mailto.stripPrefix].
  change (String "&" (String "b" (String "o" (String "d" (String "y" (String "="
            (URI.encodeURIComponent (Contact.bodyText name email message))))))))
    with (String "&" ("body=" ++ URI.encodeURIComponent
                                   (Contact.bodyText name email message))).
  rewrite splitAt_first by (apply occurrences_encoded; [reflexivity|discriminate]).
  cbn [append Mailto.stripPrefix Ascii.eqb Bool.eqb].
  now rewrite !percentDecode_encodeURIComponent.
Qed.

(** X18.  Whatever the visitor typed, and whichever fields the form lacks,
    the link the submit handler navigates to has exactly one [?], exactly one
    [&] and two [=]: the text of a field cannot add a header to the mail or
    end the subject early. *)
Theorem mailtoLink_has_one_query_and_two_fields :
  forall name email subject message : option string,
    let link := Contact.mailtoLink name email subject message in
    Text.occurrences "?" link = 1%nat
    /\ Text.occurrences "&" link = 1%nat
    /\ Text.occurrences "=" link = 2%nat
    /\ Text.occurrences " " link = 0%nat.
Proof.
  intros name email subject message link. unfold link, Contact.mailtoLink.
  repeat split; rewrite !occurrences_app;
    rewrite !occurrences_encoded by (reflexivity || discriminate); reflexivity.
Qed.

(** X19.  On a form without a submit button the handler throws a TypeError
    where it reads the label: the location has been assigned by then, the
    fields and the pending timers are as before, and no timer is set, so the
    form is never reset. *)
Theorem submit_without_button_throws_after_navigating :
  forall p : Contact.Page,
    Contact.submitButton (Contact.form p) = None ->
    snd (Contact.submit p) = JS.Throw JS.TypeError
    /\ Contact.location_href (fst (Contact.submit p)) = Contact.link p
    /\ Contact.form (fst (Contact.submit p)) = Contact.form p
    /\ Contact.timers (fst (Contact.submit p)) = Contact.timers p
    /\ (forall d, Contact.values (Contact.elapse d (fst (Contact.submit p)))
                  = Contact.values (Contact.elapse d p)).
Proof.
  intros p H. rewrite (submit_without_button p H). cbn [fst snd].
  do 4 (split; [reflexivity|]). intros d.
  unfold Contact.elapse, Contact.values.
  cbn [Contact.form Contact.now Contact.timers].
  now destruct (Contact.runDue _ _ _).
Qed.

Lemma submit_without_button_throws_after_navigating_witness :
  snd (Contact.submit
         (Contact.loaded (Contact.mkForm (Contact.fields Sample.janeForm) None)
                         Sample.url))
  = JS.Throw JS.TypeError.
Proof.
  exact (proj1 (submit_without_button_throws_after_navigating
                  (Contact.loaded
                     (Contact.mkForm (Contact.fields Sample.janeForm) None)
                     Sample.url) eq_refl)).
Defined.

Section ContactMore.
Import Contact.

(** The page between a submission and its timer. *)
Lemma submit_then_wait (p : Page) (b : Button) (d : Z) :
  submitButton (form p) = Some b ->
  timers p = [] ->
  d < 3000 ->
  elapse d (fst (submit p))
  = mkPage (mkForm (fields (form p)) (Some (mkButton confirmation "#10b981")))
           (link p) (now p + Z.max 0 d)
           [mkTimer (now p + 3000) (RestoreButton (innerHTML b))].
Proof.
  intros Hb Ht Hd. rewrite (submit_with_button p b Hb). cbn [fst].
  unfold elapse, setTimeout. cbn [now timers form]. rewrite Ht. cbn [enqueue runDue due].
  destruct (Z.leb_spec (now p + 3000) (now p + Z.max 0 d)); [lia|reflexivity].
Qed.

End ContactMore.

(** X20.  A second submission while the confirmation is still up (less than
    3000 ms after the first, no timer pending before it) saves the
    confirmation as the text to put back: once both timers have run, the
    button shows the confirmation for good, not the label it had, and the
    form is reset. *)
Theorem second_submit_leaves_the_confirmation_on_the_button :
  forall (p : Contact.Page) (b : Contact.Button) (d1 d2 : Z),
    Contact.submitButton (Contact.form p) = Some b ->
    Contact.timers p = [] ->
    d1 < 3000 ->
    3000 <= d2 ->
    let p' := fold_left (fun q ev => Contact.step ev q)
                [Contact.Submit; Contact.Elapse d1; Contact.Submit; Contact.Elapse d2]
                p in
    Contact.label p' = Some Contact.confirmation
    /\ Contact.timers p' = []
    /\ Contact.values p' = Contact.defaults p
    /\ (forall d, Contact.label (Contact.elapse d p') = Some Contact.confirmation).
Proof.
  intros p b d1 d2 Hb Ht Hd1 Hd2 p'. unfold p'. cbn [fold_left Contact.step].
  rewrite (submit_then_wait p b d1 Hb Ht Hd1).
  erewrite submit_with_button by reflexivity.
  cbn [fst]. unfold Contact.setTimeout.
  cbn [Contact.now Contact.timers Contact.form Contact.fields Contact.innerHTML
       Contact.enqueue Contact.due].
  destruct (Z.leb_spec (Contact.now p + 3000) (Contact.now p + Z.max 0 d1 + 3000));
    [|lia].
  unfold Contact.elapse.
  cbn [Contact.now Contact.timers Contact.form Contact.runDue Contact.due
       Contact.callback].
  destruct (Z.leb_spec (Contact.now p + 3000)
                       (Contact.now p + Z.max 0 d1 + Z.max 0 d2)); [|lia].
  destruct (Z.leb_spec (Contact.now p + Z.max 0 d1 + 3000)
                       (Contact.now p + Z.max 0 d1 + Z.max 0 d2)); [|lia].
  unfold Contact.label, Contact.values, Contact.defaults.
  cbn [Contact.form Contact.timers Contact.fire Contact.reset Contact.fields
       Contact.submitButton option_map Contact.innerHTML].
  split; [reflexivity|]. split; [reflexivity|].
  split; [now rewrite !map_map|].
  intros d. reflexivity.
Qed.

Lemma second_submit_leaves_the_confirmation_on_the_button_witness :
  Contact.label
    (fold_left (fun q ev => Contact.step ev q)
       [Contact.Submit; Contact.Elapse 1000; Contact.Submit; Contact.Elapse 3000]
       (Contact.loaded Sample.janeForm Sample.url))
  = Some Contact.confirmation.
Proof.
  exact (proj1 (second_submit_leaves_the_confirmation_on_the_button
                  (Contact.loaded Sample.janeForm Sample.url) Sample.button
                  1000 3000 eq_refl eq_refl ltac:(cbn; lia) ltac:(cbn; lia))).
Defined.

(** X21.  What the visitor types into the form while the confirmation is up
    is lost: the timer of the submission resets every field to its default
    value, the ones typed into after the submission too. *)
Theorem input_during_the_confirmation_is_reset :
  forall (p : Contact.Page) (b : Contact.Button) (key v : string) (d1 d2 : Z),
    Contact.submitButton (Contact.form p) = Some b ->
    Contact.timers p = [] ->
    d1 < 3000 ->
    3000 <= d2 ->
    let typed := fold_left (fun q ev => Contact.step ev q)
                   [Contact.Submit; Contact.Elapse d1; Contact.Input key v] p in
    Contact.values typed
    = map (fun fd => if String.eqb (Contact.name fd) key then v
                     else Contact.value fd)
          (Contact.fields (Contact.form p))
    /\ Contact.values (Contact.elapse d2 typed) = Contact.defaults p
    /\ Contact.label (Contact.elapse d2 typed) = Some (Contact.innerHTML b).
Proof.
  intros p b key v d1 d2 Hb Ht Hd1 Hd2 typed. unfold typed.
  cbn [fold_left Contact.step].
  rewrite (submit_then_wait p b d1 Hb Ht Hd1).
  unfold Contact.input, Contact.values, Contact.defaults, Contact.label.
  cbn [Contact.form Contact.fields Contact.submitButton Contact.location_href
       Contact.now Contact.timers].
  split.
  - rewrite map_map. apply map_ext. intros fd.
    now destruct (String.eqb (Contact.name fd) key).
  - unfold Contact.elapse.
    cbn [Contact.form Contact.now Contact.timers Contact.runDue Contact.due
         Contact.callback].
    destruct (Z.leb_spec (Contact.now p + 3000)
                         (Contact.now p + Z.max 0 d1 + Z.max 0 d2)); [|lia].
    cbn [Contact.form Contact.fire Contact.reset Contact.fields
         Contact.submitButton option_map Contact.innerHTML].
    split; [|reflexivity].
    rewrite !map_map. apply map_ext. intros fd.
    now destruct (String.eqb (Contact.name fd) key).
Qed.

Lemma input_during_the_confirmation_is_reset_witness :
  Contact.values
    (Contact.elapse 3000
       (fold_left (fun q ev => Contact.step ev q)
          [Contact.Submit; Contact.Elapse 500; Contact.Input "message" "PS"]
          (Contact.loaded Sample.janeForm Sample.url)))
  = [""; ""; ""; ""].
Proof.
  exact (proj1 (proj2 (input_during_the_confirmation_is_reset
                         (Contact.loaded Sample.janeForm Sample.url) Sample.button
                         "message" "PS" 500 3000
                         eq_refl eq_refl ltac:(cbn; lia) ltac:(cbn; lia)))).
Defined.

(** ** The navbar effect and the mobile menu *)

Section MenuFacts.
Import Init.

Lemma toggleMenu_both (d : Document) (h m : Element) :
  hamburger d = Some h -> navMenu d = Some m ->
  toggleMenu d
  = (withNavMenu
       (withHamburger d (Some (onClass (fun cl => DOMTokenList.toggle cl "active") h)))
       (Some (onClass (fun cl => DOMTokenList.toggle cl "active") m)),
     JS.Normal).
Proof. intros Hh Hm. unfold toggleMenu. rewrite Hh. cbn. now rewrite Hm. Qed.

Lemma closeMenu_both (d : Document) (h m : Element) :
  hamburger d = Some h -> navMenu d = Some m ->
  closeMenu d
  = (withNavMenu
       (withHamburger d (Some (onClass (fun cl => DOMTokenList.remove cl "active") h)))
       (Some (onClass (fun cl => DOMTokenList.remove cl "active") m)),
     JS.Normal).
Proof. intros Hh Hm. unfold closeMenu. rewrite Hh. cbn. now rewrite Hm. Qed.

Lemma menu_run (evs : list Menu.Event) (d : Document) (h m : Element) :
  hamburger d = Some h -> navMenu d = Some m ->
  Menu.isActive (hamburger (Menu.run evs d))
  = Some (Menu.opened evs (DOMTokenList.contains (classList h) "active"))
  /\ Menu.isActive (navMenu (Menu.run evs d))
     = Some (Menu.opened evs (DOMTokenList.contains (classList m) "active")).
Proof.
  revert d h m. induction evs as [|ev evs IH]; intros d h m Hh Hm.
  - cbn. now rewrite Hh, Hm.
  - unfold Menu.run, Menu.opened. cbn [fold_left].
    fold (Menu.run evs (Menu.step d ev)).
    destruct ev; cbn [Menu.step].
    + rewrite (toggleMenu_both d h m Hh Hm). cbn [fst].
      match goal with |- context [Menu.run evs ?d1] =>
        destruct (IH d1 _ _ eq_refl eq_refl) as [H1 H2] end.
      rewrite H1, H2. cbn [onClass classList]. rewrite !contains_toggle. auto.
    + rewrite (closeMenu_both d h m Hh Hm). cbn [fst].
      match goal with |- context [Menu.run evs ?d1] =>
        destruct (IH d1 _ _ eq_refl eq_refl) as [H1 H2] end.
      rewrite H1, H2. cbn [onClass classList]. rewrite !contains_remove. auto.
Qed.

End MenuFacts.

(** X22.  The navbar effect: on a page with a [.navbar], after the scroll
    listener the navbar carries the [scrolled] class exactly when the scroll
    offset is above 100; every other class of it, and the rest of the page,
    is as before. *)
Theorem navbarScrolled_marks_offsets_above_100 :
  forall (d : Init.Document) (n : Init.Element),
    Init.navbar d = Some n ->
    exists n',
      Init.navbarScrolled d = (Init.withNavbar d (Some n'), JS.Normal)
      /\ (DOMTokenList.contains (Init.classList n') "scrolled" = true
          <-> (inject_Z 100 < Init.scrollY d)%Q)
      /\ (forall tok, tok <> "scrolled" ->
                      DOMTokenList.contains (Init.classList n') tok
                      = DOMTokenList.contains (Init.classList n) tok).
Proof.
  intros d n Hn. unfold Init.navbarScrolled. rewrite Hn.
  destruct (Qle_bool (Init.scrollY d) (inject_Z 100)) eqn:E; cbn [negb].
  - eexists. split; [reflexivity|]. cbn [Init.onClass Init.classList]. split.
    + rewrite contains_remove. split; [discriminate|]. intros Hlt.
      apply Qle_bool_iff in E. exfalso. apply (Qlt_irrefl (inject_Z 100)).
      eapply Qlt_le_trans; [exact Hlt | exact E].
    + intros tok Hne. now apply contains_remove_other.
  - eexists. split; [reflexivity|]. cbn [Init.onClass Init.classList]. split.
    + rewrite contains_add. split; [|reflexivity]. intros _.
      apply Qnot_le_lt. intros Hle. apply Qle_bool_iff in Hle. congruence.
    + intros tok Hne. now apply contains_add_other.
Qed.

Lemma navbarScrolled_marks_offsets_above_100_witness :
  exists n',
    Init.navbarScrolled Sample.page = (Init.withNavbar Sample.page (Some n'), JS.Normal)
    /\ (DOMTokenList.contains (Init.classList n') "scrolled" = true
        <-> (inject_Z 100 < Init.scrollY Sample.page)%Q).
Proof.
  destruct (navbarScrolled_marks_offsets_above_100
              Sample.page (Init.mkElement ["navbar"]) eq_refl) as [n' [H1 [H2 _]]].
  exists n'. split; assumption.
Defined.

(** X23.  The mobile menu: on a page with the hamburger and the menu, after
    any run of clicks each of the two carries [active] according to the
    clicks alone (a click on the hamburger flips it, a click on a navigation
    link clears it); so when the two start out alike they stay alike. *)
Theorem menu_and_hamburger_stay_in_step :
  forall (d : Init.Document) (h m : Init.Element) (evs : list Menu.Event),
    Init.hamburger d = Some h ->
    Init.navMenu d = Some m ->
    let d' := Menu.run evs d in
    Menu.isActive (Init.hamburger d')
    = Some (Menu.opened evs (DOMTokenList.contains (Init.classList h) "active"))
    /\ Menu.isActive (Init.navMenu d')
       = Some (Menu.opened evs (DOMTokenList.contains (Init.classList m) "active"))
    /\ (DOMTokenList.contains (Init.classList h) "active"
        = DOMTokenList.contains (Init.classList m) "active" ->
        Menu.isActive (Init.hamburger d') = Menu.isActive (Init.navMenu d')).
Proof.
  intros d h m evs Hh Hm d'. unfold d'.
  destruct (menu_run evs d h m Hh Hm) as [H1 H2].
  split; [exact H1|]. split; [exact H2|].
  intros E. now rewrite H1, H2, E.
Qed.

Lemma menu_and_hamburger_stay_in_step_witness :
  Menu.isActive
    (Init.hamburger
       (Menu.run [Menu.ClickHamburger; Menu.ClickHamburger; Menu.ClickHamburger;
                  Menu.ClickNavLink; Menu.ClickHamburger] Sample.page))
  = Some true
  /\ Menu.isActive
       (Init.navMenu
          (Menu.run [Menu.ClickHamburger; Menu.ClickHamburger; Menu.ClickHamburger;
                     Menu.ClickNavLink; Menu.ClickHamburger] Sample.page))
     = Some true.
Proof.
  destruct (menu_and_hamburger_stay_in_step
              Sample.page (Init.mkElement ["hamburger"]) (Init.mkElement ["nav-menu"])
              [Menu.ClickHamburger; Menu.ClickHamburger; Menu.ClickHamburger;
               Menu.ClickNavLink; Menu.ClickHamburger] eq_refl eq_refl)
    as [H1 [H2 _]].
  split; [exact H1 | exact H2].
Defined.

(** ** The scroll listeners *)

Section ScrollFacts.
Import Init.

Lemma animateBar_idempotent (ih : Z) (b : Skills.Bar) :
  Skills.animateBar ih (Skills.animateBar ih b) = Skills.animateBar ih b.
Proof.
  unfold Skills.animateBar at 2 3.
  destruct (Skills.isVisible ih b
            && negb (DOMTokenList.contains (Skills.classList b) "animated")) eqn:E.
  - apply animateBar_animated. unfold Skills.animated. cbn [Skills.classList].
    apply contains_add.
  - unfold Skills.animateBar. now rewrite E.
Qed.

Lemma animateSkills_idempotent (ih : Z) (bars : list Skills.Bar) :
  Skills.animateSkills ih (Skills.animateSkills ih bars)
  = Skills.animateSkills ih bars.
Proof.
  unfold Skills.animateSkills. rewrite map_map. apply map_ext.
  intros b. apply animateBar_idempotent.
Qed.

(** The navbar listener leaves the links, the bars and the window alone,
    also when it throws. *)
Lemma navbarScrolled_frame (d : Document) :
  let d1 := fst (navbarScrolled d) in
  navLinks d1 = navLinks d /\ sections d1 = sections d
  /\ skillBars d1 = skillBars d /\ scrollY d1 = scrollY d
  /\ innerHeight d1 = innerHeight d.
Proof.
  unfold navbarScrolled. destruct (navbar d); [|cbn; auto].
  destruct (negb _); cbn; auto.
Qed.

End ScrollFacts.

(** X24.  The debounced callback is redundant: run on the page the three
    scroll listeners have just left (same scroll offset, same layout, every
    link with an [href]), it ends normally and changes nothing. *)
Theorem settle_after_the_listeners_changes_nothing :
  forall d : Init.Document,
    Forall (fun l => Nav.href l <> None) (Init.navLinks d) ->
    Scroll.settle (fst (Scroll.listeners d)) = (fst (Scroll.listeners d), JS.Normal).
Proof.
  intros d Hall. unfold Scroll.listeners.
  destruct (navbarScrolled_frame d) as [F1 [F2 [F3 [F4 F5]]]].
  destruct (Init.navbarScrolled d) as [d1 c1]. cbn [fst] in *.
  unfold Scroll.settle, Scroll.updateActiveNav, Scroll.animateSkills.
  destruct (Nav.updateActiveNav (Init.scrollY d1) (Init.sections d1) (Init.navLinks d1))
    as [links c2] eqn:E2.
  cbn [fst Scroll.withNavLinks Init.withSkillBars Init.scrollY Init.sections
       Init.navLinks Init.innerHeight Init.skillBars].
  pose proof (updateActiveNav_idempotent_lemma
                (Init.scrollY d1) (Init.sections d1) (Init.navLinks d1)) as Hidem.
  rewrite E2 in Hidem. cbn [fst] in Hidem. rewrite Hidem.
  assert (Hc : c2 = JS.Normal).
  { rewrite F1 in E2. unfold Nav.updateActiveNav in E2.
    rewrite (forEach_markLink _ _ Hall) in E2. now inversion E2. }
  subst c2.
  cbn [Scroll.withNavLinks Init.withSkillBars Init.scrollY Init.sections
       Init.navLinks Init.innerHeight Init.skillBars].
  now rewrite animateSkills_idempotent.
Qed.

Lemma settle_after_the_listeners_changes_nothing_witness :
  Scroll.settle (fst (Scroll.listeners Sample.page))
  = (fst (Scroll.listeners Sample.page), JS.Normal).
Proof.
  exact (settle_after_the_listeners_changes_nothing
           Sample.page ltac:(repeat constructor; discriminate)).
Defined.

(** X25.  Exceptions at a scroll event.  On a page without a [.navbar] the
    first listener throws at every scroll event, and the other two still do
    their work, since each is a listener of its own.  In the debounced
    callback the two calls share one function body: when a link without an
    [href] makes [updateActiveNav] throw there, [animateSkills] is not
    run. *)
Theorem scroll_listeners_fail_apart_and_settle_fails_whole :
  forall d : Init.Document,
    (Init.navbar d = None ->
     snd (Scroll.listeners d)
     = [JS.Throw JS.TypeError;
        snd (Nav.updateActiveNav (Init.scrollY d) (Init.sections d) (Init.navLinks d));
        JS.Normal]
     /\ Init.navLinks (fst (Scroll.listeners d))
        = fst (Nav.updateActiveNav (Init.scrollY d) (Init.sections d) (Init.navLinks d))
     /\ Init.skillBars (fst (Scroll.listeners d))
        = Skills.animateSkills (Init.innerHeight d) (Init.skillBars d))
    /\ (Exists (fun l => Nav.href l = None) (Init.navLinks d) ->
        snd (Scroll.settle d) = JS.Throw JS.TypeError
        /\ Init.skillBars (fst (Scroll.settle d)) = Init.skillBars d).
Proof.
  intros d. split.
  - intros Hn. unfold Scroll.listeners. rewrite (navbarScrolled_no_navbar d Hn).
    unfold Scroll.updateActiveNav.
    destruct (Nav.updateActiveNav _ _ _) as [links c]. cbn. auto.
  - intros Hex. unfold Scroll.settle, Scroll.updateActiveNav.
    assert (Hthrow : snd (Nav.updateActiveNav (Init.scrollY d) (Init.sections d)
                            (Init.navLinks d)) = JS.Throw JS.TypeError).
    { unfold Nav.updateActiveNav.
      induction Hex as [l links Hl|l links _ IH]; cbn [JS.forEach].
      - unfold Nav.markLink. cbn [Nav.href]. now rewrite Hl.
      - destruct (Nav.markLink _ l) as [l' [|[]]]; [|reflexivity].
        destruct (JS.forEach _ links) as [links' c]. exact IH. }
    destruct (Nav.updateActiveNav _ _ _) as [links c]. cbn [snd] in Hthrow.
    subst c. cbn. auto.
Qed.

Lemma scroll_listeners_fail_apart_and_settle_fails_whole_witness :
  snd (Scroll.listeners Sample.pageNoNavbar)
  = [JS.Throw JS.TypeError; JS.Normal; JS.Normal]
  /\ Init.skillBars
       (fst (Scroll.settle
               (Scroll.withNavLinks Sample.page [Nav.mkLink None ["nav-link"]])))
     = [Sample.freshBar].
Proof.
  split.
  - exact (proj1 (proj1 (scroll_listeners_fail_apart_and_settle_fails_whole
                           Sample.pageNoNavbar) eq_refl)).
  - exact (proj2 (proj2 (scroll_listeners_fail_apart_and_settle_fails_whole
                           (Scroll.withNavLinks Sample.page
                              [Nav.mkLink None ["nav-link"]]))
                        ltac:(constructor; reflexivity))).
Defined.

(** ** Smooth scroll for anchor links *)

Section AnchorFacts.
Import Anchor.

Lemma find_first {X : Type} (p : X -> bool) (pre post : list X) (x : X) :
  Forall (fun y => p y = false) pre -> p x = true ->
  find p (pre ++ x :: post) = Some x.
Proof.
  intros Hpre Hx. induction Hpre as [|y pre Hy _ IH]; cbn [app find].
  - now rewrite Hx.
  - now rewrite Hy.
Qed.

Lemma getElementById_first (pre post : list Target) (t : Target) :
  id t <> "" ->
  Forall (fun x => id x <> id t) pre ->
  getElementById (pre ++ t :: post) (id t) = Some t.
Proof.
  intros Hne Hpre. unfold getElementById.
  replace (String.eqb (id t) "") with false by (symmetry; now apply String.eqb_neq).
  apply find_first.
  - eapply Forall_impl; [|exact Hpre]. cbn beta. intros x Hx.
    now apply String.eqb_neq.
  - apply String.eqb_refl.
Qed.

Lemma getElementById_none (elements : list Target) (key : string) :
  key = "" \/ Forall (fun x => id x <> key) elements ->
  getElementById elements key = None.
Proof.
  unfold getElementById. intros [->|H]; [reflexivity|].
  destruct (String.eqb key ""); [reflexivity|].
  apply find_none_iff. eapply Forall_impl; [|exact H]. cbn beta.
  intros x Hx. now apply String.eqb_neq.
Qed.

Lemma targetsOf_app (l1 l2 : list Nav.Section) :
  targetsOf (l1 ++ l2) = (targetsOf l1 ++ targetsOf l2)%list.
Proof. unfold targetsOf. apply flat_map_app. Qed.

Lemma targetsOf_other (key : string) (pre : list Nav.Section) :
  Forall (fun x => Nav.id x <> Some key) pre ->
  Forall (fun x => id x <> key) (targetsOf pre).
Proof.
  induction 1 as [|x pre Hx _ IH]; [constructor|].
  unfold targetsOf. cbn [flat_map]. fold (targetsOf pre).
  destruct (Nav.id x) as [i|]; cbn [app]; [|exact IH].
  constructor; [|exact IH]. cbn [id]. congruence.
Qed.

End AnchorFacts.

(** X26.  A click on an anchor link with an [href]: the default action is
    always prevented and nothing is thrown; the page is asked to scroll to 80
    px above the first element whose id is the [href] without its first
    character; when that id is empty (the link [#]) or no element has it, no
    scroll is asked for. *)
Theorem anchor_click_scrolls_to_the_target_less_80 :
  forall (elements : list Anchor.Target) (h : string),
    let r := Anchor.click elements (Some h) in
    snd r = JS.Normal
    /\ Anchor.defaultPrevented (fst r) = true
    /\ (forall pre t post,
           elements = (pre ++ t :: post)%list ->
           Anchor.id t = Anchor.substring1 h ->
           Anchor.id t <> "" ->
           Forall (fun x => Anchor.id x <> Anchor.id t) pre ->
           Anchor.scrollTo (fst r) = Some (Anchor.offsetTop t - 80))
    /\ (Anchor.substring1 h = ""
        \/ Forall (fun x => Anchor.id x <> Anchor.substring1 h) elements ->
        Anchor.scrollTo (fst r) = None).
Proof.
  intros elements h r. unfold r, Anchor.click.
  split; [now destruct (Anchor.getElementById _ _)|].
  split; [now destruct (Anchor.getElementById _ _)|].
  split.
  - intros pre t post -> Hid Hne Hpre. rewrite <- Hid.
    now rewrite (getElementById_first pre post t Hne Hpre).
  - intros H. now rewrite (getElementById_none elements _ H).
Qed.

Lemma anchor_click_scrolls_to_the_target_less_80_witness :
  Anchor.scrollTo
    (fst (Anchor.click (Anchor.targetsOf Sample.sections) (Some "#skills")))
  = Some 1220
  /\ Anchor.scrollTo
       (fst (Anchor.click (Anchor.targetsOf Sample.sections) (Some "#")))
     = None.
Proof.
  destruct (anchor_click_scrolls_to_the_target_less_80
              (Anchor.targetsOf Sample.sections) "#skills") as [_ [_ [Hhit _]]].
  destruct (anchor_click_scrolls_to_the_target_less_80
              (Anchor.targetsOf Sample.sections) "#") as [_ [_ [_ Hmiss]]].
  split.
  - exact (Hhit [Anchor.mkTarget "about" 600] (Anchor.mkTarget "skills" 1300)
                [Anchor.mkTarget "contact" 2200] eq_refl eq_refl
                ltac:(discriminate) ltac:(repeat constructor; discriminate)).
  - exact (Hmiss (or_introl eq_refl)).
Defined.

(** X27.  From the click to the highlight.  With the sections in ascending
    order, a click on the link [#key] of the first section with id [key] asks
    for a scroll to 80 px above that section; when the page can scroll that
    far and the next section starts more than 200 px below where the scroll
    ends, [updateActiveNav] at that scroll offset keeps [key] as the current
    section. *)
Theorem anchor_click_lands_in_its_section :
  forall (pre post : list Nav.Section) (s : Nav.Section) (key : string)
         (maxScroll : Z),
    Nav.id s = Some key ->
    key <> "" ->
    Forall (fun x => Nav.id x <> Some key) pre ->
    StronglySorted (fun a b => Nav.offsetTop a <= Nav.offsetTop b)
                   (pre ++ s :: post) ->
    Nav.offsetTop s - 80 <= maxScroll ->
    (forall nxt, hd_error post = Some nxt ->
                 Z.max 0 (Nav.offsetTop s - 80) < Nav.offsetTop nxt - 200) ->
    let sections := (pre ++ s :: post)%list in
    Anchor.click (Anchor.targetsOf sections) (Some (String "#" key))
    = (Anchor.mkOutcome true (Some (Nav.offsetTop s - 80)), JS.Normal)
    /\ Nav.scanSections
         (inject_Z (Anchor.arrive maxScroll (Nav.offsetTop s - 80))) sections
       = Some key.
Proof.
  intros pre post s key maxScroll Hid Hne Hpre Hsorted Hmax Hnext sections.
  unfold sections. split.
  - unfold Anchor.click. cbn [Anchor.substring1].
    rewrite targetsOf_app. unfold Anchor.targetsOf at 2. cbn [flat_map].
    rewrite Hid. cbn [app].
    rewrite (getElementById_first (Anchor.targetsOf pre) _
               (Anchor.mkTarget key (Nav.offsetTop s)) Hne
               (targetsOf_other key pre Hpre)).
    reflexivity.
  - rewrite <- Hid. apply scan_sorted_in_view; [exact Hsorted| |].
    + rewrite <- Zle_Qle. unfold Anchor.arrive. lia.
    + intros nxt Hn. specialize (Hnext nxt Hn).
      rewrite <- Zlt_Qlt. unfold Anchor.arrive. lia.
Qed.

Lemma anchor_click_lands_in_its_section_witness :
  Anchor.click (Anchor.targetsOf Sample.sections) (Some "#skills")
  = (Anchor.mkOutcome true (Some 1220), JS.Normal)
  /\ Nav.scanSections (inject_Z (Anchor.arrive 2400 1220)) Sample.sections
     = Some "skills".
Proof.
  exact (anchor_click_lands_in_its_section
           [Nav.mkSection 600 700 (Some "about")]
           [Nav.mkSection 2200 800 (Some "contact")]
           (Nav.mkSection 1300 900 (Some "skills")) "skills" 2400
           eq_refl ltac:(discriminate) ltac:(repeat constructor; discriminate)
           ltac:(repeat constructor; cbn; lia) ltac:(cbn; lia)
           ltac:(intros nxt H; injection H as <-; cbn; lia)).
Defined.

(** ** Fade-in on scroll *)

Section FadeInFacts.
Import FadeIn.

Lemma updateAt_nth (i j : nat) (f : DOMTokenList.t -> DOMTokenList.t)
      (l : list DOMTokenList.t) :
  nth_error (updateAt i f l) j
  = option_map (fun x => if Nat.eqb i j then f x else x) (nth_error l j).
Proof.
  revert i j. induction l as [|x l IH]; intros i j.
  - destruct i, j; reflexivity.
  - destruct i as [|i], j as [|j]; cbn [updateAt nth_error option_map Nat.eqb];
      try reflexivity.
    + now destruct (nth_error l j).
    + apply IH.
Qed.

Lemma callback_nth (entries : list Entry) (elements : list DOMTokenList.t)
      (j : nat) (cl : DOMTokenList.t) :
  nth_error elements j = Some cl ->
  exists cl',
    nth_error (callback entries elements) j = Some cl'
    /\ DOMTokenList.contains cl' "visible"
       = DOMTokenList.contains cl "visible" || reported entries j
    /\ (forall tok, tok <> "visible" ->
                    DOMTokenList.contains cl' tok = DOMTokenList.contains cl tok).
Proof.
  unfold callback. revert elements cl.
  induction entries as [|e entries IH]; intros elements cl Hj.
  - exists cl. cbn. rewrite orb_false_r. auto.
  - cbn [fold_left].
    assert (Hstep : exists cl1,
               nth_error (onEntry elements e) j = Some cl1
               /\ DOMTokenList.contains cl1 "visible"
                  = DOMTokenList.contains cl "visible"
                    || (isIntersecting e && Nat.eqb (target e) j)
               /\ (forall tok, tok <> "visible" ->
                               DOMTokenList.contains cl1 tok
                               = DOMTokenList.contains cl tok)).
    { unfold onEntry. destruct (isIntersecting e); cbn [andb].
      - rewrite updateAt_nth, Hj. cbn [option_map].
        destruct (Nat.eqb (target e) j).
        + eexists. split; [reflexivity|]. split.
          * rewrite contains_add. now rewrite orb_true_r.
          * intros tok Hne. now apply contains_add_other.
        + exists cl. rewrite orb_false_r. auto.
      - exists cl. rewrite orb_false_r. auto. }
    destruct Hstep as [cl1 [H1 [H2 H3]]].
    destruct (IH _ cl1 H1) as [cl' [K1 [K2 K3]]].
    exists cl'. split; [exact K1|]. split.
    + rewrite K2, H2. unfold reported. cbn [existsb]. now rewrite orb_assoc.
    + intros tok Hne. now rewrite K3, H3.
Qed.

End FadeInFacts.

(** X28.  The fade-in observer: after a callback, an observed element
    carries [visible] exactly when it carried it before or one of the entries
    reports it as intersecting, so an element once revealed stays revealed;
    every other class of it, [fade-in] among them, is as before. *)
Theorem fade_in_reveals_and_never_hides :
  forall (entries : list FadeIn.Entry) (elements : list DOMTokenList.t)
         (j : nat) (cl : DOMTokenList.t),
    nth_error elements j = Some cl ->
    exists cl',
      nth_error (FadeIn.callback entries elements) j = Some cl'
      /\ DOMTokenList.contains cl' "visible"
         = DOMTokenList.contains cl "visible" || FadeIn.reported entries j
      /\ (forall tok, tok <> "visible" ->
                      DOMTokenList.contains cl' tok = DOMTokenList.contains cl tok).
Proof. intros entries elements j cl. apply callback_nth. Qed.

Lemma fade_in_reveals_and_never_hides_witness :
  exists cl',
    nth_error
      (FadeIn.callback [FadeIn.mkEntry 1 true; FadeIn.mkEntry 0 false;
                        FadeIn.mkEntry 1 false]
                       (FadeIn.tag [["about-content"]; ["project-card"]])) 1
    = Some cl'
    /\ DOMTokenList.contains cl' "visible" = true.
Proof.
  destruct (fade_in_reveals_and_never_hides
              [FadeIn.mkEntry 1 true; FadeIn.mkEntry 0 false; FadeIn.mkEntry 1 false]
              (FadeIn.tag [["about-content"]; ["project-card"]]) 1
              ["project-card"; "fade-in"] eq_refl) as [cl' [H1 [H2 _]]].
  exists cl'. split; [exact H1 | exact H2].
Defined.

(** ** Classes on the body *)

Section BodyFacts.
Import Body.

Lemma handle_keyboard (cl : DOMTokenList.t) (ev : Event) :
  DOMTokenList.contains (handle cl ev) "keyboard-navigation"
  = if isTab ev then true
    else if isMouseDown ev then false
         else DOMTokenList.contains cl "keyboard-navigation".
Proof.
  destruct ev as [key| | | |]; cbn [handle isTab isMouseDown].
  - destruct (String.eqb key "Tab"); [apply contains_add|reflexivity].
  - apply contains_remove.
  - apply contains_add_other. discriminate.
  - apply contains_remove_other. discriminate.
  - apply contains_add_other. discriminate.
Qed.

Lemma handle_loaded (cl : DOMTokenList.t) (ev : Event) :
  DOMTokenList.contains cl "loaded" = true ->
  DOMTokenList.contains (handle cl ev) "loaded" = true.
Proof.
  intros H. destruct ev as [key| | | |]; cbn [handle].
  - destruct (String.eqb key "Tab"); [|exact H].
    rewrite contains_add_other by discriminate. exact H.
  - rewrite contains_remove_other by discriminate. exact H.
  - rewrite contains_add_other by discriminate. exact H.
  - rewrite contains_remove_other by discriminate. exact H.
  - apply contains_add.
Qed.

Lemma run_keyboard_stays (flag : bool) (evs : list Event) (cl : DOMTokenList.t) :
  DOMTokenList.contains cl "keyboard-navigation" = flag ->
  Forall (fun ev => (if flag then isMouseDown ev else isTab ev) = false) evs ->
  DOMTokenList.contains (run evs cl) "keyboard-navigation" = flag.
Proof.
  unfold run. revert cl. induction evs as [|ev evs IH]; intros cl Hcl Hall.
  - exact Hcl.
  - inversion Hall as [|x l Hev Hrest]; subst x l. cbn [fold_left].
    apply IH; [|exact Hrest].
    rewrite handle_keyboard. destruct flag.
    + rewrite Hev. now destruct (isTab ev).
    + rewrite Hev. now destruct (isMouseDown ev).
Qed.

Lemma run_loaded_stays (evs : list Event) (cl : DOMTokenList.t) :
  DOMTokenList.contains cl "loaded" = true ->
  DOMTokenList.contains (run evs cl) "loaded" = true.
Proof.
  unfold run. revert cl. induction evs as [|ev evs IH]; intros cl H; [exact H|].
  cbn [fold_left]. apply IH. now apply handle_loaded.
Qed.

End BodyFacts.

(** X29.  The classes on the body follow the last event that matters: the
    body carries [keyboard-navigation] after a run of events whose last Tab
    keydown is followed by no mousedown, and does not carry it after a run
    whose last mousedown is followed by no Tab keydown, whatever other keys,
    print or load events come in between; and once the load event has come,
    [loaded] stays for good. *)
Theorem body_follows_the_last_tab_or_mousedown :
  forall (pre post : list Body.Event) (cl : DOMTokenList.t),
    (Forall (fun ev => Body.isMouseDown ev = false) post ->
     DOMTokenList.contains
       (Body.run (pre ++ Body.KeyDown "Tab" :: post) cl) "keyboard-navigation"
     = true)
    /\ (Forall (fun ev => Body.isTab ev = false) post ->
        DOMTokenList.contains
          (Body.run (pre ++ Body.MouseDown :: post) cl) "keyboard-navigation"
        = false)
    /\ DOMTokenList.contains (Body.run (pre ++ Body.Load :: post) cl) "loaded"
       = true.
Proof.
  intros pre post cl. unfold Body.run. rewrite !fold_left_app. cbn [fold_left].
  split; [|split].
  - intros H. apply (run_keyboard_stays true); [|exact H].
    rewrite handle_keyboard. reflexivity.
  - intros H. apply (run_keyboard_stays false); [|exact H].
    rewrite handle_keyboard. reflexivity.
  - apply run_loaded_stays. apply contains_add.
Qed.

Lemma body_follows_the_last_tab_or_mousedown_witness :
  DOMTokenList.contains
    (Body.run ([Body.MouseDown; Body.Load]
               ++ Body.KeyDown "Tab" :: [Body.KeyDown "a"; Body.BeforePrint])
              ["home"]) "keyboard-navigation"
  = true.
Proof.
  exact (proj1 (body_follows_the_last_tab_or_mousedown
                  [Body.MouseDown; Body.Load] [Body.KeyDown "a"; Body.BeforePrint]
                  ["home"])
               ltac:(repeat constructor)).
Defined.

(** ** Counterexamples *)

(** After the early return the container is hidden, so the controls of a card
    that keeps them in an [.image-nav], or has none, are out of sight. *)
Lemma setup_hides_the_container (card : Carousel.Card) :
  Carousel.length card <= 1 ->
  Carousel.imageNav card <> None
  \/ (Carousel.prevBtn card = false /\ Carousel.nextBtn card = false) ->
  Gallery.controlsHidden (fst (Carousel.setup card)) = true.
Proof.
  intros HN H. unfold Carousel.setup. apply Z.leb_le in HN. rewrite HN.
  unfold Gallery.controlsHidden. cbn [fst Carousel.imageNav Carousel.prevBtn Carousel.nextBtn].
  destruct (Carousel.imageNav card) as [nav|]; [reflexivity|].
  cbn [option_map]. destruct H as [H|[-> ->]]; [contradiction|reflexivity].
Qed.

(** C5, the claim as written fails on a card with one image whose previous
    and next buttons are not wrapped in an [.image-nav]: the callback finds no
    container to hide and returns, and the two buttons stay as the markup
    shows them. *)
Lemma carousel_single_image_bare_controls_stay :
  Carousel.length Gallery.bareCard <= 1
  /\ fst (Carousel.setup Gallery.bareCard) = Gallery.bareCard
  /\ Gallery.controlsHidden (fst (Carousel.setup Gallery.bareCard)) = false
  /\ ~ (forall card : Carousel.Card,
          Carousel.length card <= 1 ->
          Gallery.controlsHidden (fst (Carousel.setup card)) = true
          /\ snd (Carousel.setup card) = None
          /\ (forall evs, Carousel.run evs (Carousel.setup card)
                          = Carousel.setup card)).
Proof.
  assert (HN : Carousel.length Gallery.bareCard <= 1) by (cbn; lia).
  split; [exact HN|]. split; [reflexivity|]. split; [reflexivity|].
  intros H. destruct (H Gallery.bareCard HN) as [Hhidden _].
  discriminate Hhidden.
Qed.

(** C10, the claim as written fails when a link has no [href]: at 1200 px the
    scan keeps [skills]; the loop throws at the logo link, which comes first,
    and the link to [#skills] behind it, whose [href] contains [skills], is
    left without the [active] class. *)
Lemma updateActiveNav_link_without_href_breaks_marking :
  let current := JS.ToString (Nav.scanSections (1200 # 1) Sample.sections) in
  let links' := fst (Nav.updateActiveNav (1200 # 1) Sample.sections Broken.links) in
  current = "skills"
  /\ snd (Nav.updateActiveNav (1200 # 1) Sample.sections Broken.links)
     = JS.Throw JS.TypeError
  /\ nth_error links' 2 = Some (Nav.mkLink (Some "#skills") ["nav-link"])
  /\ JS.includes "#skills" current = true
  /\ ~ (forall i l', nth_error links' i = Some l' ->
          (Nav.isActive l' = true <->
           exists h pre post, Nav.href l' = Some h /\ h = pre ++ current ++ post)).
Proof.
  cbn zeta. split; [reflexivity|]. split; [reflexivity|].
  split; [reflexivity|]. split; [reflexivity|].
  intros H.
  specialize (H 2%nat (Nav.mkLink (Some "#skills") ["nav-link"]) eq_refl).
  destruct H as [_ H].
  assert (Hact : Nav.isActive (Nav.mkLink (Some "#skills") ["nav-link"]) = true).
  { apply H. exists "#skills", "#", "". split; reflexivity. }
  discriminate Hact.
Qed.
